(** * docx-cardflip: the DOCX-to-flashcard segmentation engine and the viewer's
    load path, embedded from [src/components/DocxToJsonConverter.tsx],
    [src/App.tsx] and the plain-JavaScript viewer (the part whose file name
    is not recorded).

    JavaScript strings are sequences of UTF-16 code units; a code unit is a
    number [N], a string a [list N].  The regular expressions of the program
    are written as syntax trees and run by a backtracking matcher in
    continuation-passing style, the way ECMAScript defines matching.  Every
    pattern the program uses turns out to be deterministic (the classes that
    meet at each [\s*] are disjoint); the recognisers that read them without
    backtracking are defined at the end of the definitions and proved equal
    to the matcher, and the longer proofs work with them. *)

From Stdlib Require Import String Ascii.
From Stdlib Require Import NArith ZArith Arith Lia Bool List.
Import ListNotations.

(* ================================================================== *)
(** ** JavaScript strings *)

Definition cu := N.
Definition str := list cu.

Definition LF : cu := 10%N.
Definition CR : cu := 13%N.
Definition SP : cu := 32%N.
Definition NBSP : cu := 160%N.

(** String literals of this file are written in UTF-8; [lit] decodes the
    one- to three-byte sequences of the Basic Multilingual Plane into code
    units.  It is used for concrete inputs only. *)
Fixpoint bytes (s : string) : list N :=
  match s with
  | EmptyString => []
  | String a r => N_of_ascii a :: bytes r
  end.

Fixpoint utf16 (bs : list N) : str :=
  match bs with
  | [] => []
  | b :: r =>
      if (b <? 128)%N then b :: utf16 r
      else if (b <? 224)%N then
        match r with
        | b2 :: r' => ((b - 192) * 64 + (b2 - 128))%N :: utf16 r'
        | [] => []
        end
      else
        match r with
        | b2 :: b3 :: r' =>
            ((b - 224) * 4096 + (b2 - 128) * 64 + (b3 - 128))%N :: utf16 r'
        | _ => []
        end
  end.

Definition lit (s : string) : str := utf16 (bytes s).

(** [\s] of a regular expression, and what [trim], [trimEnd] strip:
    WhiteSpace and LineTerminator of ECMAScript. *)
Definition isSpace (c : cu) : bool :=
  ((9 <=? c) && (c <=? 13) || (c =? 32) || (c =? 160) || (c =? 5760)
   || ((8192 <=? c) && (c <=? 8202)) || (c =? 8232) || (c =? 8233)
   || (c =? 8239) || (c =? 8287) || (c =? 12288) || (c =? 65279))%N.

Fixpoint trimStart (s : str) : str :=
  match s with
  | [] => []
  | c :: r => if isSpace c then trimStart r else s
  end.

(** The run of white space [trimStart] removes. *)
Fixpoint takeSpaces (s : str) : str :=
  match s with
  | [] => []
  | c :: r => if isSpace c then c :: takeSpaces r else []
  end.

Definition trimEnd (s : str) : str := rev (trimStart (rev s)).
Definition trim (s : str) : str := trimEnd (trimStart s).

Definition isEmpty (s : str) : bool :=
  match s with [] => true | _ => false end.

Fixpoint eqs (a b : str) : bool :=
  match a, b with
  | [], [] => true
  | x :: a', y :: b' => (x =? y)%N && eqs a' b'
  | _, _ => false
  end.

(** [s.replace(/c/g, '')] and [s.replace(/a/g, b)] for single code units. *)
Definition removeAll (c : cu) (s : str) : str :=
  filter (fun x => negb (x =? c)%N) s.

Definition replaceChar (a b : cu) (s : str) : str :=
  map (fun x => if (x =? a)%N then b else x) s.

(** [s.split(sep)] for a separator class of single code units: always at
    least one piece. *)
Fixpoint splitOn (p : cu -> bool) (s : str) : list str :=
  match s with
  | [] => [[]]
  | c :: r =>
      if p c then [] :: splitOn p r
      else match splitOn p r with
           | [] => [[c]]
           | piece :: rest => (c :: piece) :: rest
           end
  end.

Fixpoint join (sep : str) (l : list str) : str :=
  match l with
  | [] => []
  | [x] => x
  | x :: r => x ++ sep ++ join sep r
  end.

(** The part of [s] in front of its suffix [v]. *)
Definition consumed (s v : str) : str := firstn (length s - length v) s.

(* ================================================================== *)
(** ** Regular expressions *)

(** The constructs the program's patterns use: a class of code units,
    sequence, alternative, greedy [*] and [?], a capture group, and [$]
    (no [m] flag: the end of the input). *)
Inductive re : Type :=
| Chr (p : cu -> bool)
| Cat (a b : re)
| Alt (a b : re)
| Star (a : re)
| Opt (a : re)
| Grp (n : nat) (a : re)
| Eos.

(** The captures of a match, the latest first. *)
Definition caps := list (nat * str).

Fixpoint group (n : nat) (c : caps) : str :=
  match c with
  | [] => []
  | (k, v) :: r => if k =? n then v else group n r
  end.

(** A matcher takes the rest of the input, the captures so far and a
    continuation; the continuation's failure makes it try its next choice. *)
Definition matcher (R : Type) : Type :=
  str -> caps -> (str -> caps -> option R) -> option R.

(** [a*]: one more iteration first, then the continuation.  An iteration
    that consumes nothing is refused, as the standard has it. *)
Fixpoint starLoop {R : Type} (ma : matcher R) (k : str -> caps -> option R)
  (fuel : nat) (s : str) (c : caps) : option R :=
  match fuel with
  | 0 => k s c
  | S f =>
      match ma s c (fun s' c' =>
                      if length s' <? length s then starLoop ma k f s' c'
                      else None)
      with
      | Some x => Some x
      | None => k s c
      end
  end.

Fixpoint matches {R : Type} (r : re) : matcher R :=
  fun s c k =>
  match r with
  | Chr p =>
      match s with
      | x :: s' => if p x then k s' c else None
      | [] => None
      end
  | Cat a b => matches a s c (fun s' c' => matches b s' c' k)
  | Alt a b =>
      match matches a s c k with
      | Some x => Some x
      | None => matches b s c k
      end
  | Opt a =>
      match matches a s c k with
      | Some x => Some x
      | None => k s c
      end
  | Grp n a => matches a s c (fun s' c' => k s' ((n, consumed s s') :: c'))
  | Eos =>
      match s with
      | [] => k s c
      | _ :: _ => None
      end
  | Star a => starLoop (matches a) k (length s) s c
  end.

(** The match of [r] at the head of [s]: the captures and what follows the
    match.  A pattern that starts with [^] is only ever tried there. *)
Definition matchHead (r : re) (s : str) : option (caps * str) :=
  matches r s [] (fun s' c => Some (c, s')).

(** [/^r/.test(s)] *)
Definition test (r : re) (s : str) : bool :=
  match matchHead r s with Some _ => true | None => false end.

(** [\s*] *)
Definition ws : re := Star (Chr isSpace).

(** Canonicalisation of the [i] flag on the code units the patterns use:
    ASCII letters compare by their upper case, every other code unit of the
    patterns (the Hangul syllables, the colons) only equals itself. *)
Definition upcase (c : cu) : cu :=
  if ((97 <=? c) && (c <=? 122))%N then (c - 32)%N else c.

(** The literal [a w] under the [i] flag. *)
Fixpoint word (a : cu) (w : str) : re :=
  match w with
  | [] => Chr (fun c => (upcase c =? upcase a)%N)
  | b :: w' => Cat (Chr (fun c => (upcase c =? upcase a)%N)) (word b w')
  end.

(* ================================================================== *)
(** ** Line classifier (DocxToJsonConverter.tsx, lines 17-40) *)

Definition isAD (c : cu) : bool := ((65 <=? c) && (c <=? 68))%N.
(** [[A-D]] under the [i] flag. *)
Definition isADi (c : cu) : bool := isAD c || ((97 <=? c) && (c <=? 100))%N.
(** [[\.\)．]]: full stop, closing parenthesis, full-width full stop. *)
Definition isMark (c : cu) : bool := ((c =? 46) || (c =? 41) || (c =? 65294))%N.
(** [[:：]] and [[,/]]. *)
Definition isColon (c : cu) : bool := ((c =? 58) || (c =? 65306))%N.
Definition isSep (c : cu) : bool := ((c =? 44) || (c =? 47))%N.

(** [[A-D][\.\)．]\s*], the pattern of lines 18 and 19 behind its [^]. *)
Definition reOption : re := Cat (Chr isAD) (Cat (Chr isMark) ws).

Definition isOptionLine (s : str) : bool := test reOption s.
Definition isAnswerLine (s : str) : bool := test reOption s.

(** [(?:정답|답|Answer)] under [i]. *)
Definition reKeyword : re :=
  Alt (word 51221%N [45813%N])
      (Alt (word 45813%N [])
           (word 65%N [110; 115; 119; 101; 114]%N)).

(** [\s*[,/]\s*[A-D]] and [[A-D](?:\s*[,/]\s*[A-D])*] under [i]. *)
Definition reIter : re := Cat ws (Cat (Chr isSep) (Cat ws (Chr isADi))).
Definition reLetters : re := Cat (Chr isADi) (Star reIter).

(** The pattern of line 23 behind its [^]: the keyword, [\s*[:：]?\s*],
    the letters as group 1, [\s*$]. *)
Definition reInline : re :=
  Cat reKeyword
    (Cat ws (Cat (Opt (Chr isColon))
       (Cat ws (Cat (Grp 1 reLetters) (Cat ws Eos))))).

(** ["정답: C"], ["답: A,B"]: the pattern on the trimmed line; then the text
    of group 1 split on [[,/]], the pieces trimmed, the empty ones dropped,
    joined by [", "]; [letters || null]. *)
Definition extractInlineAnswer (s : str) : option str :=
  match matchHead reInline (trim s) with
  | None => None
  | Some (m, _) =>
      let letters :=
        join [44; 32]%N
          (filter (fun x => negb (isEmpty x))
             (map trim (splitOn isSep (group 1 m)))) in
      if isEmpty letters then None else Some letters
  end.

Definition isRule (c : cu) : bool := ((c =? 45) || (c =? 95) || (c =? 61))%N.

(** [[-_=]{3,}$], the pattern of line 38 behind its [^]. *)
Definition reRule : re :=
  Cat (Chr isRule) (Cat (Chr isRule) (Cat (Chr isRule)
    (Cat (Star (Chr isRule)) Eos))).

(** Page numbers, separators (lines 34-40). *)
Definition isNoiseLine (s : str) : bool :=
  let t := trim s in
  if isEmpty t then true
  else if eqs t [73]%N || eqs t [73; 73]%N || eqs t [73; 73; 73]%N
          || eqs t [73; 86]%N then true
  else if test reRule t then true
  else false.

(* ================================================================== *)
(** ** Text normalizer (lines 42-56) *)

(** [t.replace(re, ...)] with the [g] flag: scan from the left; where the
    pattern matches, emit the replacement and go on behind the match;
    elsewhere copy one code unit.  [m s] is the match of the pattern at the
    head of [s]: the replacement text and what follows the match.  None of
    the three patterns looks behind or matches the empty string. *)
Fixpoint replaceFrom (m : str -> option (str * str)) (fuel : nat) (s : str) : str :=
  match fuel with
  | 0 => s
  | S f =>
      match s with
      | [] => []
      | c :: r =>
          match m s with
          | Some (rep, rest) => rep ++ replaceFrom m f rest
          | None => c :: replaceFrom m f r
          end
      end
  end.

Definition replaceAll (m : str -> option (str * str)) (s : str) : str :=
  replaceFrom m (length s) s.

Definition notLF (c : cu) : bool := negb (c =? LF)%N.
Definition isLF (c : cu) : bool := (c =? LF)%N.

(** [/([^\n])\s*(M)/g] (line 47); the group M is [[A-D][\.\)．]\s*]. *)
Definition reOptionBreak : re :=
  Cat (Grp 1 (Chr notLF))
    (Cat ws (Grp 2 (Cat (Chr isAD) (Cat (Chr isMark) ws)))).

(** [/\n{3,}/g] (line 50) *)
Definition reBlankRun : re :=
  Cat (Chr isLF) (Cat (Chr isLF) (Cat (Chr isLF) (Star (Chr isLF)))).

(** [/([^\n])\s*(TAG)/gi] (line 53); the group TAG is the keyword,
    [\s*[:：]\s*] and the letters. *)
Definition reAnswerBreak : re :=
  Cat (Grp 1 (Chr notLF))
    (Cat ws (Grp 2 (Cat reKeyword
       (Cat ws (Cat (Chr isColon) (Cat ws reLetters)))))).

(** The replacement ['$1\n$2'] of a match of [r]. *)
Definition breakBefore (r : re) (s : str) : option (str * str) :=
  match matchHead r s with
  | Some (m, rest) => Some (group 1 m ++ [LF] ++ group 2 m, rest)
  | None => None
  end.

(** The replacement ['\n\n'] of a match of [r]. *)
Definition squeeze (r : re) (s : str) : option (str * str) :=
  match matchHead r s with
  | Some (_, rest) => Some ([LF; LF], rest)
  | None => None
  end.

Definition normalizeMcqText (raw : str) : str :=
  let t := replaceChar NBSP SP (removeAll CR raw) in
  let t := replaceAll (breakBefore reOptionBreak) t in
  let t := replaceAll (squeeze reBlankRun) t in
  let t := replaceAll (breakBefore reAnswerBreak) t in
  t.

(* ================================================================== *)
(** ** Record segmenter (lines 58-214) *)

Record Flashcard := mkCard {
  question : str;
  options : list str;
  answer : str;
  explanation : option str
}.

(** What a run of the code can come to: a value, the [TypeError] of a method
    call on [undefined] (an index outside [lines]), or a loop of the model
    that used up its fuel. *)
Inductive res (A : Type) : Type :=
| Val (a : A)
| TypeError
| Diverge.
Arguments Val {A} a.
Arguments TypeError {A}.
Arguments Diverge {A}.

Definition bind {A B : Type} (x : res A) (k : A -> res B) : res B :=
  match x with
  | Val a => k a
  | TypeError => TypeError
  | Diverge => Diverge
  end.

Notation "x <- e ;; k" := (bind e (fun x => k))
  (at level 61, e at next level, right associativity).
Notation "' p <- e ;; k" := (bind e (fun x => match x with p => k end))
  (at level 61, p pattern, e at next level, right associativity).

(** [lines[k]] followed by a method call on it. *)
Definition lineAt (lines : list str) (k : nat) : res str :=
  match nth_error lines k with
  | Some l => Val l
  | None => TypeError
  end.

(** Fuel of every loop over [lines]. *)
Definition gas (lines : list str) : nat := S (length lines).

(** [while (i < lines.length && isNoiseLine(lines[i])) i++] (lines 71, 91,
    151, 176). *)
Fixpoint skipNoise (fuel : nat) (lines : list str) (i : nat) : res nat :=
  match fuel with
  | 0 => Diverge
  | S f =>
      if i <? length lines then
        l <- lineAt lines i ;;
        if isNoiseLine l then skipNoise f lines (i + 1) else Val i
      else Val i
  end.

(** [k < lines.length && isOptionLine(lines[k].trim())]. *)
Definition optionAt (lines : list str) (k : nat) : res bool :=
  if k <? length lines then
    l <- lineAt lines k ;; Val (isOptionLine (trim l))
  else Val false.

(** Question collection (lines 78-96). *)
Fixpoint scanQuestion (fuel : nat) (lines : list str) (j : nat) (qLines : list str)
  : res (nat * list str) :=
  match fuel with
  | 0 => Diverge
  | S f =>
      if j <? length lines then
        l <- lineAt lines j ;;
        let cur := trim l in
        if isNoiseLine cur then scanQuestion f lines (j + 1) qLines
        else if isOptionLine cur then Val (j, qLines)
        else
          let qLines := qLines ++ [cur] in
          let j := j + 1 in
          k <- skipNoise (gas lines) lines j ;;
          b <- optionAt lines k ;;
          if b then Val (k, qLines) else scanQuestion f lines j qLines
      else Val (j, qLines)
  end.

(** Continuation lines of one option (lines 123-133). *)
Fixpoint continuation (fuel : nat) (lines : list str) (k : nat) (opt : str)
  : res (nat * str) :=
  match fuel with
  | 0 => Diverge
  | S f =>
      if k <? length lines then
        l <- lineAt lines k ;;
        let nxt := trim l in
        if isNoiseLine nxt then continuation f lines (k + 1) opt
        else if isOptionLine nxt then Val (k, opt)
        else continuation f lines (k + 1) (opt ++ [SP] ++ nxt)
      else Val (k, opt)
  end.

(** Option collection, at most four (lines 112-139). *)
Fixpoint scanOptions (fuel : nat) (lines : list str) (j : nat) (opts : list str)
  : res (nat * list str) :=
  match fuel with
  | 0 => Diverge
  | S f =>
      if j <? length lines then
        l <- lineAt lines j ;;
        let cur := trim l in
        if isNoiseLine cur then scanOptions f lines (j + 1) opts
        else if negb (isOptionLine cur) then Val (j, opts)
        else
          ' (k, opt) <- continuation (gas lines) lines (j + 1) cur ;;
          let opts := opts ++ [opt] in
          if 4 <=? length opts then Val (k, opts)
          else scanOptions f lines k opts
      else Val (j, opts)
  end.

(** [answers[answers.length - 1] += t]. *)
Fixpoint appendLast (answers : list str) (t : str) : list str :=
  match answers with
  | [] => []
  | [x] => [x ++ t]
  | x :: r => x :: appendLast r t
  end.

(** [if (inline)]: a string that is neither [null] nor empty. *)
Definition truthy (o : option str) : bool :=
  match o with
  | Some (_ :: _) => true
  | _ => false
  end.

Definition strOf (o : option str) : str :=
  match o with
  | Some s => s
  | None => []
  end.

(** Answer collection (lines 156-194). *)
Fixpoint scanAnswer (fuel : nat) (lines : list str) (a : nat) (answers : list str)
  : res (nat * list str) :=
  match fuel with
  | 0 => Diverge
  | S f =>
      if a <? length lines then
        l <- lineAt lines a ;;
        let cur := trim l in
        if isNoiseLine cur then scanAnswer f lines (a + 1) answers
        else
          let inline := extractInlineAnswer cur in
          if truthy inline then Val (a + 1, answers ++ [strOf inline])
          else
            stop <- (if negb (isAnswerLine cur) && negb (isOptionLine cur) then
                       k <- skipNoise (gas lines) lines (a + 1) ;;
                       optionAt lines k
                     else Val false) ;;
            if stop then Val (a, answers)
            else
              let answers :=
                if isAnswerLine cur then answers ++ [cur]
                else if 0 <? length answers then appendLast answers ([SP] ++ cur)
                else answers in
              scanAnswer f lines (a + 1) answers
      else Val (a, answers)
  end.

Definition UNKNOWN : str := [85; 78; 75; 78; 79; 87; 78]%N.

(** [answer || 'UNKNOWN'] on the joined, trimmed answer buffer (lines 196-203). *)
Definition finalAnswer (answers : list str) : str :=
  let answer := trim (join [LF] answers) in
  if isEmpty answer then UNKNOWN else answer.

(** How one pass through the body of the outer loop ends: the [break] at
    line 72, one of the three [continue]s (lines 101, 107, 143), or the
    [push] of a card (line 200). *)
Inductive outcome : Type :=
| Halt
| NoOptions
| EmptyQuestion
| FewOptions
| Emit (c : Flashcard).

(** The cursor after the noise skip of line 71: where the candidate starts. *)
Definition candidateStart (lines : list str) (i : nat) : res nat :=
  skipNoise (gas lines) lines i.

(** One pass through the body of [while (i < lines.length)] (lines 70-210):
    the new value of [i] and how the pass ended. *)
Definition cycle (lines : list str) (i : nat) : res (nat * outcome) :=
  i <- candidateStart lines i ;;
  if length lines <=? i then Val (i, Halt)
  else
    ' (j, qLines) <- scanQuestion (gas lines) lines i [] ;;
    isOpt <- optionAt lines j ;;
    if negb isOpt then Val (Nat.max (i + 1) j, NoOptions)
    else
      let question := trim (join [SP] qLines) in
      if isEmpty question then Val (j + 1, EmptyQuestion)
      else
        ' (j, opts) <- scanOptions (gas lines) lines j [] ;;
        if length opts <? 2 then Val (j + 1, FewOptions)
        else
          a <- skipNoise (gas lines) lines j ;;
          ' (a, answers) <- scanAnswer (gas lines) lines a [] ;;
          Val (a, Emit (mkCard question opts (finalAnswer answers) None)).

(** The outer loop (lines 69-211); one unit of fuel per test of its
    condition. *)
Fixpoint segment (fuel : nat) (lines : list str) (i : nat) (cards : list Flashcard)
  : res (list Flashcard) :=
  match fuel with
  | 0 => Diverge
  | S f =>
      if i <? length lines then
        ' (i', o) <- cycle lines i ;;
        match o with
        | Halt => Val cards
        | Emit c => segment f lines i' (cards ++ [c])
        | _ => segment f lines i' cards
        end
      else Val cards
  end.

(** Lines 60-63. *)
Definition toLines (rawText : str) : list str :=
  map (fun l => trimEnd (replaceChar NBSP SP l))
      (splitOn (fun c => (c =? LF)%N) (removeAll CR rawText)).

Definition parseDocxContent (rawText : str) : res (list Flashcard) :=
  let lines := toLines rawText in
  segment (gas lines) lines 0 [].

(* ================================================================== *)
(** ** The viewer's load path (App.tsx, lines 20-72; the JavaScript viewer,
    lines 16-29) *)

Set Warnings "-register-all".

(** A value [JSON.parse] can return.  A number is kept as the text [String]
    prints for it (["0"] for both zeroes); an object as its members in the
    order of the text. *)
Inductive json : Type :=
| JNull
| JBool (b : bool)
| JNum (text : str)
| JStr (s : str)
| JArr (items : list json)
| JObj (members : list (str * json)).

(** [JSON.parse] keeps the last of the members that share a name. *)
Fixpoint member (name : str) (members : list (str * json)) : option json :=
  match members with
  | [] => None
  | (k, v) :: rest =>
      match member name rest with
      | Some w => Some w
      | None => if eqs name k then Some v else None
      end
  end.

(** [x?.name] for the four names the viewer reads ([question], [options],
    [answer], [explanation]): no primitive, array or prototype has one of
    them, so only an object's own member is found; [None] is [undefined]. *)
Definition field (x : json) (name : str) : option json :=
  match x with
  | JObj members => member name members
  | _ => None
  end.

(** [items.map(f)] for a callback that may throw: the first exception ends
    the call. *)
Definition mapRes {A B : Type} (f : A -> res B) : list A -> res (list B) :=
  fix go (l : list A) : res (list B) :=
    match l with
    | [] => Val []
    | x :: rest => y <- f x ;; ys <- go rest ;; Val (y :: ys)
    end.

Definition kToString : str := lit "toString".

(** [String(v)].  An object is converted by the [toString] it has.  A member
    of its own of that name hides the one of [Object.prototype]; no value of
    a JSON text can be called, [valueOf] gives the object back, and the
    conversion ends in a [TypeError].  An array is converted by [join],
    which takes [null] for the empty string and converts every other element
    the same way. *)
Fixpoint toStr (v : json) : res str :=
  match v with
  | JNull => Val (lit "null")
  | JBool true => Val (lit "true")
  | JBool false => Val (lit "false")
  | JNum text => Val text
  | JStr s => Val s
  | JArr items =>
      pieces <- mapRes (fun e => match e with JNull => Val [] | _ => toStr e end) items ;;
      Val (join (lit ",") pieces)
  | JObj members =>
      match member kToString members with
      | Some _ => TypeError
      | None => Val (lit "[object Object]")
      end
  end.

(** The values [String] converts: those without an object that has a member
    [toString] of its own, the value itself or an element of it as far as
    [join] goes. *)
Fixpoint convertible (v : json) : bool :=
  match v with
  | JObj members =>
      match member kToString members with
      | Some _ => false
      | None => true
      end
  | JArr items => forallb convertible items
  | _ => true
  end.

(** [v ?? '']. *)
Definition orEmpty (v : option json) : json :=
  match v with
  | None => JStr []
  | Some JNull => JStr []
  | Some w => w
  end.

Definition kQuestion : str := lit "question".
Definition kOptions : str := lit "options".
Definition kAnswer : str := lit "answer".
Definition kExplanation : str := lit "explanation".

(** A card of the viewer's state: [options] may be [undefined],
    [explanation] may be [null]. *)
Record ViewCard := mkView {
  vQuestion : str;
  vOptions : option (list str);
  vAnswer : str;
  vExplanation : option str
}.

(** The [map] callback of App.tsx, lines 40-45: the four members in the
    order of the object literal; a conversion that throws ends the
    callback. *)
Definition normalizeCard (x : json) : res ViewCard :=
  question <- toStr (orEmpty (field x kQuestion)) ;;
  options <- match field x kOptions with
             | Some (JArr items) => strings <- mapRes toStr items ;; Val (Some strings)
             | _ => Val None
             end ;;
  answer <- toStr (orEmpty (field x kAnswer)) ;;
  explanation <- match field x kExplanation with
                 | None => Val None
                 | Some JNull => Val None
                 | Some w => text <- toStr w ;; Val (Some text)
                 end ;;
  Val (mkView (trim question) options (trim answer) explanation).

(** The values the callback hands to [String] for an element. *)
Definition stringsOf (x : json) : list json :=
  [orEmpty (field x kQuestion)]
  ++ match field x kOptions with
     | Some (JArr items) => items
     | _ => []
     end
  ++ [orEmpty (field x kAnswer)]
  ++ match field x kExplanation with
     | None => []
     | Some JNull => []
     | Some w => [w]
     end.

(** The [filter] callback: [c.question && c.answer]. *)
Definition keepCard (c : ViewCard) : bool :=
  negb (isEmpty (vQuestion c)) && negb (isEmpty (vAnswer c)).

(** What [fetch('/flashcards.json')] and [res.json()] come to. *)
Inductive response : Type :=
| FetchRejected
| HttpStatus (status : nat)
| BadBody
| Body (data : json).

(** What the [try] block throws. *)
Inductive failure : Type :=
| NetworkFailure
| Http (status : nat)
| SyntaxFailure
| NotAnArray
| NoValidCard
| TypeFailure.

(** The [try] block of App.tsx, lines 24-50: the cards, or what is thrown.
    An exception of the [map] callback leaves the block before the
    [filter]. *)
Definition loadTry (r : response) : failure + list ViewCard :=
  match r with
  | FetchRejected => inl NetworkFailure
  | HttpStatus status => inl (Http status)
  | BadBody => inl SyntaxFailure
  | Body (JArr items) =>
      match mapRes normalizeCard items with
      | Val mapped =>
          let normalized := filter keepCard mapped in
          if length normalized =? 0 then inl NoValidCard else inr normalized
      | _ => inl TypeFailure
      end
  | Body _ => inl NotAnArray
  end.

(** The state of the component the load touches. *)
Record ViewState := mkState {
  cards : list ViewCard;
  loadError : option failure;
  isLoading : bool
}.

(** [load] of App.tsx (lines 23-65); [cancelled] is the flag the clean-up of
    the effect sets. *)
Definition load (cancelled : bool) (r : response) (st : ViewState) : ViewState :=
  let st := mkState (cards st) None true in
  if cancelled then st
  else
    match loadTry r with
    | inr normalized => mkState normalized (loadError st) false
    | inl e => mkState [] (Some e) false
    end.

(** What a component shows (App.tsx, lines 120-150), or that its render
    ends in an exception and nothing of it is shown. *)
Inductive screen : Type :=
| LoadingScreen
| ErrorScreen (e : failure)
| NoCardScreen
| CardScreen
| RenderFailed.

Definition render (st : ViewState) : screen :=
  if isLoading st then LoadingScreen
  else
    match loadError st with
    | Some e => ErrorScreen e
    | None => match cards st with [] => NoCardScreen | _ => CardScreen end
    end.

(** *** The JavaScript viewer *)

(** Truthiness of [card.question], [card.answer]. *)
Definition truthyJson (v : option json) : bool :=
  match v with
  | None => false
  | Some JNull => false
  | Some (JBool b) => b
  | Some (JNum text) => negb (eqs text (lit "0"))
  | Some (JStr s) => negb (isEmpty s)
  | Some (JArr _) => true
  | Some (JObj _) => true
  end.

(** [card.question && card.answer]: reading a member of [null] throws. *)
Definition keepRaw (card : json) : res bool :=
  match card with
  | JNull => TypeError
  | _ => Val (truthyJson (field card kQuestion) && truthyJson (field card kAnswer))
  end.

Fixpoint filterRaw (items : list json) : res (list json) :=
  match items with
  | [] => Val []
  | card :: rest =>
      keep <- keepRaw card ;;
      valid <- filterRaw rest ;;
      Val (if keep then card :: valid else valid)
  end.

Record JsState := mkJsState {
  jsCards : list json;
  jsLoadError : option failure;
  jsIsLoading : bool
}.

(** The [try] block of [loadCards] (lines 19-24): [data.filter] is no
    function unless [data] is an array. *)
Definition loadCardsTry (r : response) : failure + list json :=
  match r with
  | FetchRejected => inl NetworkFailure
  | HttpStatus status => inl (Http status)
  | BadBody => inl SyntaxFailure
  | Body (JArr items) =>
      match filterRaw items with
      | Val valid => inr valid
      | _ => inl TypeFailure
      end
  | Body _ => inl TypeFailure
  end.

(** [loadCards] (lines 17-27). *)
Definition loadCards (r : response) (st : JsState) : JsState :=
  match loadCardsTry r with
  | inr valid => mkJsState valid (jsLoadError st) false
  | inl e => mkJsState (jsCards st) (Some e) false
  end.

(** Whether React takes a value as a child ([{v}] in the markup): a string
    or a number is text, a boolean, [null] and [undefined] are nothing, an
    array is its elements one by one; an object that is no element is
    refused with an exception. *)
Fixpoint validChild (v : json) : bool :=
  match v with
  | JObj _ => false
  | JArr items => forallb validChild items
  | _ => true
  end.

Definition childOk (v : option json) : bool :=
  match v with
  | Some w => validChild w
  | None => true
  end.

(** Whether the card screen of lines 51-140 renders for the card at the
    position, which is shown as the load left it.  Line 82 and line 99 put
    the question and the answer as children.  Lines 83-88: a falsy
    [options] is the child itself; a truthy one is asked for its [map],
    which only an array has (calling [undefined] is a [TypeError]), and
    every element is a child.  Lines 113-123: the explanation is a child
    once the card is flipped, the explanation truthy and the box open. *)
Definition rendersCard (card : json) (isFlipped showExplanation : bool) : bool :=
  childOk (field card kQuestion)
  && (if truthyJson (field card kOptions)
      then match field card kOptions with
           | Some (JArr items) => forallb validChild items
           | _ => false
           end
      else true)
  && childOk (field card kAnswer)
  && (if isFlipped && truthyJson (field card kExplanation) && showExplanation
      then childOk (field card kExplanation)
      else true).

(** Lines 48-140 for [card], the value of [cards[currentIndex]]: the
    loading text while loading and as long as there is no card to show, else
    the card screen if it renders. *)
Definition renderJsAt (st : JsState) (card : option json)
    (isFlipped showExplanation : bool) : screen :=
  if jsIsLoading st then LoadingScreen
  else
    match card with
    | Some c =>
        if truthyJson card
        then if rendersCard c isFlipped showExplanation then CardScreen else RenderFailed
        else LoadingScreen
    | None => LoadingScreen
    end.

(** The render at the position and the face the component starts with. *)
Definition renderJs (st : JsState) : screen :=
  renderJsAt st (nth_error (jsCards st) 0) false false.

(* ================================================================== *)
(** ** The converter component (DocxToJsonConverter.tsx, lines 13-15 and
    216-270) *)

(** What the file input, [file.arrayBuffer()] and [mammoth.extractRawText]
    come to: no file chosen, a rejection (with the text of
    [err?.message ?? String(err)]), or the raw text of the document. *)
Inductive extraction : Type :=
| NoFile
| ExtractionFailed (message : str)
| Extracted (text : str).

(** What [setError] is given: the message of line 240, or the prefix of
    line 246 in front of the message of what was thrown.  [EngineError] is
    an exception out of the normalizer or the segmenter, with the text the
    engine gives it. *)
Inductive uploadError : Type :=
| NothingFound
| ProcessingFailed (message : str)
| EngineError.

(** The state of the component (lines 13-15). *)
Record Converter := mkConverter {
  jsonData : option (list Flashcard);
  isProcessing : bool;
  error : option uploadError
}.

(** [handleFileUpload] (lines 216-252), from the change event to the state
    it leaves when its promise settles. *)
Definition handleFileUpload (e : extraction) (st : Converter) : Converter :=
  match e with
  | NoFile => st
  | ExtractionFailed message =>
      mkConverter None false (Some (ProcessingFailed message))
  | Extracted text =>
      let normalized := normalizeMcqText text in
      match parseDocxContent normalized with
      | Val [] => mkConverter None false (Some NothingFound)
      | Val cards => mkConverter (Some cards) false None
      | _ => mkConverter None false (Some EngineError)
      end
  end.

(** Line 270. *)
Definition preview (st : Converter) : list Flashcard :=
  match jsonData st with
  | Some data => firstn 5 data
  | None => []
  end.

(** The value whose JSON text [JSON.stringify] writes for a card: the four
    members in the order the object literal of lines 200-205 has them. *)
Definition cardJson (c : Flashcard) : json :=
  JObj [(kQuestion, JStr (question c));
        (kOptions, JArr (map JStr (options c)));
        (kAnswer, JStr (answer c));
        (kExplanation, match explanation c with
                       | Some e => JStr e
                       | None => JNull
                       end)].

(** [downloadJson] (lines 254-268): nothing without data; else the name of
    the download and the value its text denotes, which is what [JSON.parse]
    reads back from it. *)
Definition downloadJson (st : Converter) : option (str * json) :=
  match jsonData st with
  | None => None
  | Some data => Some (lit "flashcards.json", JArr (map cardJson data))
  end.

(** A card of the converter as the viewer holds it. *)
Definition viewCard (c : Flashcard) : ViewCard :=
  mkView (question c) (Some (options c)) (answer c) (explanation c).

(* ================================================================== *)
(** ** The viewer's controls (App.tsx, lines 12-15, 73-115, 121-153 and
    241-287) *)

(** The state of the component: what the load touches, the position, the
    face of the card and whether the explanation is open.  The position is
    an integer: [Math.min(prev + 1, cards.length - 1)] is [-1] without
    cards. *)
Record Viewer := mkViewer {
  view : ViewState;
  currentIndex : Z;
  isFlipped : bool;
  showExplanation : bool
}.

Definition initialViewer : Viewer := mkViewer (mkState [] None true) 0 false false.

(** [cards.length] *)
Definition cardCount (v : Viewer) : Z := Z.of_nat (length (cards (view v))).

(** [load] within the component: on success lines 51-56 also go back to
    the first card and its front. *)
Definition loaded (cancelled : bool) (r : response) (v : Viewer) : Viewer :=
  let st := load cancelled r (view v) in
  if cancelled then mkViewer st (currentIndex v) (isFlipped v) (showExplanation v)
  else
    match loadTry r with
    | inr _ => mkViewer st 0 false false
    | inl _ => mkViewer st (currentIndex v) (isFlipped v) (showExplanation v)
    end.

(** Lines 73-80. *)
Definition handleNext (v : Viewer) : Viewer :=
  mkViewer (view v) (Z.min (currentIndex v + 1) (cardCount v - 1)) false false.

(** Lines 82-86. *)
Definition handlePrev (v : Viewer) : Viewer :=
  mkViewer (view v) (Z.max (currentIndex v - 1) 0) false false.

(** Lines 88-91. *)
Definition handleReset (v : Viewer) : Viewer :=
  mkViewer (view v) (currentIndex v) false false.

(** Lines 93-95. *)
Definition handleFlip (v : Viewer) : Viewer :=
  mkViewer (view v) (currentIndex v) (negb (isFlipped v)) (showExplanation v).

(** [e.code] of a key event, as far as the handler tells keys apart. *)
Inductive key : Type := Space | ArrowLeft | ArrowRight | KeyR | OtherKey.

(** Lines 99-110; the effect is set up again whenever the position or the
    number of cards changes, so the handler sees the current ones. *)
Definition handleKeyPress (k : key) (v : Viewer) : Viewer :=
  match k with
  | Space => handleFlip v
  | ArrowLeft => if (0 <? currentIndex v)%Z then handlePrev v else v
  | ArrowRight => if (currentIndex v <? cardCount v - 1)%Z then handleNext v else v
  | KeyR => handleReset v
  | OtherKey => v
  end.

(** [cards[currentIndex]] (line 153). *)
Definition currentCard (v : Viewer) : option ViewCard :=
  if (currentIndex v <? 0)%Z then None
  else nth_error (cards (view v)) (Z.to_nat (currentIndex v)).

(** [isFlipped && currentCard.explanation] (line 241): whether the button of
    the explanation is there. *)
Definition explanationButton (v : Viewer) : bool :=
  isFlipped v
  && match currentCard v with
     | Some c => truthy (vExplanation c)
     | None => false
     end.

(** What happens to the component: the load settles, a key goes down on the
    window, or one of the controls of the card screen is clicked. *)
Inductive event : Type :=
| Loaded (cancelled : bool) (r : response)
| KeyDown (k : key)
| ClickCard
| ClickPrev
| ClickNext
| ClickReset
| ClickExplanation.

(** The controls exist on the card screen only (lines 121-151 return
    before them); a disabled button (lines 267, 283) does not click. *)
Definition click (e : event) (v : Viewer) : Viewer :=
  match e with
  | ClickCard => handleFlip v
  | ClickPrev => if (currentIndex v =? 0)%Z then v else handlePrev v
  | ClickNext => if (currentIndex v =? cardCount v - 1)%Z then v else handleNext v
  | ClickReset => handleReset v
  | ClickExplanation =>
      if explanationButton v
      then mkViewer (view v) (currentIndex v) (isFlipped v) (negb (showExplanation v))
      else v
  | _ => v
  end.

Definition step (e : event) (v : Viewer) : Viewer :=
  match e with
  | Loaded cancelled r => loaded cancelled r v
  | KeyDown k => handleKeyPress k v
  | _ =>
      match render (view v) with
      | CardScreen => click e v
      | _ => v
      end
  end.

Definition run (es : list event) (v : Viewer) : Viewer :=
  fold_left (fun v e => step e v) es v.

(** What every event keeps: the position is no index before the first
    card, and with cards it is the index of one. *)
Definition inRange (v : Viewer) : Prop :=
  (0 <= currentIndex v)%Z
  /\ (cards (view v) = [] \/ (currentIndex v < cardCount v)%Z).

(* ================================================================== *)
(** ** The controls of the JavaScript viewer (lines 6-14, 31-48, 72-75 and
    113-133 of the part whose file name is not recorded) *)

Module JsViewer.

(** The state of the component.  A touch position is [clientX] of the first
    touch, taken in whole pixels; [None] is [null]. *)
Record Viewer := mkViewer {
  view : JsState;
  currentIndex : Z;
  isFlipped : bool;
  showExplanation : bool;
  touchStart : option Z;
  touchEnd : option Z
}.

Definition initialViewer : Viewer :=
  mkViewer (mkJsState [] None true) 0 false false None None.

Definition minSwipeDistance : Z := 50.

Definition cardCount (v : Viewer) : Z := Z.of_nat (length (jsCards (view v))).

(** [loadCards] within the component: it touches nothing else. *)
Definition loaded (r : response) (v : Viewer) : Viewer :=
  mkViewer (loadCards r (view v)) (currentIndex v) (isFlipped v)
    (showExplanation v) (touchStart v) (touchEnd v).

(** The handlers read the state of the render that made them ([seen]) and
    set the state that is current ([now]). *)
Definition moveTo (now : Viewer) (i : Z) : Viewer :=
  mkViewer (view now) i false false (touchStart now) (touchEnd now).

(** Line 31. *)
Definition handleNext (seen now : Viewer) : Viewer :=
  if (currentIndex seen <? cardCount seen - 1)%Z
  then moveTo now (currentIndex seen + 1) else now.

(** Line 32. *)
Definition handlePrev (seen now : Viewer) : Viewer :=
  if (0 <? currentIndex seen)%Z
  then moveTo now (currentIndex seen - 1) else now.

(** Lines 33-37. *)
Definition handleReset (now : Viewer) : Viewer := moveTo now 0.

(** Line 38. *)
Definition onTouchStart (x : Z) (v : Viewer) : Viewer :=
  mkViewer (view v) (currentIndex v) (isFlipped v) (showExplanation v) (Some x) None.

(** Line 39. *)
Definition onTouchMove (x : Z) (v : Viewer) : Viewer :=
  mkViewer (view v) (currentIndex v) (isFlipped v) (showExplanation v)
    (touchStart v) (Some x).

(** Truthiness of a position: [null] and [0] are falsy. *)
Definition truthyNum (x : option Z) : bool :=
  match x with
  | Some n => negb (n =? 0)%Z
  | None => false
  end.

Definition numOf (x : option Z) : Z :=
  match x with
  | Some n => n
  | None => 0
  end.

(** Lines 40-45. *)
Definition onTouchEnd (v : Viewer) : Viewer :=
  if negb (truthyNum (touchStart v)) || negb (truthyNum (touchEnd v)) then v
  else
    let distance := (numOf (touchStart v) - numOf (touchEnd v))%Z in
    let v1 := if (minSwipeDistance <? distance)%Z then handleNext v v else v in
    if (distance <? - minSwipeDistance)%Z then handlePrev v v1 else v1.

(** [cards[currentIndex]] *)
Definition currentCard (v : Viewer) : option json :=
  if (currentIndex v <? 0)%Z then None
  else nth_error (jsCards (view v)) (Z.to_nat (currentIndex v)).

(** Lines 48-140: the loading text while loading and whenever there is no
    card at the position, else the card screen if it renders. *)
Definition screenOf (v : Viewer) : screen :=
  renderJsAt (view v) (currentCard v) (isFlipped v) (showExplanation v).

(** Line 113: whether the button of the explanation is there. *)
Definition explanationButton (v : Viewer) : bool :=
  isFlipped v
  && match currentCard v with
     | Some card => truthyJson (field card kExplanation)
     | None => false
     end.

(** What the user can do on the card screen; there is nothing to touch or
    click on the loading text, nor after a render that failed. *)
Inductive event : Type :=
| TouchStart (x : Z)
| TouchMove (x : Z)
| TouchEnd
| ClickCard
| ClickPrev
| ClickNext
| ClickReset
| ClickExplanation.

Definition act (e : event) (v : Viewer) : Viewer :=
  match e with
  | TouchStart x => onTouchStart x v
  | TouchMove x => onTouchMove x v
  | TouchEnd => onTouchEnd v
  | ClickCard =>
      mkViewer (view v) (currentIndex v) (negb (isFlipped v)) (showExplanation v)
        (touchStart v) (touchEnd v)
  | ClickPrev => if (currentIndex v =? 0)%Z then v else handlePrev v v
  | ClickNext => if (currentIndex v =? cardCount v - 1)%Z then v else handleNext v v
  | ClickReset => handleReset v
  | ClickExplanation =>
      if explanationButton v
      then mkViewer (view v) (currentIndex v) (isFlipped v)
             (negb (showExplanation v)) (touchStart v) (touchEnd v)
      else v
  end.

Definition step (e : event) (v : Viewer) : Viewer :=
  match screenOf v with
  | CardScreen => act e v
  | _ => v
  end.

Definition run (es : list event) (v : Viewer) : Viewer :=
  fold_left (fun v e => step e v) es v.


End JsViewer.

(* ================================================================== *)
(** ** Inputs of the scenarios *)

(** Lines joined the way [split('\n')] takes them apart. *)
Definition ofLines (ls : list string) : str := join [LF] (map lit ls).

Definition scenarioA : str :=
  ofLines ["What is 2+2?"; "A. 3"; "B. 4"; "C. 5"; "정답: B"]%string.

Definition scenarioB : str :=
  ofLines ["What is 2+2?"; "A. 3"; "B. 4"; "C. 5"; "B. 4"]%string.

(** Scenario B with a fourth option in front of the repeated line. *)
Definition scenarioB4 : str :=
  ofLines ["What is 2+2?"; "A. 3"; "B. 4"; "C. 5"; "D. 6"; "B. 4"]%string.

Definition scenarioD : str :=
  ofLines ["Q1"; "A. x"; "B. y"; "Q2"; "A. p"; "B. q"]%string.

(** How often the body of the outer loop runs from cursor [i]. *)
Fixpoint passes (fuel : nat) (lines : list str) (i : nat) : res nat :=
  match fuel with
  | 0 => Diverge
  | S f =>
      if i <? length lines then
        ' (i', o) <- cycle lines i ;;
        match o with
        | Halt => Val 1
        | _ => n <- passes f lines i' ;; Val (S n)
        end
      else Val 0
  end.

(** The cursors of the outer loop: [reached lines i k] when the loop that
    tests its condition at cursor [i] tests it at cursor [k] zero or more
    passes later, none of which ended in the [break] of line 72. *)
Inductive reached (lines : list str) : nat -> nat -> Prop :=
| reached_here (i : nat) : reached lines i i
| reached_pass (i i' k : nat) (o : outcome) :
    i < length lines -> cycle lines i = Val (i', o) -> o <> Halt ->
    reached lines i' k -> reached lines i k.

(** A candidate that is not discarded (lines 70-144): the pass at cursor [k]
    collects the question lines [qLines], whose join is not empty, and the
    options [opts], at least two, and leaves the option scan at [j']. *)
Definition candidate (lines : list str) (k : nat) (qLines opts : list str) (j' : nat)
  : Prop :=
  exists s j,
    candidateStart lines k = Val s /\ s < length lines
    /\ scanQuestion (gas lines) lines s [] = Val (j, qLines)
    /\ optionAt lines j = Val true
    /\ trim (join [SP] qLines) <> []
    /\ scanOptions (gas lines) lines j [] = Val (j', opts)
    /\ 2 <= length opts.

(** The answer buffer behind the options (lines 146-194): [answers] is what
    the answer scan collects from [j'] on, and [k'] where it stops. *)
Definition answerBuffer (lines : list str) (j' k' : nat) (answers : list str) : Prop :=
  exists a,
    skipNoise (gas lines) lines j' = Val a
    /\ scanAnswer (gas lines) lines a [] = Val (k', answers).

(* ================================================================== *)
(** ** The patterns read without backtracking *)

(** [reOption]: the trailing [\s*] matches the empty string, so only the
    first two code units decide. *)
Definition optionHead (s : str) : bool :=
  match s with
  | l :: q :: _ => isAD l && isMark q
  | _ => false
  end.

Fixpoint litPrefix (p s : str) : option str :=
  match p, s with
  | [], _ => Some s
  | a :: p', c :: s' => if (upcase c =? upcase a)%N then litPrefix p' s' else None
  | _ :: _, [] => None
  end.

Definition kwJeongdap : str := [51221; 45813]%N.
Definition kwDap : str := [45813]%N.
Definition kwAnswer : str := [65; 110; 115; 119; 101; 114]%N.


(** [(?:정답|답|Answer)] under [i]; the alternatives start with different
    code units, so at most one of them applies.  Returns what follows. *)
Definition keyword (s : str) : option str :=
  match litPrefix kwJeongdap s with
  | Some r => Some r
  | None =>
      match litPrefix kwDap s with
      | Some r => Some r
      | None => litPrefix kwAnswer s
      end
  end.

(** One iteration [\s*[,/]\s*[A-D]] under [i]; returns what follows. *)
Definition sepLetter (s : str) : option str :=
  match trimStart s with
  | c :: r =>
      if isSep c then
        match trimStart r with
        | l :: v => if isADi l then Some v else None
        | [] => None
        end
      else None
  | [] => None
  end.

(** [(?:\s*[,/]\s*[A-D])*], greedy: what follows the last iteration. *)
Fixpoint lettersTailFrom (fuel : nat) (s : str) : str :=
  match fuel with
  | 0 => s
  | S f =>
      match sepLetter s with
      | Some v => lettersTailFrom f v
      | None => s
      end
  end.

Definition lettersTail (s : str) : str := lettersTailFrom (length s) s.

(** [reInline] on the trimmed line, and what line 24-30 make of group 1. *)
Definition inlineAnswer (s : str) : option str :=
  match keyword (trim s) with
  | None => None
  | Some r1 =>
      let r2 := trimStart r1 in
      let r3 := match r2 with
                | c :: r => if isColon c then trimStart r else r2
                | [] => r2
                end in
      match r3 with
      | l :: r4 =>
          if isADi l then
            let v := lettersTail r4 in
            if isEmpty (trimStart v) then
              let group1 := consumed r3 v in
              let letters :=
                join [44; 32]%N
                  (filter (fun x => negb (isEmpty x))
                     (map trim (splitOn isSep group1))) in
              if isEmpty letters then None else Some letters
            else None
          else None
      | [] => None
      end
  end.

(** The letters as group 1 and [\s*$] behind them. *)
Definition lettersToEnd (s : str) (c : caps) : option (caps * str) :=
  match s with
  | l :: r =>
      if isADi l then
        let v := lettersTail r in
        if isEmpty (trimStart v) then Some ((1, consumed s v) :: c, [])
        else None
      else None
  | [] => None
  end.

(** The greedy star over one class: what it leaves. *)
Fixpoint dropClass (p : cu -> bool) (s : str) : str :=
  match s with
  | [] => []
  | x :: s' => if p x then dropClass p s' else s
  end.

(** [/([^\n])\s*(M)/g] replaced by ['$1\n$2'], where the group M is
    [[A-D][\.\)．]\s*]. *)
Definition optionBreak (s : str) : option (str * str) :=
  match s with
  | [] => None
  | c :: r =>
      if (c =? LF)%N then None
      else
        match trimStart r with
        | l :: q :: r' =>
            if isAD l && isMark q
            then Some (c :: LF :: l :: q :: takeSpaces r', trimStart r')
            else None
        | _ => None
        end
  end.

Fixpoint dropLF (s : str) : str :=
  match s with
  | [] => []
  | c :: r => if (c =? LF)%N then dropLF r else s
  end.

(** [/\n{3,}/g] replaced by ['\n\n']. *)
Definition blankRun (s : str) : option (str * str) :=
  match s with
  | a :: b :: c :: r =>
      if (a =? LF)%N && (b =? LF)%N && (c =? LF)%N
      then Some ([LF; LF], dropLF r)
      else None
  | _ => None
  end.

(** [(?:정답|답|Answer)\s*[:：]\s*[A-D](?:\s*[,/]\s*[A-D])*] under [i] at the
    head of [s]; returns what follows. *)
Definition answerTag (s : str) : option str :=
  match keyword s with
  | None => None
  | Some r1 =>
      match trimStart r1 with
      | c :: r2 =>
          if isColon c then
            match trimStart r2 with
            | l :: r3 => if isADi l then Some (lettersTail r3) else None
            | [] => None
            end
          else None
      | [] => None
      end
  end.

(** [/([^\n])\s*(TAG)/gi] replaced by ['$1\n$2'], TAG as in [answerTag]. *)
Definition answerBreak (s : str) : option (str * str) :=
  match s with
  | [] => None
  | c :: r =>
      if (c =? LF)%N then None
      else
        match answerTag (trimStart r) with
        | Some v => Some (c :: LF :: consumed (trimStart r) v, v)
        | None => None
        end
  end.

(* ================================================================== *)
(** ** Notions the proofs use *)

(** *** Segmenter *)

(** A line that is no noise is, once trimmed, a string with a solid head. *)
Definition solid (s : str) : Prop :=
  exists c r, s = c :: r /\ isSpace c = false.

(** Where a scan may stop: on an option line, or behind the last line. *)
Definition boundary (lines : list str) (k : nat) : Prop :=
  optionAt lines k = Val true \/ length lines <= k.

(** What the code guarantees of a card it pushes. *)
Definition validCard (c : Flashcard) : Prop :=
  question c <> [] /\ answer c <> []
  /\ (exists answers, answer c = finalAnswer answers)
  /\ 2 <= length (options c) /\ length (options c) <= 4
  /\ explanation c = None.

(** What a pass does to the cursor, by the way it ends; [s] is where the
    candidate starts (the cursor behind the noise skip). *)
Definition cursorAfter (lines : list str) (s i' : nat) (o : outcome) : Prop :=
  match o with
  | Halt => length lines <= s /\ i' = s
  | NoOptions => s < length lines /\ i' = length lines
  | EmptyQuestion => s < length lines /\ i' = s + 1
  | FewOptions => s < length lines /\ i' = length lines + 1
  | Emit c => s < i' /\ i' <= length lines /\ validCard c
  end.

(** *** Normalizer *)

Abbreviation spaces := (Forall (fun c : cu => isSpace c = true)).

Abbreviation solids := (Forall (fun c : cu => isSpace c = false)).

Abbreviation breakOptions := (replaceAll optionBreak).
Abbreviation squeezeBlank := (replaceAll blankRun).
Abbreviation breakAnswers := (replaceAll answerBreak).

(** The first line of the normalizer (line 43). *)
Definition stripped (raw : str) : str := replaceChar NBSP SP (removeAll CR raw).

(** A text with no carriage return and no no-break space. *)
Definition plain (t : str) : Prop :=
  Forall (fun c => c <> CR /\ c <> NBSP) t.

(** A pattern whose replacement and remainder are made of the code units
    it was tried on, and line feeds. *)
Definition conservative (m : str -> option (str * str)) : Prop :=
  forall s rep rest, m s = Some (rep, rest) ->
  (forall x, In x rep -> x = LF \/ In x s) /\ (forall x, In x rest -> In x s).

(** A string that is empty or starts with a solid code unit. *)
Definition headSolid (s : str) : Prop :=
  match s with
  | [] => True
  | c :: _ => isSpace c = false
  end.

(** A pattern never matches the empty string: what follows a match is
    shorter than what the match was tried on. *)
Definition shrinking (m : str -> option (str * str)) : Prop :=
  forall s rep rest, m s = Some (rep, rest) -> length rest < length s.

(** The solid code units of a string, in order. *)
Definition squash (s : str) : str := filter (fun c => negb (isSpace c)) s.

(** Whether an iteration matches is read off the solid code units. *)
Definition sepLetterOK (s : str) : bool :=
  match squash s with
  | c :: l :: _ => isSep c && isADi l
  | _ => false
  end.

(** The iterations the greedy star took. *)
Inductive iters : str -> Prop :=
| iters_nil : iters []
| iters_cons (w1 w2 t : str) (c l : cu) :
    spaces w1 -> isSep c = true -> spaces w2 -> isADi l = true ->
    iters t -> iters (w1 ++ c :: w2 ++ l :: t).

(** A text the keyword pattern matches, whatever follows it. *)
Definition isKeyword (k : str) : Prop :=
  k <> [] /\ solids k /\ (forall x, keyword (k ++ x) = Some x)
  /\ (forall x, optionHead (k ++ x) = true -> exists d, k = [d] /\ isAD d = false).

(** The texts [answerTag] takes off the head of a string. *)
Definition tagText (K : str) : Prop :=
  exists k w1 c w2 l t,
    K = k ++ w1 ++ c :: w2 ++ l :: t
    /\ isKeyword k /\ spaces w1 /\ isColon c = true /\ spaces w2
    /\ isADi l = true /\ iters t.

(** Whether the tag matches is read off the keyword and the solid code
    units behind it. *)
Definition colonLetterOK (u : str) : bool :=
  match squash u with
  | c :: l :: _ => isColon c && isADi l
  | _ => false
  end.

(** A text the first replacement leaves as it is. *)
Definition optionsSettled (t : str) : Prop := breakOptions t = t.

(** A string that does not start with a line feed. *)
Definition headNotLF (s : str) : Prop :=
  match s with
  | [] => True
  | c :: _ => (c =? LF)%N = false
  end.

(** No three line feeds in a row. *)
Fixpoint noBlankRun (t : str) : bool :=
  match t with
  | [] => true
  | _ :: r =>
      match blankRun t with
      | Some _ => false
      | None => noBlankRun r
      end
  end.

(** What the head of an answer tag is to the first replacement: a solid
    code unit that is no option mark, at the head of no option line. *)
Definition tagHead (y : str) : Prop :=
  exists k0 y', y = k0 :: y' /\ isSpace k0 = false /\ isMark k0 = false
                /\ optionHead y = false.

(** *** The shape of the cards *)

(** A line the question scan collects: trimmed, no noise, no option line. *)
Definition questionLine (x : str) : Prop :=
  trim x = x /\ isNoiseLine x = false /\ isOptionLine x = false.

(** An answer buffer whose first entry starts like an option line. *)
Definition headed (answers : list str) : Prop :=
  match answers with
  | x :: _ => optionHead x = true
  | [] => False
  end.

(** What the code makes of the three buffers of a pass that pushes a card. *)
Definition cardOf (qLines opts answers : list str) : Flashcard :=
  mkCard (trim (join [SP] qLines)) opts (finalAnswer answers) None.

(** Letters joined by [", "]. *)
Definition letterList (ls : list cu) : str :=
  join [44; 32]%N (map (fun l => [l]) ls).

(* ================================================================== *)
(** ** Documents of entries that end in an answer line *)

(** One record of a document: a question line, four options on a line
    each, the answer as a repeated option line right behind them, and [eGap]
    empty lines behind it. *)
Record Entry := mkEntry {
  eQuestion : str;
  eA : str;
  eB : str;
  eC : str;
  eD : str;
  eAnswer : str;
  eGap : nat
}.

Definition entryLines (e : Entry) : list str :=
  [eQuestion e; eA e; eB e; eC e; eD e; eAnswer e] ++ repeat [] (eGap e).

Definition entryCard (e : Entry) : Flashcard :=
  mkCard (eQuestion e) [eA e; eB e; eC e; eD e] (eAnswer e) None.

(** A line as it stands in the text: trimmed, and of one line. *)
Definition textLine (l : str) : Prop :=
  trim l = l /\ Forall (fun c => c <> LF /\ c <> CR /\ c <> NBSP) l.

Definition optionText (l : str) : Prop := textLine l /\ isOptionLine l = true.

Definition wellFormed (e : Entry) : Prop :=
  textLine (eQuestion e)
  /\ isNoiseLine (eQuestion e) = false
  /\ isOptionLine (eQuestion e) = false
  /\ extractInlineAnswer (eQuestion e) = None
  /\ optionText (eA e) /\ optionText (eB e) /\ optionText (eC e)
  /\ optionText (eD e) /\ optionText (eAnswer e).

Definition documentOf (es : list Entry) : str :=
  join [LF] (concat (map entryLines es)).

(** A line that goes through [toLines] as it is. *)
Definition keptLine (l : str) : Prop :=
  trimEnd l = l /\ Forall (fun c => c <> LF /\ c <> CR /\ c <> NBSP) l.

(** An entry whose question has further lines in front of its last one. *)
Record LongEntry := mkLong {
  lead : list str;
  core : Entry
}.

(** A line of a question that is not taken for an inline answer either. *)
Definition leadLine (l : str) : Prop :=
  textLine l /\ isNoiseLine l = false /\ isOptionLine l = false
  /\ extractInlineAnswer l = None.

Definition wellFormedLong (e : LongEntry) : Prop :=
  Forall leadLine (lead e) /\ wellFormed (core e).

Definition longLines (e : LongEntry) : list str := lead e ++ entryLines (core e).

Definition longDocument (es : list LongEntry) : str :=
  join [LF] (concat (map longLines es)).

(** [' ' + l] for every line, in a row. *)
Definition spaced (ls : list str) : str := concat (map (fun l => SP :: l) ls).

Definition leadOf (es : list LongEntry) : list str :=
  match es with
  | e :: _ => lead e
  | [] => []
  end.

(** The cards of an entry with the question lines [qs] in front, and of the
    entries behind it: the leading lines of the next question end up behind
    the answer. *)
Fixpoint longCards (qs : list str) (c : Entry) (es : list LongEntry) : list Flashcard :=
  mkCard (join [SP] (qs ++ [eQuestion c])) [eA c; eB c; eC c; eD c]
    (eAnswer c ++ spaced (leadOf es)) None
  :: match es with
     | [] => []
     | e :: es' => longCards [] (core e) es'
     end.

(** Two such entries, a blank line between them. *)
Definition sampleEntries : list Entry :=
  [mkEntry (lit "What is 2+2?") (lit "A. 3") (lit "B. 4") (lit "C. 5") (lit "D. 6")
     (lit "B. 4") 1;
   mkEntry (lit "수도는?") (lit "A) 서울") (lit "B) 부산") (lit "C) 대구") (lit "D) 인천")
     (lit "A) 서울") 0].

(** Two entries whose questions have two lines each. *)
Definition sampleLong : list LongEntry :=
  [mkLong [lit "Read the text."]
     (mkEntry (lit "What is 2+2?") (lit "A. 3") (lit "B. 4") (lit "C. 5") (lit "D. 6")
        (lit "B. 4") 1);
   mkLong [lit "Look at the map."]
     (mkEntry (lit "수도는?") (lit "A) 서울") (lit "B) 부산") (lit "C) 대구") (lit "D) 인천")
        (lit "A) 서울") 0)].

(* ================================================================== *)
(** * Properties *)

(** ** The error monad *)

Lemma bind_Val {A B : Type} (x : res A) (k : A -> res B) (b : B) :
  bind x k = Val b -> exists a, x = Val a /\ k a = Val b.
Proof.
  destruct x as [a | | ]; simpl; intro H; try discriminate.
  exists a; split; [reflexivity | exact H].
Qed.

Lemma lineAt_lt (lines : list str) (k : nat) :
  k < length lines -> exists l, lineAt lines k = Val l /\ nth_error lines k = Some l.
Proof.
  intro H. unfold lineAt.
  destruct (nth_error lines k) as [l | ] eqn:E.
  - exists l; split; reflexivity.
  - apply nth_error_None in E. lia.
Qed.

Lemma lineAt_Val (lines : list str) (k : nat) (l : str) :
  lineAt lines k = Val l -> nth_error lines k = Some l /\ k < length lines.
Proof.
  unfold lineAt. destruct (nth_error lines k) as [x | ] eqn:E; intro H; inversion H; subst.
  split; [reflexivity | ]. apply nth_error_Some. congruence.
Qed.

(** ** White space and [trim] *)

Lemma trimStart_app_solid (l : str) (c : cu) :
  isSpace c = false -> exists r, trimStart (l ++ [c]) = r ++ [c].
Proof.
  intro Hc. induction l as [ | x l IH]; simpl.
  - rewrite Hc. exists []; reflexivity.
  - destruct (isSpace x).
    + exact IH.
    + exists (x :: l); reflexivity.
Qed.

Lemma trimEnd_solid_head (c : cu) (s : str) :
  isSpace c = false -> exists r, trimEnd (c :: s) = c :: r.
Proof.
  intro Hc. unfold trimEnd. simpl rev.
  destruct (trimStart_app_solid (rev s) c Hc) as [r Hr].
  rewrite Hr, rev_app_distr. simpl. exists (rev r); reflexivity.
Qed.

Lemma trimStart_head (s : str) (c : cu) (r : str) :
  trimStart s = c :: r -> isSpace c = false.
Proof.
  induction s as [ | x s IH]; simpl; intro H; [discriminate | ].
  destruct (isSpace x) eqn:E; [exact (IH H) | ].
  inversion H; subst; exact E.
Qed.

Lemma trimStart_solid (c : cu) (s : str) :
  isSpace c = false -> trimStart (c :: s) = c :: s.
Proof. intro H; simpl; rewrite H; reflexivity. Qed.

Lemma trimStart_idem (s : str) : trimStart (trimStart s) = trimStart s.
Proof.
  destruct (trimStart s) as [ | c r] eqn:E; [reflexivity | ].
  apply trimStart_solid. exact (trimStart_head _ _ _ E).
Qed.

(** A trimmed string is empty or starts with a code unit that is no space. *)
Lemma trim_head (s : str) (c : cu) (r : str) :
  trim s = c :: r -> isSpace c = false.
Proof.
  unfold trim. destruct (trimStart s) as [ | x t] eqn:E.
  - unfold trimEnd; simpl; discriminate.
  - pose proof (trimStart_head _ _ _ E) as Hx.
    destruct (trimEnd_solid_head x t Hx) as [r' Hr]. rewrite Hr.
    intro H; inversion H; subst; exact Hx.
Qed.

Lemma trimEnd_app_solid (a : str) (c : cu) :
  isSpace c = false -> trimEnd (a ++ [c]) = a ++ [c].
Proof.
  intro Hc. unfold trimEnd. rewrite rev_app_distr. simpl.
  rewrite Hc. simpl. rewrite rev_involutive. reflexivity.
Qed.

Lemma trimEnd_idem (s : str) : trimEnd (trimEnd s) = trimEnd s.
Proof.
  unfold trimEnd. rewrite rev_involutive, trimStart_idem. reflexivity.
Qed.

Lemma trimEnd_last (s : str) (a : str) (c : cu) :
  trimEnd s = a ++ [c] -> isSpace c = false.
Proof.
  unfold trimEnd. intro H.
  assert (E : trimStart (rev s) = c :: rev a).
  { rewrite <- (rev_involutive (trimStart (rev s))), H, rev_app_distr. reflexivity. }
  exact (trimStart_head _ _ _ E).
Qed.

Lemma trim_idem (s : str) : trim (trim s) = trim s.
Proof.
  unfold trim at 1.
  destruct (trim s) as [ | c r] eqn:E; [reflexivity | ].
  rewrite (trimStart_solid c r (trim_head _ _ _ E)).
  rewrite <- E. unfold trim. apply trimEnd_idem.
Qed.

(** A string that starts with a solid code unit does not trim to nothing. *)
Lemma trim_solid_nonempty (c : cu) (s : str) :
  isSpace c = false -> trim (c :: s) <> [].
Proof.
  intro Hc. unfold trim. rewrite (trimStart_solid c s Hc).
  destruct (trimEnd_solid_head c s Hc) as [r Hr]. rewrite Hr. discriminate.
Qed.

(** ** The matcher *)

Section Steps.

Context {R : Type}.
Variables (s : str) (c : caps) (k : str -> caps -> option R).

Lemma m_chr_nil (p : cu -> bool) : matches (Chr p) [] c k = None.
Proof. reflexivity. Qed.

Lemma m_chr_cons (p : cu -> bool) (x : cu) :
  matches (Chr p) (x :: s) c k = if p x then k s c else None.
Proof. reflexivity. Qed.

Lemma m_cat (a b : re) :
  matches (Cat a b) s c k = matches a s c (fun s' c' => matches b s' c' k).
Proof. reflexivity. Qed.

Lemma m_alt (a b : re) :
  matches (Alt a b) s c k
  = match matches a s c k with Some x => Some x | None => matches b s c k end.
Proof. reflexivity. Qed.

Lemma m_opt (a : re) :
  matches (Opt a) s c k
  = match matches a s c k with Some x => Some x | None => k s c end.
Proof. reflexivity. Qed.

Lemma m_grp (n : nat) (a : re) :
  matches (Grp n a) s c k
  = matches a s c (fun s' c' => k s' ((n, consumed s s') :: c')).
Proof. reflexivity. Qed.

Lemma m_eos_nil : matches Eos [] c k = k [] c.
Proof. reflexivity. Qed.

Lemma m_eos_cons (x : cu) : matches Eos (x :: s) c k = None.
Proof. reflexivity. Qed.

End Steps.

Ltac msteps :=
  repeat (first [ rewrite m_cat | rewrite m_grp | rewrite m_chr_cons
                | rewrite m_chr_nil | rewrite m_eos_nil | rewrite m_eos_cons ];
          cbv beta).

Lemma dropClass_space (s : str) : dropClass isSpace s = trimStart s.
Proof. induction s as [ | x s IH]; simpl; [ | rewrite IH]; reflexivity. Qed.

Lemma dropClass_nil_forallb (p : cu -> bool) (s : str) :
  isEmpty (dropClass p s) = forallb p s.
Proof.
  induction s as [ | x s IH]; [reflexivity | ].
  cbn [dropClass forallb]. destruct (p x); [exact IH | reflexivity].
Qed.

(** The star gives back what it took only if the rest fails behind the
    whole run; [k] fails there only if it fails everywhere before. *)
Lemma starLoop_class {R : Type} (p : cu -> bool) (k : str -> caps -> option R) :
  (forall s c, k (dropClass p s) c = None -> k s c = None) ->
  forall fuel s c, length s <= fuel ->
  starLoop (matches (Chr p)) k fuel s c = k (dropClass p s) c.
Proof.
  intro Hk. induction fuel as [ | f IH]; intros s c Hf.
  - destruct s; [reflexivity | simpl in Hf; lia].
  - cbn [starLoop matches]. destruct s as [ | x s']; [reflexivity | ].
    destruct (p x) eqn:Ex.
    + assert (Hl : (length s' <? length (x :: s')) = true)
        by (apply Nat.ltb_lt; simpl; lia).
      rewrite Hl. rewrite IH by (simpl in Hf; lia).
      cbn [dropClass]. rewrite Ex.
      destruct (k (dropClass p s') c) as [y | ] eqn:Ek; [reflexivity | ].
      apply Hk. cbn [dropClass]. rewrite Ex. exact Ek.
    + cbn [dropClass]. rewrite Ex. reflexivity.
Qed.

Lemma matches_star_class {R : Type} (p : cu -> bool) (k : str -> caps -> option R)
  (s : str) (c : caps) :
  (forall s c, k (dropClass p s) c = None -> k s c = None) ->
  matches (Star (Chr p)) s c k = k (dropClass p s) c.
Proof. intro Hk. cbn [matches]. apply starLoop_class; [exact Hk | lia]. Qed.

Lemma matches_ws {R : Type} (k : str -> caps -> option R) (s : str) (c : caps) :
  (forall s c, k (trimStart s) c = None -> k s c = None) ->
  matches ws s c k = k (trimStart s) c.
Proof.
  intro Hk. unfold ws. rewrite matches_star_class.
  - rewrite dropClass_space. reflexivity.
  - intros s0 c0. rewrite dropClass_space. apply Hk.
Qed.

(** The patterns of the classifier. *)
Lemma isOptionLine_head (s : str) : isOptionLine s = optionHead s.
Proof.
  unfold isOptionLine, test, matchHead, reOption.
  destruct s as [ | l [ | q r]]; msteps; cbn [optionHead].
  - reflexivity.
  - destruct (isAD l); msteps; reflexivity.
  - destruct (isAD l); [ | reflexivity]. msteps.
    destruct (isMark q); [ | reflexivity].
    rewrite matches_ws; [reflexivity | discriminate].
Qed.

Lemma isAnswerLine_head (s : str) : isAnswerLine s = optionHead s.
Proof. exact (isOptionLine_head s). Qed.

Lemma test_reRule (t : str) :
  test reRule t = forallb isRule t && (3 <=? length t).
Proof.
  unfold test, matchHead, reRule.
  destruct t as [ | a [ | b [ | c r]]]; msteps; cbn [forallb length].
  - reflexivity.
  - destruct (isRule a); msteps; reflexivity.
  - destruct (isRule a); [ | reflexivity]. msteps.
    destruct (isRule b); msteps; reflexivity.
  - destruct (isRule a); [ | reflexivity]. msteps.
    destruct (isRule b); [ | reflexivity]. msteps.
    destruct (isRule c); [ | reflexivity].
    rewrite matches_star_class.
    + rewrite <- dropClass_nil_forallb.
      destruct (dropClass isRule r); msteps; reflexivity.
    + intros s0 c0. destruct s0 as [ | x s0]; [exact (fun H => H) | ].
      intros _. reflexivity.
Qed.

(** ** Noise lines *)

Lemma isNoiseLine_trim (s : str) : isNoiseLine (trim s) = isNoiseLine s.
Proof. unfold isNoiseLine. rewrite trim_idem. reflexivity. Qed.

Lemma isNoiseLine_empty (s : str) : trim s = [] -> isNoiseLine s = true.
Proof. unfold isNoiseLine. intro H; rewrite H; reflexivity. Qed.

(** An option line is never noise. *)
Lemma option_not_noise (s : str) :
  trim s = s -> isOptionLine s = true -> isNoiseLine s = false.
Proof.
  intros Ht Ho. unfold isNoiseLine. rewrite Ht, test_reRule.
  rewrite isOptionLine_head in Ho.
  destruct s as [ | a [ | q r]]; simpl in Ho; try discriminate.
  apply andb_prop in Ho. destruct Ho as [Ha _].
  unfold isAD in Ha. apply andb_prop in Ha. destruct Ha as [H1 H2].
  apply N.leb_le in H1. apply N.leb_le in H2.
  assert (E73 : (a =? 73)%N = false) by (apply N.eqb_neq; lia).
  assert (Er : isRule a = false).
  { unfold isRule. repeat (apply orb_false_intro); apply N.eqb_neq; lia. }
  simpl. rewrite E73, Er. reflexivity.
Qed.


Lemma not_noise_solid (l : str) :
  isNoiseLine (trim l) = false -> solid (trim l).
Proof.
  intro H. destruct (trim l) as [ | c r] eqn:E.
  - rewrite <- E, isNoiseLine_trim in H.
    rewrite (isNoiseLine_empty l E) in H. discriminate.
  - exists c, r. split; [reflexivity | exact (trim_head _ _ _ E)].
Qed.

Lemma join_solid_nonempty (sep x : str) (rest : list str) :
  solid x -> trim (join sep (x :: rest)) <> [].
Proof.
  intros [c [r [-> Hc]]].
  destruct rest as [ | y rest]; simpl.
  - apply trim_solid_nonempty; exact Hc.
  - apply trim_solid_nonempty; exact Hc.
Qed.

(** ** The inner loops: they return, within the bounds of [lines] *)

Lemma gas_bound (lines : list str) (i : nat) : length lines - i < gas lines.
Proof. unfold gas. lia. Qed.

Opaque gas.

Section Loops.

Variable lines : list str.

Lemma skipNoise_total (fuel i : nat) :
  length lines - i < fuel ->
  exists k, skipNoise fuel lines i = Val k /\ i <= k /\ k <= Nat.max i (length lines)
    /\ (k < length lines ->
        exists l, nth_error lines k = Some l /\ isNoiseLine l = false).
Proof.
  revert i. induction fuel as [ | f IH]; intros i Hf; [lia | ].
  cbn [skipNoise]. destruct (i <? length lines) eqn:E.
  - apply Nat.ltb_lt in E.
    destruct (lineAt_lt lines i E) as [l [Hl Hn]]. rewrite Hl; cbn [bind].
    destruct (isNoiseLine l) eqn:N.
    + destruct (IH (i + 1)) as [k [H1 [H2 [H3 H4]]]]; [lia | ].
      exists k. repeat apply conj; [exact H1 | lia | lia | exact H4].
    + exists i. repeat apply conj; [reflexivity | lia | lia | ].
      intros _. exists l; split; assumption.
  - apply Nat.ltb_ge in E. exists i. repeat apply conj; [reflexivity | lia | lia | lia].
Qed.

Lemma optionAt_total (k : nat) :
  exists b, optionAt lines k = Val b /\ (b = true -> k < length lines).
Proof.
  unfold optionAt. destruct (k <? length lines) eqn:E.
  - apply Nat.ltb_lt in E.
    destruct (lineAt_lt lines k E) as [l [Hl _]]. rewrite Hl; cbn [bind].
    eexists; split; [reflexivity | intros _; exact E].
  - exists false; split; [reflexivity | discriminate].
Qed.

Lemma optionAt_false_end (k : nat) :
  length lines <= k -> optionAt lines k = Val false.
Proof.
  intro H. unfold optionAt.
  destruct (k <? length lines) eqn:E; [ | reflexivity].
  apply Nat.ltb_lt in E. lia.
Qed.


Lemma boundary_of_optionAt (k : nat) (b : bool) :
  optionAt lines k = Val b -> (b = false -> length lines <= k) -> boundary lines k.
Proof.
  intros H Hb. destruct b; [left; exact H | right; apply Hb; reflexivity].
Qed.

Lemma scanQuestion_total (fuel j : nat) (q : list str) :
  length lines - j < fuel ->
  exists j' extra,
    scanQuestion fuel lines j q = Val (j', q ++ extra)
    /\ j <= j' /\ j' <= Nat.max j (length lines)
    /\ boundary lines j'
    /\ Forall solid extra
    /\ (extra = [] ->
        forall l, nth_error lines j = Some l -> isNoiseLine l = false -> j' = j).
Proof.
  revert j q. induction fuel as [ | f IH]; intros j q Hf; [lia | ].
  cbn [scanQuestion]. destruct (j <? length lines) eqn:E.
  - apply Nat.ltb_lt in E.
    destruct (lineAt_lt lines j E) as [l [Hl Hn]]. rewrite Hl; cbn [bind].
    destruct (isNoiseLine (trim l)) eqn:N.
    + destruct (IH (j + 1) q) as [j' [extra [H1 [H2 [H3 [H4 [H5 H6]]]]]]]; [lia | ].
      exists j', extra. repeat apply conj; [exact H1 | lia | lia | exact H4 | exact H5 | ].
      intros _ l0 Hl0 Hn0. rewrite Hn in Hl0. inversion Hl0; subst l0.
      rewrite isNoiseLine_trim in N. congruence.
    + destruct (isOptionLine (trim l)) eqn:O.
      * exists j, []. rewrite app_nil_r.
        repeat apply conj; [reflexivity | lia | lia | | constructor | reflexivity].
        left. unfold optionAt. apply Nat.ltb_lt in E. rewrite E, Hl; cbn [bind].
        rewrite O. reflexivity.
      * destruct (skipNoise_total (gas lines) (j + 1)) as [k [Hk [Hk1 [Hk2 _]]]];
          [apply gas_bound | ].
        rewrite Hk; cbn [bind].
        destruct (optionAt_total k) as [b [Hb Hb1]]. rewrite Hb; cbn [bind].
        destruct b.
        -- exists k, [trim l].
           repeat apply conj; [reflexivity | lia | lia | left; exact Hb | | discriminate].
           constructor; [apply not_noise_solid; exact N | constructor].
        -- destruct (IH (j + 1) (q ++ [trim l]))
             as [j' [extra [H1 [H2 [H3 [H4 [H5 H6]]]]]]]; [lia | ].
           exists j', (trim l :: extra).
           rewrite H1, <- app_assoc. cbn [app].
           repeat apply conj; [reflexivity | lia | lia | exact H4 | | discriminate].
           constructor; [apply not_noise_solid; exact N | exact H5].
  - apply Nat.ltb_ge in E. exists j, []. rewrite app_nil_r.
    repeat apply conj; [reflexivity | lia | lia | right; exact E | constructor | reflexivity].
Qed.

Lemma continuation_total (fuel k : nat) (opt : str) :
  length lines - k < fuel ->
  exists k' opt',
    continuation fuel lines k opt = Val (k', opt')
    /\ k <= k' /\ k' <= Nat.max k (length lines) /\ boundary lines k'.
Proof.
  revert k opt. induction fuel as [ | f IH]; intros k opt Hf; [lia | ].
  cbn [continuation]. destruct (k <? length lines) eqn:E.
  - apply Nat.ltb_lt in E.
    destruct (lineAt_lt lines k E) as [l [Hl Hn]]. rewrite Hl; cbn [bind].
    destruct (isNoiseLine (trim l)) eqn:N.
    + destruct (IH (k + 1) opt) as [k' [opt' [H1 [H2 [H3 H4]]]]]; [lia | ].
      exists k', opt'. repeat apply conj; [exact H1 | lia | lia | exact H4].
    + destruct (isOptionLine (trim l)) eqn:O.
      * exists k, opt. repeat apply conj; [reflexivity | lia | lia | ].
        left. unfold optionAt. apply Nat.ltb_lt in E. rewrite E, Hl; cbn [bind].
        rewrite O. reflexivity.
      * destruct (IH (k + 1) (opt ++ [SP] ++ trim l))
          as [k' [opt' [H1 [H2 [H3 H4]]]]]; [lia | ].
        exists k', opt'. repeat apply conj; [exact H1 | lia | lia | exact H4].
  - apply Nat.ltb_ge in E. exists k, opt.
    repeat apply conj; [reflexivity | lia | lia | right; exact E].
Qed.

Lemma scanOptions_total (fuel j : nat) (opts : list str) :
  length lines - j < fuel ->
  boundary lines j ->
  exists j' more,
    scanOptions fuel lines j opts = Val (j', opts ++ more)
    /\ j <= j' /\ j' <= Nat.max j (length lines)
    /\ (more <> [] -> j < j')
    /\ (length opts < 4 -> length (opts ++ more) <= 4)
    /\ (length lines <= j' \/ 4 <= length (opts ++ more)).
Proof.
  revert j opts. induction fuel as [ | f IH]; intros j opts Hf Hb; [lia | ].
  cbn [scanOptions]. destruct (j <? length lines) eqn:E.
  - apply Nat.ltb_lt in E.
    destruct (lineAt_lt lines j E) as [l [Hl Hn]]. rewrite Hl; cbn [bind].
    destruct Hb as [Hb | Hb]; [ | lia].
    unfold optionAt in Hb. apply Nat.ltb_lt in E. rewrite E, Hl in Hb.
    cbn [bind] in Hb. inversion Hb as [O]. apply Nat.ltb_lt in E.
    rewrite (option_not_noise (trim l) (trim_idem l) O). rewrite O; cbn [negb].
    destruct (continuation_total (gas lines) (j + 1) (trim l))
      as [k [opt [Hc [Hc1 [Hc2 Hc3]]]]]; [apply gas_bound | ].
    rewrite Hc; cbn [bind].
    destruct (4 <=? length (opts ++ [opt])) eqn:F.
    + apply Nat.leb_le in F. exists k, [opt].
      repeat apply conj; [reflexivity | lia | lia | intros _; lia | | right; exact F].
      rewrite length_app. simpl. lia.
    + apply Nat.leb_gt in F.
      destruct (IH k (opts ++ [opt])) as [j' [more [H1 [H2 [H3 [H4 [H5 H6]]]]]]];
        [lia | exact Hc3 | ].
      exists j', (opt :: more).
      rewrite H1, <- app_assoc. cbn [app].
      replace (opts ++ opt :: more) with ((opts ++ [opt]) ++ more) in *
        by (rewrite <- app_assoc; reflexivity).
      repeat apply conj;
        [reflexivity | lia | lia | intros _; lia | intros _; apply H5; exact F | exact H6].
  - apply Nat.ltb_ge in E. exists j, []. rewrite app_nil_r.
    repeat apply conj; [reflexivity | lia | lia | congruence | lia | left; exact E].
Qed.

Lemma scanAnswer_total (fuel a : nat) (answers : list str) :
  length lines - a < fuel ->
  exists a' answers',
    scanAnswer fuel lines a answers = Val (a', answers')
    /\ a <= a' /\ a' <= Nat.max a (length lines).
Proof.
  revert a answers. induction fuel as [ | f IH]; intros a answers Hf; [lia | ].
  cbn [scanAnswer]. destruct (a <? length lines) eqn:E.
  - apply Nat.ltb_lt in E.
    destruct (lineAt_lt lines a E) as [l [Hl Hn]]. rewrite Hl; cbn [bind].
    destruct (isNoiseLine (trim l)) eqn:N.
    + destruct (IH (a + 1) answers) as [a' [an [H1 [H2 H3]]]]; [lia | ].
      exists a', an. repeat apply conj; [exact H1 | lia | lia].
    + destruct (truthy (extractInlineAnswer (trim l))) eqn:T.
      * eexists _, _. repeat apply conj; [reflexivity | lia | lia].
      * assert (Hstop : exists b,
            (if negb (isAnswerLine (trim l)) && negb (isOptionLine (trim l))
             then k <- skipNoise (gas lines) lines (a + 1) ;; optionAt lines k
             else Val false) = Val b).
        { destruct (negb (isAnswerLine (trim l)) && negb (isOptionLine (trim l))).
          - destruct (skipNoise_total (gas lines) (a + 1)) as [k [Hk _]];
              [apply gas_bound | ].
            rewrite Hk; cbn [bind].
            destruct (optionAt_total k) as [b [Hb _]]. exists b; exact Hb.
          - exists false; reflexivity. }
        destruct Hstop as [b Hb]. rewrite Hb; cbn [bind].
        destruct b.
        -- eexists _, _. repeat apply conj; [reflexivity | lia | lia].
        -- match goal with
           | |- context [scanAnswer f lines (a + 1) ?x] =>
               destruct (IH (a + 1) x) as [a' [an [H1 [H2 H3]]]]; [lia | ]
           end.
           exists a', an. repeat apply conj; [exact H1 | lia | lia].
  - apply Nat.ltb_ge in E. exists a, answers. repeat apply conj; [reflexivity | lia | lia].
Qed.

End Loops.

Transparent gas.

(** ** One pass of the outer loop *)


Lemma finalAnswer_nonempty (answers : list str) : finalAnswer answers <> [].
Proof.
  unfold finalAnswer.
  destruct (trim (join [LF] answers)) as [ | c r]; simpl; discriminate.
Qed.

Lemma finalAnswer_sentinel (answers : list str) :
  trim (join [LF] answers) = [] -> finalAnswer answers = UNKNOWN.
Proof. unfold finalAnswer. intro H; rewrite H; reflexivity. Qed.


Opaque gas.

Lemma cycle_total (lines : list str) (i : nat) :
  i < length lines ->
  exists s i' o,
    candidateStart lines i = Val s
    /\ cycle lines i = Val (i', o)
    /\ i <= s /\ i < i' /\ cursorAfter lines s i' o.
Proof.
  intro Hi. unfold cycle, candidateStart.
  destruct (skipNoise_total lines (gas lines) i (gas_bound lines i))
    as [s [Hs [Hs1 [Hs2 Hs3]]]].
  rewrite Hs; cbn [bind]. exists s.
  destruct (length lines <=? s) eqn:E.
  { apply Nat.leb_le in E. exists s, Halt.
    repeat apply conj; [reflexivity | reflexivity | lia | lia | exact E | reflexivity]. }
  apply Nat.leb_gt in E.
  destruct (Hs3 E) as [l0 [Hl0 Hn0]].
  destruct (scanQuestion_total lines (gas lines) s [] (gas_bound lines s))
    as [j [extra [Hq [Hq1 [Hq2 [Hq3 [Hq4 Hq5]]]]]]].
  rewrite Hq; cbn [bind app].
  destruct (optionAt_total lines j) as [b [Hb Hb1]].
  rewrite Hb; cbn [bind].
  destruct b; cbn [negb].
  2:{ exists (Nat.max (s + 1) j), NoOptions.
      assert (Hj : length lines <= j).
      { destruct Hq3 as [Hq3 | Hq3]; [congruence | exact Hq3]. }
      repeat apply conj; [reflexivity | reflexivity | lia | lia | exact E | lia]. }
  pose proof (Hb1 eq_refl) as Hj.
  destruct (isEmpty (trim (join [SP] extra))) eqn:Q.
  { exists (j + 1), EmptyQuestion.
    assert (He : extra = []).
    { destruct extra as [ | x rest]; [reflexivity | ].
      inversion Hq4 as [ | ? ? Hx _]; subst.
      pose proof (join_solid_nonempty [SP] x rest Hx) as Hne.
      destruct (trim (join [SP] (x :: rest))); [congruence | discriminate]. }
    pose proof (Hq5 He l0 Hl0 Hn0) as Hjs.
    repeat apply conj; [reflexivity | reflexivity | lia | lia | exact E | lia]. }
  destruct (scanOptions_total lines (gas lines) j [] (gas_bound lines j) (or_introl Hb))
    as [j' [more [Ho [Ho1 [Ho2 [Ho3 [Ho4 Ho5]]]]]]].
  rewrite Ho; cbn [bind app]. cbn [app] in Ho4, Ho5.
  destruct (length more <? 2) eqn:F.
  { apply Nat.ltb_lt in F. exists (j' + 1), FewOptions.
    repeat apply conj; [reflexivity | reflexivity | lia | lia | exact E | lia]. }
  apply Nat.ltb_ge in F.
  destruct (skipNoise_total lines (gas lines) j' (gas_bound lines j'))
    as [a [Ha [Ha1 [Ha2 _]]]].
  rewrite Ha; cbn [bind].
  destruct (scanAnswer_total lines (gas lines) a [] (gas_bound lines a))
    as [a' [answers [Hsa [Hsa1 Hsa2]]]].
  rewrite Hsa; cbn [bind].
  assert (Hm : more <> []) by (destruct more; [simpl in F; lia | discriminate]).
  pose proof (Ho3 Hm) as Hjj.
  eexists a', (Emit _).
  repeat apply conj;
    [reflexivity | reflexivity | lia | lia | lia | lia | | | | | | ]; simpl.
  - destruct (trim (join [SP] extra)); [discriminate | discriminate].
  - apply finalAnswer_nonempty.
  - exists answers; reflexivity.
  - exact F.
  - apply Ho4. simpl. lia.
  - reflexivity.
Qed.

Transparent gas.

(** ** The outer loop *)

Lemma segment_total (lines : list str) (fuel i : nat) (cards : list Flashcard) :
  length lines - i < fuel ->
  Forall validCard cards ->
  exists cs, segment fuel lines i cards = Val cs /\ Forall validCard cs.
Proof.
  revert i cards. induction fuel as [ | f IH]; intros i cards Hf Hv; [lia | ].
  cbn [segment]. destruct (i <? length lines) eqn:E.
  - apply Nat.ltb_lt in E.
    destruct (cycle_total lines i E) as [s [i' [o [_ [Hc [_ [Hlt Hafter]]]]]]].
    rewrite Hc; cbn [bind].
    destruct o; try (apply IH; [lia | exact Hv]).
    + exists cards; split; [reflexivity | exact Hv].
    + apply IH; [lia | ].
      apply Forall_app; split; [exact Hv | ].
      constructor; [ | constructor].
      destruct Hafter as [_ [_ Hc']]. exact Hc'.
  - exists cards; split; [reflexivity | exact Hv].
Qed.

(** More fuel than lines changes nothing: the loop has ended by then. *)
Lemma segment_fuel (lines : list str) (f1 f2 i : nat) (cards : list Flashcard) :
  length lines - i < f1 -> length lines - i < f2 ->
  segment f1 lines i cards = segment f2 lines i cards.
Proof.
  revert f2 i cards. induction f1 as [ | f1 IH]; intros f2 i cards H1 H2; [lia | ].
  destruct f2 as [ | f2]; [lia | ].
  cbn [segment]. destruct (i <? length lines) eqn:E; [ | reflexivity].
  apply Nat.ltb_lt in E.
  destruct (cycle_total lines i E) as [s [i' [o [_ [Hc [_ [Hlt _]]]]]]].
  rewrite Hc; cbn [bind].
  destruct o; try reflexivity; apply IH; lia.
Qed.

Lemma cycle_defined (lines : list str) (i : nat) :
  exists i' o, cycle lines i = Val (i', o).
Proof.
  destruct (Nat.lt_ge_cases i (length lines)) as [H | H].
  - destruct (cycle_total lines i H) as [s [i' [o [_ [Hc _]]]]].
    exists i', o; exact Hc.
  - unfold cycle, candidateStart.
    destruct (skipNoise_total lines (gas lines) i (gas_bound lines i))
      as [s [Hs [Hs1 _]]].
    rewrite Hs; cbn [bind].
    assert (E : (length lines <=? s) = true) by (apply Nat.leb_le; lia).
    rewrite E. exists s, Halt; reflexivity.
Qed.

Lemma passes_bound (lines : list str) (fuel i : nat) :
  length lines - i < fuel ->
  exists n, passes fuel lines i = Val n /\ n <= length lines - i.
Proof.
  revert i. induction fuel as [ | f IH]; intros i Hf; [lia | ].
  cbn [passes]. destruct (i <? length lines) eqn:E.
  - apply Nat.ltb_lt in E.
    destruct (cycle_total lines i E) as [s [i' [o [_ [Hc [_ [Hlt _]]]]]]].
    rewrite Hc; cbn [bind].
    destruct o;
      try (destruct (IH i') as [n [Hn Hb]]; [lia | ];
           rewrite Hn; cbn [bind]; exists (S n); split; [reflexivity | lia]).
    exists 1; split; [reflexivity | lia].
  - exists 0; split; [reflexivity | lia].
Qed.

Lemma parse_total (rawText : str) :
  exists cards,
    parseDocxContent rawText = Val cards /\ Forall validCard cards.
Proof.
  unfold parseDocxContent.
  apply segment_total; [apply gas_bound | constructor].
Qed.

(* ================================================================== *)
(** * The normalizer *)

Ltac splits := repeat match goal with |- _ /\ _ => split end.

(** ** Character classes *)

Ltac bool_hyps :=
  repeat match goal with
  | H : _ && _ = true |- _ => apply andb_prop in H; destruct H
  | H : _ || _ = true |- _ => apply orb_prop in H; destruct H
  | H : (_ <=? _)%N = true |- _ => apply N.leb_le in H
  | H : (_ =? _)%N = true |- _ => apply N.eqb_eq in H
  | H : (_ <=? _)%N = false |- _ => apply N.leb_gt in H
  | H : (_ =? _)%N = false |- _ => apply N.eqb_neq in H
  end.

Ltac bool_false :=
  repeat (apply orb_false_intro);
  first [ apply N.eqb_neq; lia
        | apply andb_false_intro1; apply N.leb_gt; lia
        | apply andb_false_intro2; apply N.leb_gt; lia
        | apply andb_false_intro1; apply N.eqb_neq; lia
        | apply andb_false_intro2; apply N.eqb_neq; lia ].

Lemma isSpace_LF : isSpace LF = true.
Proof. reflexivity. Qed.

Lemma isAD_solid (c : cu) : isAD c = true -> isSpace c = false.
Proof. unfold isAD, isSpace. intro H. bool_hyps. bool_false. Qed.

Lemma isADi_solid (c : cu) : isADi c = true -> isSpace c = false.
Proof. unfold isADi, isAD, isSpace. intro H. bool_hyps; bool_false. Qed.

Lemma isMark_solid (c : cu) : isMark c = true -> isSpace c = false.
Proof. unfold isMark, isSpace. intro H. bool_hyps; subst; reflexivity. Qed.

Lemma isColon_solid (c : cu) : isColon c = true -> isSpace c = false.
Proof. unfold isColon, isSpace. intro H. bool_hyps; subst; reflexivity. Qed.

Lemma isSep_solid (c : cu) : isSep c = true -> isSpace c = false.
Proof. unfold isSep, isSpace. intro H. bool_hyps; subst; reflexivity. Qed.

Lemma solid_not_LF (c : cu) : isSpace c = false -> (c =? LF)%N = false.
Proof.
  intro H. destruct (N.eqb_spec c LF) as [E | E]; [ | reflexivity].
  subst. discriminate.
Qed.

Lemma isMark_not_AD (c : cu) : isMark c = true -> isAD c = false.
Proof. unfold isMark, isAD. intro H. bool_hyps; subst; reflexivity. Qed.

Lemma isMark_not_ADi (c : cu) : isMark c = true -> isADi c = false.
Proof. unfold isMark, isADi, isAD. intro H. bool_hyps; subst; reflexivity. Qed.

Lemma isAD_ADi (c : cu) : isAD c = true -> isADi c = true.
Proof. unfold isADi. intro H; rewrite H; reflexivity. Qed.

Lemma isSep_not_ADi (c : cu) : isSep c = true -> isADi c = false.
Proof. unfold isSep, isADi, isAD. intro H. bool_hyps; subst; reflexivity. Qed.

(** ** White space at the head of a string *)

Lemma split_spaces (s : str) : s = takeSpaces s ++ trimStart s.
Proof.
  induction s as [ | c r IH]; simpl; [reflexivity | ].
  destruct (isSpace c); simpl; [f_equal; exact IH | reflexivity].
Qed.

Lemma takeSpaces_all (s : str) : Forall (fun c => isSpace c = true) (takeSpaces s).
Proof.
  induction s as [ | c r IH]; simpl; [constructor | ].
  destruct (isSpace c) eqn:E; constructor; assumption.
Qed.

Lemma trimStart_length (s : str) : length (trimStart s) <= length s.
Proof.
  induction s as [ | c r IH]; simpl; [lia | ].
  destruct (isSpace c); simpl; lia.
Qed.


Lemma trimStart_headSolid (s : str) : headSolid (trimStart s).
Proof.
  destruct (trimStart s) as [ | c r] eqn:E; simpl; [exact I | ].
  exact (trimStart_head _ _ _ E).
Qed.

Lemma trimStart_fix (s : str) : headSolid s -> trimStart s = s.
Proof.
  destruct s as [ | c r]; simpl; [reflexivity | ].
  intro H; rewrite H; reflexivity.
Qed.

Lemma takeSpaces_fix (s : str) : headSolid s -> takeSpaces s = [].
Proof.
  destruct s as [ | c r]; simpl; [reflexivity | ].
  intro H; rewrite H; reflexivity.
Qed.

Lemma trimStart_app_spaces (w s : str) :
  Forall (fun c => isSpace c = true) w -> trimStart (w ++ s) = trimStart s.
Proof.
  induction 1 as [ | c w Hc _ IH]; simpl; [reflexivity | ].
  rewrite Hc. exact IH.
Qed.

Lemma takeSpaces_app_spaces (w s : str) :
  Forall (fun c => isSpace c = true) w -> takeSpaces (w ++ s) = w ++ takeSpaces s.
Proof.
  induction 1 as [ | c w Hc _ IH]; simpl; [reflexivity | ].
  rewrite Hc, IH. reflexivity.
Qed.

Lemma trimStart_app_solid_head (a b : str) :
  trimStart a <> [] -> trimStart (a ++ b) = trimStart a ++ b.
Proof.
  induction a as [ | c r IH]; simpl; [congruence | ].
  destruct (isSpace c); [exact IH | reflexivity].
Qed.

Lemma trimStart_app_all_space (a b : str) :
  trimStart a = [] -> trimStart (a ++ b) = trimStart b.
Proof.
  induction a as [ | c r IH]; simpl; [reflexivity | ].
  destruct (isSpace c); [exact IH | discriminate].
Qed.

Lemma trimStart_nil_all (a : str) :
  trimStart a = [] -> Forall (fun c => isSpace c = true) a.
Proof.
  induction a as [ | c r IH]; simpl; [constructor | ].
  destruct (isSpace c) eqn:E; [ | discriminate].
  intro H. constructor; [exact E | exact (IH H)].
Qed.

(** ** Global replacement *)


Lemma replaceFrom_fuel (m : str -> option (str * str)) :
  shrinking m ->
  forall f1 f2 s, length s <= f1 -> length s <= f2 ->
  replaceFrom m f1 s = replaceFrom m f2 s.
Proof.
  intro Hm. induction f1 as [ | f1 IH]; intros f2 s H1 H2.
  - destruct s; [ | simpl in H1; lia]. destruct f2; reflexivity.
  - destruct f2 as [ | f2].
    + destruct s; [reflexivity | simpl in H2; lia].
    + simpl. destruct s as [ | c r]; [reflexivity | ].
      destruct (m (c :: r)) as [[rep rest] | ] eqn:E.
      * pose proof (Hm _ _ _ E) as Hl. simpl in *.
        f_equal. apply IH; lia.
      * simpl in *. f_equal. apply IH; lia.
Qed.

Lemma replaceAll_nil (m : str -> option (str * str)) : replaceAll m [] = [].
Proof. reflexivity. Qed.

Lemma replaceAll_cons (m : str -> option (str * str)) (c : cu) (r : str) :
  shrinking m ->
  replaceAll m (c :: r) =
  match m (c :: r) with
  | Some (rep, rest) => rep ++ replaceAll m rest
  | None => c :: replaceAll m r
  end.
Proof.
  intro Hm. unfold replaceAll. simpl.
  destruct (m (c :: r)) as [[rep rest] | ] eqn:E.
  - pose proof (Hm _ _ _ E) as Hl. simpl in Hl.
    f_equal. apply replaceFrom_fuel; [exact Hm | lia | lia].
  - reflexivity.
Qed.

Lemma squash_app (a b : str) : squash (a ++ b) = squash a ++ squash b.
Proof. apply filter_app. Qed.

Lemma squash_spaces (w : str) : spaces w -> squash w = [].
Proof.
  induction 1 as [ | c w Hc _ IH]; simpl; [reflexivity | ].
  rewrite Hc. simpl. exact IH.
Qed.

Lemma squash_solid (c : cu) (s : str) :
  isSpace c = false -> squash (c :: s) = c :: squash s.
Proof. intro H. simpl. rewrite H. reflexivity. Qed.

Lemma squash_space (c : cu) (s : str) :
  isSpace c = true -> squash (c :: s) = squash s.
Proof. intro H. simpl. rewrite H. reflexivity. Qed.

Lemma squash_trimStart (s : str) : squash (trimStart s) = squash s.
Proof.
  induction s as [ | c r IH]; simpl; [reflexivity | ].
  destruct (isSpace c) eqn:E; simpl; [exact IH | rewrite E; reflexivity].
Qed.

Lemma squash_cons_inv (s : str) (c : cu) (x : str) :
  squash s = c :: x -> exists r, trimStart s = c :: r /\ squash r = x.
Proof.
  induction s as [ | d r IH]; simpl; [discriminate | ].
  destruct (isSpace d) eqn:E; simpl.
  - exact IH.
  - intro H. inversion H; subst. exists r; split; reflexivity.
Qed.

Lemma trimStart_cons_squash (s : str) (c : cu) (r : str) :
  trimStart s = c :: r -> squash s = c :: squash r.
Proof.
  intro H. rewrite <- squash_trimStart, H.
  apply squash_solid. exact (trimStart_head _ _ _ H).
Qed.

Lemma squash_nil_trimStart (s : str) : squash s = [] -> trimStart s = [].
Proof.
  induction s as [ | d r IH]; simpl; [reflexivity | ].
  destruct (isSpace d) eqn:E; simpl; [exact IH | discriminate].
Qed.

(** ** One iteration of the letter list *)

Lemma sepLetter_Some (s v : str) :
  sepLetter s = Some v ->
  exists w1 c w2 l,
    s = w1 ++ c :: w2 ++ l :: v
    /\ spaces w1 /\ isSep c = true /\ spaces w2 /\ isADi l = true.
Proof.
  unfold sepLetter. intro H.
  destruct (trimStart s) as [ | c r] eqn:E1; [discriminate | ].
  destruct (isSep c) eqn:Ec; [ | discriminate].
  destruct (trimStart r) as [ | l v'] eqn:E2; [discriminate | ].
  destruct (isADi l) eqn:El; [ | discriminate].
  inversion H; subst v'.
  exists (takeSpaces s), c, (takeSpaces r), l.
  splits;
    [ | apply takeSpaces_all | exact Ec | apply takeSpaces_all | exact El].
  rewrite <- E2, <- split_spaces, <- E1. apply split_spaces.
Qed.

Lemma sepLetter_build (w1 w2 v : str) (c l : cu) :
  spaces w1 -> isSep c = true -> spaces w2 -> isADi l = true ->
  sepLetter (w1 ++ c :: w2 ++ l :: v) = Some v.
Proof.
  intros H1 Hc H2 Hl. unfold sepLetter.
  rewrite (trimStart_app_spaces _ _ H1).
  rewrite (trimStart_solid c _ (isSep_solid c Hc)), Hc.
  rewrite (trimStart_app_spaces _ _ H2).
  rewrite (trimStart_solid l _ (isADi_solid l Hl)), Hl. reflexivity.
Qed.


Lemma sepLetter_OK (s : str) :
  sepLetterOK s = match sepLetter s with Some _ => true | None => false end.
Proof.
  unfold sepLetterOK, sepLetter.
  destruct (trimStart s) as [ | c r] eqn:E1.
  - rewrite <- squash_trimStart, E1. reflexivity.
  - rewrite (trimStart_cons_squash _ _ _ E1).
    destruct (trimStart r) as [ | l v] eqn:E2.
    + rewrite <- squash_trimStart, E2. simpl. destruct (isSep c); reflexivity.
    + rewrite (trimStart_cons_squash _ _ _ E2).
      destruct (isSep c); simpl; [ | reflexivity].
      destruct (isADi l); reflexivity.
Qed.

Lemma sepLetter_shorter (s v : str) :
  sepLetter s = Some v -> length v < length s.
Proof.
  intro H. destruct (sepLetter_Some _ _ H) as [w1 [c [w2 [l [-> _]]]]].
  rewrite length_app. simpl. rewrite length_app. simpl. lia.
Qed.

Lemma lettersTailFrom_fuel (f1 f2 : nat) (s : str) :
  length s <= f1 -> length s <= f2 ->
  lettersTailFrom f1 s = lettersTailFrom f2 s.
Proof.
  revert f2 s. induction f1 as [ | f1 IH]; intros f2 s H1 H2.
  - destruct s; [ | simpl in H1; lia].
    destruct f2; reflexivity.
  - destruct f2 as [ | f2].
    + destruct s; [reflexivity | simpl in H2; lia].
    + simpl. destruct (sepLetter s) as [v | ] eqn:E; [ | reflexivity].
      pose proof (sepLetter_shorter _ _ E). apply IH; lia.
Qed.

Lemma lettersTail_unfold (s : str) :
  lettersTail s =
  match sepLetter s with
  | Some v => lettersTail v
  | None => s
  end.
Proof.
  unfold lettersTail. destruct s as [ | c r].
  - reflexivity.
  - simpl length. cbn [lettersTailFrom].
    destruct (sepLetter (c :: r)) as [v | ] eqn:E; [ | reflexivity].
    pose proof (sepLetter_shorter _ _ E) as Hl. simpl in Hl.
    apply lettersTailFrom_fuel; lia.
Qed.


Lemma lettersTail_spec (s : str) :
  exists t, iters t /\ s = t ++ lettersTail s /\ sepLetter (lettersTail s) = None.
Proof.
  remember (length s) as n eqn:Hn. revert s Hn.
  induction n as [n IH] using lt_wf_ind. intros s Hn.
  rewrite lettersTail_unfold.
  destruct (sepLetter s) as [v | ] eqn:E.
  - pose proof (sepLetter_shorter _ _ E) as Hl.
    destruct (IH (length v) ltac:(lia) v eq_refl) as [t [Ht [Hv Hnone]]].
    destruct (sepLetter_Some _ _ E) as [w1 [c [w2 [l [Hs [H1 [Hc [H2 Hl']]]]]]]].
    exists (w1 ++ c :: w2 ++ l :: t).
    splits; [constructor; assumption | | exact Hnone].
    rewrite Hs. rewrite Hv at 1.
    rewrite <- app_assoc. simpl. rewrite <- app_assoc. reflexivity.
  - exists []. splits; [constructor | reflexivity | exact E].
Qed.

Lemma lettersTail_build (t v : str) :
  iters t -> sepLetter v = None -> lettersTail (t ++ v) = v.
Proof.
  intros Ht Hv. induction Ht as [ | w1 w2 t c l H1 Hc H2 Hl Ht IH].
  - simpl. rewrite lettersTail_unfold, Hv. reflexivity.
  - rewrite lettersTail_unfold.
    rewrite <- app_assoc. simpl. rewrite <- app_assoc. simpl.
    rewrite (sepLetter_build w1 w2 (t ++ v) c l H1 Hc H2 Hl). exact IH.
Qed.

(** ** The keyword *)



Lemma upcase_eq (c a : cu) :
  (upcase c =? a)%N = true -> c = a \/ c = (a + 32)%N.
Proof.
  unfold upcase. intro H.
  destruct ((97 <=? c) && (c <=? 122))%N eqn:E; bool_hyps; [right | left]; lia.
Qed.

Lemma keyword_Some (s r : str) :
  keyword s = Some r -> exists k, s = k ++ r /\ isKeyword k.
Proof.
  unfold keyword, kwJeongdap, kwDap, kwAnswer. intro H.
  destruct s as [ | c1 s]; [discriminate | ].
  cbn [litPrefix] in H.
  change (upcase 51221%N) with 51221%N in H.
  change (upcase 45813%N) with 45813%N in H.
  change (upcase 65%N) with 65%N in H.
  destruct (upcase c1 =? 51221)%N eqn:E1.
  { destruct (upcase_eq _ _ E1) as [-> | ->]; [ | discriminate].
    destruct s as [ | c2 s]; [discriminate | ].
    destruct (upcase c2 =? 45813)%N eqn:E2; [ | discriminate].
    destruct (upcase_eq _ _ E2) as [-> | ->]; [ | discriminate].
    inversion H; subst r.
    exists [51221; 45813]%N. unfold isKeyword. splits;
      [reflexivity | discriminate | repeat constructor | reflexivity | ].
    intros x Hx. discriminate. }
  destruct (upcase c1 =? 45813)%N eqn:E2.
  { destruct (upcase_eq _ _ E2) as [-> | ->]; [ | discriminate].
    inversion H; subst r.
    exists [45813]%N. unfold isKeyword. splits;
      [reflexivity | discriminate | repeat constructor | reflexivity | ].
    intros x Hx. exists 45813%N; split; reflexivity. }
  destruct (upcase c1 =? 65)%N eqn:E3; [ | discriminate].
  destruct s as [ | c2 s]; [discriminate | ].
  change (upcase 110%N) with 78%N in H.
  destruct (upcase c2 =? 78)%N eqn:E4; [ | discriminate].
  destruct s as [ | c3 s]; [discriminate | ].
  change (upcase 115%N) with 83%N in H.
  destruct (upcase c3 =? 83)%N eqn:E5; [ | discriminate].
  destruct s as [ | c4 s]; [discriminate | ].
  change (upcase 119%N) with 87%N in H.
  destruct (upcase c4 =? 87)%N eqn:E6; [ | discriminate].
  destruct s as [ | c5 s]; [discriminate | ].
  change (upcase 101%N) with 69%N in H.
  destruct (upcase c5 =? 69)%N eqn:E7; [ | discriminate].
  destruct s as [ | c6 s]; [discriminate | ].
  change (upcase 114%N) with 82%N in H.
  destruct (upcase c6 =? 82)%N eqn:E8; [ | discriminate].
  inversion H; subst r.
  exists [c1; c2; c3; c4; c5; c6].
  unfold isKeyword. splits; [reflexivity | discriminate | | | ].
  - destruct (upcase_eq _ _ E3) as [-> | ->];
      destruct (upcase_eq _ _ E4) as [-> | ->];
      destruct (upcase_eq _ _ E5) as [-> | ->];
      destruct (upcase_eq _ _ E6) as [-> | ->];
      destruct (upcase_eq _ _ E7) as [-> | ->];
      destruct (upcase_eq _ _ E8) as [-> | ->];
      repeat constructor.
  - intro x. unfold keyword, kwJeongdap, kwDap, kwAnswer.
    cbn [litPrefix app].
    change (upcase 51221%N) with 51221%N.
    change (upcase 45813%N) with 45813%N.
    change (upcase 65%N) with 65%N.
    change (upcase 110%N) with 78%N.
    change (upcase 115%N) with 83%N.
    change (upcase 119%N) with 87%N.
    change (upcase 101%N) with 69%N.
    change (upcase 114%N) with 82%N.
    rewrite E1, E2, E3, E4, E5, E6, E7, E8. reflexivity.
  - intros x Hx. cbn [app optionHead] in Hx.
    apply andb_prop in Hx. destruct Hx as [_ Hm].
    destruct (upcase_eq _ _ E4) as [-> | ->]; discriminate.
Qed.

Lemma isKeyword_head (k : str) :
  isKeyword k -> exists c k', k = c :: k' /\ isSpace c = false.
Proof.
  intros [Hne [Hs _]]. destruct k as [ | c k']; [congruence | ].
  exists c, k'. split; [reflexivity | ]. inversion Hs; assumption.
Qed.

Lemma keyword_not_mark (q : cu) (r : str) :
  isMark q = true -> keyword (q :: r) = None.
Proof.
  intro H. unfold isMark in H. bool_hyps; subst; reflexivity.
Qed.

Lemma keyword_not_space (c : cu) (r : str) :
  isSpace c = true -> keyword (c :: r) = None.
Proof.
  intro H. destruct (keyword (c :: r)) as [u | ] eqn:E; [ | reflexivity].
  destruct (keyword_Some _ _ E) as [k [Hk Hkw]].
  destruct (isKeyword_head _ Hkw) as [d [k' [-> Hd]]].
  inversion Hk; subst. congruence.
Qed.

(** ** The answer tag *)


Lemma answerTag_spec (s v : str) :
  answerTag s = Some v ->
  exists K, s = K ++ v /\ tagText K /\ sepLetter v = None.
Proof.
  unfold answerTag. intro H.
  destruct (keyword s) as [r1 | ] eqn:Ek; [ | discriminate].
  destruct (trimStart r1) as [ | c r2] eqn:E1; [discriminate | ].
  destruct (isColon c) eqn:Ec; [ | discriminate].
  destruct (trimStart r2) as [ | l r3] eqn:E2; [discriminate | ].
  destruct (isADi l) eqn:El; [ | discriminate].
  inversion H as [Hv]. clear H.
  destruct (keyword_Some _ _ Ek) as [k [Hs Hk]].
  destruct (lettersTail_spec r3) as [t [Ht [Hr3 Hnone]]].
  exists (k ++ takeSpaces r1 ++ c :: takeSpaces r2 ++ l :: t).
  splits; [ | | exact Hnone].
  - rewrite Hs at 1. rewrite (split_spaces r1) at 1. rewrite E1.
    rewrite (split_spaces r2) at 1. rewrite E2. rewrite Hr3 at 1.
    repeat (rewrite <- app_assoc; simpl). reflexivity.
  - exists k, (takeSpaces r1), c, (takeSpaces r2), l, t.
    splits;
      [reflexivity | exact Hk | apply takeSpaces_all | exact Ec
       | apply takeSpaces_all | exact El | exact Ht].
Qed.

Lemma answerTag_build (K v : str) :
  tagText K -> sepLetter v = None -> answerTag (K ++ v) = Some v.
Proof.
  intros [k [w1 [c [w2 [l [t [-> [Hk [H1 [Hc [H2 [Hl Ht]]]]]]]]]]]] Hv.
  unfold answerTag.
  destruct Hk as [_ [_ [Hk _]]].
  rewrite <- app_assoc. rewrite Hk.
  rewrite <- app_assoc. rewrite (trimStart_app_spaces _ _ H1).
  cbn [app]. rewrite (trimStart_solid c _ (isColon_solid c Hc)), Hc.
  rewrite <- app_assoc. rewrite (trimStart_app_spaces _ _ H2).
  cbn [app]. rewrite (trimStart_solid l _ (isADi_solid l Hl)), Hl.
  rewrite (lettersTail_build t v Ht Hv). reflexivity.
Qed.

Lemma tagText_head (K : str) :
  tagText K -> exists c d K', K = c :: d :: K' /\ isSpace c = false.
Proof.
  intros [k [w1 [c [w2 [l [t [-> [Hk _]]]]]]]].
  destruct (isKeyword_head _ Hk) as [a [k' [-> Ha]]].
  destruct k' as [ | b k'']; simpl.
  - destruct w1 as [ | b w1']; simpl; eexists _, _, _; split; try reflexivity; exact Ha.
  - eexists _, _, _; split; [reflexivity | exact Ha].
Qed.

Lemma tagText_not_option (K x : str) :
  tagText K -> optionHead (K ++ x) = false.
Proof.
  intros [k [w1 [c [w2 [l [t [-> [Hk [H1 [Hc _]]]]]]]]]].
  destruct (optionHead _) eqn:E; [ | reflexivity]. exfalso.
  rewrite <- app_assoc in E.
  destruct Hk as [_ [_ [_ Hk]]].
  destruct (Hk _ E) as [d [-> Hd]].
  cbn [app] in E.
  destruct w1 as [ | b w1']; cbn [app optionHead] in E;
    apply andb_prop in E; destruct E as [Ea _]; congruence.
Qed.

Lemma consumed_app (K v : str) : consumed (K ++ v) v = K.
Proof.
  unfold consumed. rewrite length_app.
  replace (length K + length v - length v) with (length K) by lia.
  rewrite firstn_app, firstn_all. 
  replace (length K - length K) with 0 by lia. simpl. apply app_nil_r.
Qed.


Lemma answerTag_ok (s : str) :
  match answerTag s with Some _ => true | None => false end =
  match keyword s with Some u => colonLetterOK u | None => false end.
Proof.
  unfold answerTag, colonLetterOK.
  destruct (keyword s) as [r1 | ]; [ | reflexivity].
  destruct (trimStart r1) as [ | c r2] eqn:E1.
  - rewrite <- squash_trimStart, E1. reflexivity.
  - rewrite (trimStart_cons_squash _ _ _ E1).
    destruct (trimStart r2) as [ | l r3] eqn:E2.
    + rewrite <- squash_trimStart, E2. simpl. destruct (isColon c); reflexivity.
    + rewrite (trimStart_cons_squash _ _ _ E2).
      destruct (isColon c); simpl; [ | reflexivity].
      destruct (isADi l); reflexivity.
Qed.

(** ** The three patterns of the normalizer *)


Lemma optionBreak_inv (c : cu) (r rep rest : str) :
  optionBreak (c :: r) = Some (rep, rest) ->
  (c =? LF)%N = false
  /\ exists l q r',
      trimStart r = l :: q :: r' /\ isAD l = true /\ isMark q = true
      /\ rep = c :: LF :: l :: q :: takeSpaces r' /\ rest = trimStart r'.
Proof.
  unfold optionBreak. destruct (c =? LF)%N; [discriminate | ].
  destruct (trimStart r) as [ | l [ | q r']]; try discriminate.
  destruct (isAD l && isMark q) eqn:E; [ | discriminate].
  apply andb_prop in E. destruct E as [El Eq].
  intro H; inversion H; subst. split; [reflexivity | ].
  exists l, q, r'. splits; reflexivity || assumption.
Qed.

Lemma optionBreak_some (c l q : cu) (r r' : str) :
  (c =? LF)%N = false -> trimStart r = l :: q :: r' ->
  isAD l = true -> isMark q = true ->
  optionBreak (c :: r) = Some (c :: LF :: l :: q :: takeSpaces r', trimStart r').
Proof.
  intros Hc Hr Hl Hq. unfold optionBreak. rewrite Hc, Hr, Hl, Hq. reflexivity.
Qed.

Lemma optionBreak_none (c : cu) (r : str) :
  optionHead (trimStart r) = false -> optionBreak (c :: r) = None.
Proof.
  unfold optionBreak, optionHead. intro H.
  destruct (c =? LF)%N; [reflexivity | ].
  destruct (trimStart r) as [ | l [ | q r']]; try reflexivity.
  rewrite H. reflexivity.
Qed.

Lemma optionBreak_LF (r : str) : optionBreak (LF :: r) = None.
Proof. reflexivity. Qed.

Lemma optionBreak_None_inv (c : cu) (r : str) :
  optionBreak (c :: r) = None ->
  (c =? LF)%N = true \/ optionHead (trimStart r) = false.
Proof.
  unfold optionBreak, optionHead.
  destruct (c =? LF)%N; [left; reflexivity | right].
  destruct (trimStart r) as [ | l [ | q r']]; try reflexivity.
  destruct (isAD l && isMark q); [discriminate | reflexivity].
Qed.

Lemma optionBreak_shrinking : shrinking optionBreak.
Proof.
  intros s rep rest H. destruct s as [ | c r]; [discriminate | ].
  destruct (optionBreak_inv _ _ _ _ H) as [_ [l [q [r' [Hr [_ [_ [_ ->]]]]]]]].
  pose proof (trimStart_length r) as H1. rewrite Hr in H1.
  pose proof (trimStart_length r') as H2. simpl in *. lia.
Qed.

Lemma dropLF_length (s : str) : length (dropLF s) <= length s.
Proof.
  induction s as [ | c r IH]; simpl; [lia | ].
  destruct (c =? LF)%N; simpl; lia.
Qed.

Lemma blankRun_inv (s rep rest : str) :
  blankRun s = Some (rep, rest) ->
  exists r, s = LF :: LF :: LF :: r /\ rep = [LF; LF] /\ rest = dropLF r.
Proof.
  unfold blankRun. destruct s as [ | a [ | b [ | c r]]]; try discriminate.
  destruct (N.eqb_spec a LF) as [-> | ]; [ | discriminate].
  destruct (N.eqb_spec b LF) as [-> | ]; [ | discriminate].
  destruct (N.eqb_spec c LF) as [-> | ]; [ | discriminate].
  simpl. intro H; inversion H; subst.
  exists r. splits; reflexivity.
Qed.

Lemma blankRun_shrinking : shrinking blankRun.
Proof.
  intros s rep rest H.
  destruct (blankRun_inv _ _ _ H) as [r [-> [_ ->]]].
  pose proof (dropLF_length r). simpl. lia.
Qed.

Lemma blankRun_solid (c : cu) (r : str) :
  (c =? LF)%N = false -> blankRun (c :: r) = None.
Proof.
  intro H. unfold blankRun. destruct r as [ | b [ | d r]]; try reflexivity.
  rewrite H. reflexivity.
Qed.

Lemma answerBreak_inv (c : cu) (r rep rest : str) :
  answerBreak (c :: r) = Some (rep, rest) ->
  (c =? LF)%N = false
  /\ answerTag (trimStart r) = Some rest
  /\ rep = c :: LF :: consumed (trimStart r) rest.
Proof.
  unfold answerBreak. destruct (c =? LF)%N; [discriminate | ].
  destruct (answerTag (trimStart r)) as [v | ]; [ | discriminate].
  intro H; inversion H; subst. splits; reflexivity.
Qed.

Lemma answerBreak_LF (r : str) : answerBreak (LF :: r) = None.
Proof. reflexivity. Qed.

Lemma answerBreak_none (c : cu) (r : str) :
  answerTag (trimStart r) = None -> answerBreak (c :: r) = None.
Proof.
  unfold answerBreak. intro H. rewrite H.
  destruct (c =? LF)%N; reflexivity.
Qed.

Lemma answerBreak_some (c : cu) (r v : str) :
  (c =? LF)%N = false -> answerTag (trimStart r) = Some v ->
  answerBreak (c :: r) = Some (c :: LF :: consumed (trimStart r) v, v).
Proof.
  unfold answerBreak. intros Hc Hv. rewrite Hc, Hv. reflexivity.
Qed.

Lemma answerBreak_None_inv (c : cu) (r : str) :
  answerBreak (c :: r) = None ->
  (c =? LF)%N = true \/ answerTag (trimStart r) = None.
Proof.
  unfold answerBreak. destruct (c =? LF)%N; [left; reflexivity | right].
  destruct (answerTag (trimStart r)); [discriminate | reflexivity].
Qed.

Lemma answerTag_shorter (s v : str) :
  answerTag s = Some v -> length v < length s.
Proof.
  intro H. destruct (answerTag_spec _ _ H) as [K [-> [HK _]]].
  destruct (tagText_head _ HK) as [c [d [K' [-> _]]]].
  simpl. rewrite length_app. lia.
Qed.

Lemma answerBreak_shrinking : shrinking answerBreak.
Proof.
  intros s rep rest H. destruct s as [ | c r]; [discriminate | ].
  destruct (answerBreak_inv _ _ _ _ H) as [_ [Hv _]].
  pose proof (answerTag_shorter _ _ Hv).
  pose proof (trimStart_length r). simpl. lia.
Qed.

(** The step equations of the three replacements. *)

Lemma breakOptions_skip (c : cu) (r : str) :
  optionBreak (c :: r) = None ->
  breakOptions (c :: r) = c :: breakOptions r.
Proof.
  intro H. rewrite (replaceAll_cons _ _ _ optionBreak_shrinking), H. reflexivity.
Qed.

Lemma breakOptions_hit (c l q : cu) (r r' : str) :
  (c =? LF)%N = false -> trimStart r = l :: q :: r' ->
  isAD l = true -> isMark q = true ->
  breakOptions (c :: r)
  = c :: LF :: l :: q :: takeSpaces r' ++ breakOptions (trimStart r').
Proof.
  intros Hc Hr Hl Hq.
  rewrite (replaceAll_cons _ _ _ optionBreak_shrinking).
  rewrite (optionBreak_some c l q r r' Hc Hr Hl Hq). reflexivity.
Qed.

Lemma squeezeBlank_skip (c : cu) (r : str) :
  blankRun (c :: r) = None ->
  squeezeBlank (c :: r) = c :: squeezeBlank r.
Proof.
  intro H. rewrite (replaceAll_cons _ _ _ blankRun_shrinking), H. reflexivity.
Qed.

Lemma squeezeBlank_hit (r : str) :
  squeezeBlank (LF :: LF :: LF :: r) = LF :: LF :: squeezeBlank (dropLF r).
Proof.
  rewrite (replaceAll_cons _ _ _ blankRun_shrinking). reflexivity.
Qed.

Lemma breakAnswers_skip (c : cu) (r : str) :
  answerBreak (c :: r) = None ->
  breakAnswers (c :: r) = c :: breakAnswers r.
Proof.
  intro H. rewrite (replaceAll_cons _ _ _ answerBreak_shrinking), H. reflexivity.
Qed.

Lemma breakAnswers_hit (c : cu) (r K v : str) :
  (c =? LF)%N = false -> trimStart r = K ++ v -> answerTag (K ++ v) = Some v ->
  breakAnswers (c :: r) = c :: LF :: K ++ breakAnswers v.
Proof.
  intros Hc Hr Hv.
  rewrite (replaceAll_cons _ _ _ answerBreak_shrinking).
  rewrite <- Hr in Hv.
  rewrite (answerBreak_some c r v Hc Hv), Hr, consumed_app.
  reflexivity.
Qed.

(** Each replacement leaves the first code unit in place. *)

Lemma breakOptions_head (c : cu) (r : str) :
  exists z, breakOptions (c :: r) = c :: z.
Proof.
  rewrite (replaceAll_cons _ _ _ optionBreak_shrinking).
  destruct (optionBreak (c :: r)) as [[rep rest] | ] eqn:E.
  - destruct (optionBreak_inv _ _ _ _ E) as [_ [l [q [r' [_ [_ [_ [-> _]]]]]]]].
    eexists; reflexivity.
  - eexists; reflexivity.
Qed.

Lemma squeezeBlank_head (c : cu) (r : str) :
  exists z, squeezeBlank (c :: r) = c :: z.
Proof.
  rewrite (replaceAll_cons _ _ _ blankRun_shrinking).
  destruct (blankRun (c :: r)) as [[rep rest] | ] eqn:E.
  - destruct (blankRun_inv _ _ _ E) as [r0 [H0 [-> _]]].
    inversion H0; subst. eexists; reflexivity.
  - eexists; reflexivity.
Qed.

Lemma breakAnswers_head (c : cu) (r : str) :
  exists z, breakAnswers (c :: r) = c :: z.
Proof.
  rewrite (replaceAll_cons _ _ _ answerBreak_shrinking).
  destruct (answerBreak (c :: r)) as [[rep rest] | ] eqn:E.
  - destruct (answerBreak_inv _ _ _ _ E) as [_ [_ ->]].
    eexists; reflexivity.
  - eexists; reflexivity.
Qed.

Lemma breakOptions_headSolid (s : str) : headSolid s -> headSolid (breakOptions s).
Proof.
  destruct s as [ | c r]; [intros _; exact I | ].
  destruct (breakOptions_head c r) as [z ->]. exact (fun H => H).
Qed.

Lemma squeezeBlank_headSolid (s : str) : headSolid s -> headSolid (squeezeBlank s).
Proof.
  destruct s as [ | c r]; [intros _; exact I | ].
  destruct (squeezeBlank_head c r) as [z ->]. exact (fun H => H).
Qed.

Lemma breakAnswers_headSolid (s : str) : headSolid s -> headSolid (breakAnswers s).
Proof.
  destruct s as [ | c r]; [intros _; exact I | ].
  destruct (breakAnswers_head c r) as [z ->]. exact (fun H => H).
Qed.

(** ** The patterns of the normalizer and of the inline answer, as the
    matcher runs them *)

Lemma dropClass_LF (s : str) : dropClass isLF s = dropLF s.
Proof.
  induction s as [ | x s IH]; [reflexivity | ].
  cbn [dropClass dropLF]. unfold isLF at 1. rewrite IH. reflexivity.
Qed.

Lemma space_not_class (p : cu -> bool) (x : cu) :
  (forall y, p y = true -> isSpace y = false) -> isSpace x = true -> p x = false.
Proof.
  intros Hp Hx. destruct (p x) eqn:E; [ | reflexivity].
  rewrite (Hp x E) in Hx. discriminate.
Qed.

(** Proof of the side condition of [matches_ws] for a continuation that
    fails on a string with a space at its head. *)
Ltac ws_side tac :=
  let s0 := fresh "s" in let c0 := fresh "c" in
  let x := fresh "x" in let Ex := fresh "Ex" in
  intros s0 c0; destruct s0 as [ | x s0]; [exact (fun H => H) | ];
  cbn [trimStart]; destruct (isSpace x) eqn:Ex; [intros _ | exact (fun H => H)];
  msteps; tac x Ex.

Lemma consumed_head (x : cu) (s : str) : consumed (x :: s) s = [x].
Proof.
  unfold consumed. cbn [length].
  replace (S (length s) - length s) with 1 by lia. reflexivity.
Qed.

Lemma consumed_trimStart (s : str) : consumed s (trimStart s) = takeSpaces s.
Proof. rewrite (split_spaces s) at 1. apply consumed_app. Qed.

Lemma consumed_cons2 (l q : cu) (r : str) :
  consumed (l :: q :: r) (trimStart r) = l :: q :: takeSpaces r.
Proof.
  rewrite (split_spaces r) at 1.
  change (l :: q :: takeSpaces r ++ trimStart r)
    with ((l :: q :: takeSpaces r) ++ trimStart r).
  apply consumed_app.
Qed.

Lemma squeeze_reBlankRun (s : str) : squeeze reBlankRun s = blankRun s.
Proof.
  unfold squeeze, matchHead, reBlankRun, blankRun.
  destruct s as [ | a [ | b [ | c r]]]; msteps.
  - reflexivity.
  - destruct (isLF a); msteps; reflexivity.
  - destruct (isLF a); [ | reflexivity]. msteps.
    destruct (isLF b); msteps; reflexivity.
  - change (a =? LF)%N with (isLF a). change (b =? LF)%N with (isLF b).
    change (c =? LF)%N with (isLF c).
    destruct (isLF a); [ | reflexivity]. msteps.
    destruct (isLF b); [ | reflexivity]. msteps.
    destruct (isLF c); [ | reflexivity].
    cbn [andb].
    rewrite matches_star_class; [ | discriminate].
    rewrite dropClass_LF. reflexivity.
Qed.

Lemma breakBefore_reOptionBreak (s : str) :
  breakBefore reOptionBreak s = optionBreak s.
Proof.
  unfold breakBefore, matchHead, reOptionBreak, optionBreak.
  destruct s as [ | c r]; [reflexivity | ].
  msteps. unfold notLF.
  destruct (c =? LF)%N; [reflexivity | ]. cbn [negb].
  rewrite matches_ws.
  - msteps. destruct (trimStart r) as [ | l [ | q r']] eqn:E; msteps.
    + reflexivity.
    + destruct (isAD l); msteps; reflexivity.
    + destruct (isAD l); [ | reflexivity]. msteps.
      destruct (isMark q); [ | reflexivity]. cbn [andb].
      rewrite matches_ws; [ | discriminate].
      cbn [group Nat.eqb]. rewrite consumed_head, consumed_cons2. reflexivity.
  - ws_side ltac:(fun x Ex =>
      rewrite (space_not_class isAD x isAD_solid Ex); reflexivity).
Qed.

Lemma matches_word {R : Type} (w : str) :
  forall (a : cu) (s : str) (c : caps) (k : str -> caps -> option R),
  matches (word a w) s c k
  = match litPrefix (a :: w) s with Some r => k r c | None => None end.
Proof.
  induction w as [ | b w IH]; intros a s c k; cbn [word].
  - destruct s as [ | x s]; msteps; [reflexivity | ].
    cbn [litPrefix]. destruct (upcase x =? upcase a)%N; reflexivity.
  - msteps. destruct s as [ | x s]; msteps; [reflexivity | ].
    cbn [litPrefix]. destruct (upcase x =? upcase a)%N; [ | reflexivity].
    rewrite IH. reflexivity.
Qed.

Lemma litPrefix_other (a b : cu) (w w' s r : str) :
  litPrefix (a :: w) s = Some r -> upcase a <> upcase b ->
  litPrefix (b :: w') s = None.
Proof.
  destruct s as [ | x s]; [discriminate | ]. cbn [litPrefix].
  destruct (N.eqb_spec (upcase x) (upcase a)) as [E | ]; [ | discriminate].
  intros _ Hab. destruct (N.eqb_spec (upcase x) (upcase b)) as [E' | ];
    [congruence | reflexivity].
Qed.

Lemma matches_reKeyword {R : Type} (s : str) (c : caps)
  (k : str -> caps -> option R) :
  matches reKeyword s c k
  = match keyword s with Some r => k r c | None => None end.
Proof.
  unfold reKeyword. rewrite !m_alt, !matches_word.
  unfold keyword, kwJeongdap, kwDap, kwAnswer, cu.
  pose proof (litPrefix_other 51221%N 45813%N [45813%N] [] s) as H12.
  pose proof (litPrefix_other 51221%N 65%N [45813%N]
                [110; 115; 119; 101; 114]%N s) as H13.
  pose proof (litPrefix_other 45813%N 65%N []
                [110; 115; 119; 101; 114]%N s) as H23.
  unfold cu in H12, H13, H23.
  destruct (litPrefix [51221; 45813]%N s) as [r1 | ].
  - rewrite (H12 r1 eq_refl) by discriminate.
    rewrite (H13 r1 eq_refl) by discriminate.
    destruct (k r1 c); reflexivity.
  - destruct (litPrefix [45813%N] s) as [r2 | ].
    + rewrite (H23 r2 eq_refl) by discriminate.
      destruct (k r2 c); reflexivity.
    + reflexivity.
Qed.

Lemma matches_reIter {R : Type} (s : str) (c : caps)
  (k : str -> caps -> option R) :
  matches reIter s c k
  = match sepLetter s with Some v => k v c | None => None end.
Proof.
  unfold reIter, sepLetter. rewrite m_cat, matches_ws.
  - msteps. destruct (trimStart s) as [ | x r]; msteps; [reflexivity | ].
    destruct (isSep x); [ | reflexivity].
    rewrite matches_ws.
    + destruct (trimStart r) as [ | l v]; msteps; [reflexivity | ].
      destruct (isADi l); reflexivity.
    + ws_side ltac:(fun x Ex =>
        rewrite (space_not_class isADi x isADi_solid Ex); reflexivity).
  - ws_side ltac:(fun x Ex =>
      rewrite (space_not_class isSep x isSep_solid Ex); reflexivity).
Qed.

(** The greedy star over the iterations: where it stops, the rest is tried;
    [k] fails there only if it fails behind every shorter run. *)
Lemma starLoop_reIter {R : Type} (k : str -> caps -> option R) :
  (forall s c, k (lettersTail s) c = None -> k s c = None) ->
  forall fuel s c, length s <= fuel ->
  starLoop (matches reIter) k fuel s c = k (lettersTail s) c.
Proof.
  intro Hk. induction fuel as [ | f IH]; intros s c Hf.
  - destruct s; [reflexivity | simpl in Hf; lia].
  - cbn [starLoop]. rewrite matches_reIter, (lettersTail_unfold s).
    destruct (sepLetter s) as [v | ] eqn:E.
    + pose proof (sepLetter_shorter _ _ E) as Hl.
      apply Nat.ltb_lt in Hl. rewrite Hl. apply Nat.ltb_lt in Hl.
      rewrite IH by lia.
      destruct (k (lettersTail v) c) as [y | ] eqn:Ek; [reflexivity | ].
      apply Hk. rewrite lettersTail_unfold, E. exact Ek.
    + destruct (k s c); reflexivity.
Qed.

Lemma matches_reLetters {R : Type} (s : str) (c : caps)
  (k : str -> caps -> option R) :
  (forall s c, k (lettersTail s) c = None -> k s c = None) ->
  matches reLetters s c k
  = match s with
    | l :: r => if isADi l then k (lettersTail r) c else None
    | [] => None
    end.
Proof.
  intro Hk. unfold reLetters. rewrite m_cat.
  destruct s as [ | l r]; msteps; [reflexivity | ].
  destruct (isADi l); [ | reflexivity].
  change (matches (Star reIter) r c k)
    with (starLoop (matches reIter) k (length r) r c).
  apply starLoop_reIter; [exact Hk | lia].
Qed.

Lemma breakBefore_reAnswerBreak (s : str) :
  breakBefore reAnswerBreak s = answerBreak s.
Proof.
  unfold breakBefore, matchHead, reAnswerBreak, answerBreak.
  destruct s as [ | c r]; [reflexivity | ].
  msteps. unfold notLF.
  destruct (c =? LF)%N; [reflexivity | ]. cbn [negb].
  rewrite matches_ws.
  - msteps. rewrite matches_reKeyword. unfold answerTag.
    destruct (keyword (trimStart r)) as [r1 | ]; [ | reflexivity].
    msteps. rewrite matches_ws.
    + msteps. destruct (trimStart r1) as [ | x r2]; msteps; [reflexivity | ].
      destruct (isColon x); [ | reflexivity].
      msteps. rewrite matches_ws.
      * rewrite matches_reLetters by discriminate.
        destruct (trimStart r2) as [ | l r3]; [reflexivity | ].
        destruct (isADi l); [ | reflexivity].
        cbn [group Nat.eqb]. rewrite consumed_head. reflexivity.
      * intros s0 c0. rewrite !matches_reLetters by discriminate.
        destruct s0 as [ | y s0]; [exact (fun H => H) | ].
        cbn [trimStart]. destruct (isSpace y) eqn:Ey; [intros _ | exact (fun H => H)].
        rewrite (space_not_class isADi y isADi_solid Ey). reflexivity.
    + ws_side ltac:(fun x Ex =>
        rewrite (space_not_class isColon x isColon_solid Ex); reflexivity).
  - intros s0 c0. msteps. rewrite !matches_reKeyword.
    destruct s0 as [ | y s0]; [exact (fun H => H) | ].
    cbn [trimStart]. destruct (isSpace y) eqn:Ey; [intros _ | exact (fun H => H)].
    rewrite (keyword_not_space y s0 Ey). reflexivity.
Qed.

(** [\s*$] *)
Lemma matches_blank_end (s : str) (c : caps) :
  matches (Cat ws Eos) s c (fun s' c' => Some (c', s'))
  = if isEmpty (trimStart s) then Some (c, []) else None.
Proof.
  rewrite m_cat, matches_ws.
  - destruct (trimStart s); reflexivity.
  - intros s0 c0. destruct s0 as [ | x s0]; [exact (fun H => H) | ].
    intros _. reflexivity.
Qed.

Lemma lettersTail_blank (s : str) :
  isEmpty (trimStart s) = true -> lettersTail s = s.
Proof.
  intro H. rewrite lettersTail_unfold. unfold sepLetter.
  destruct (trimStart s); [reflexivity | discriminate].
Qed.

Lemma matches_lettersToEnd (s : str) (c : caps) :
  matches (Cat (Grp 1 reLetters) (Cat ws Eos)) s c (fun s' c' => Some (c', s'))
  = lettersToEnd s c.
Proof.
  rewrite m_cat, m_grp. rewrite matches_reLetters.
  - unfold lettersToEnd. destruct s as [ | l r]; [reflexivity | ].
    destruct (isADi l); [ | reflexivity].
    rewrite matches_blank_end. reflexivity.
  - intros s0 c0. rewrite !matches_blank_end.
    destruct (isEmpty (trimStart s0)) eqn:E; [ | reflexivity].
    rewrite (lettersTail_blank s0 E), E. exact (fun H => H).
Qed.

Lemma lettersToEnd_space (x : cu) (s : str) (c : caps) :
  isSpace x = true -> lettersToEnd (x :: s) c = None.
Proof.
  intro Hx. unfold lettersToEnd.
  rewrite (space_not_class isADi x isADi_solid Hx). reflexivity.
Qed.

Lemma lettersToEnd_colon (x : cu) (s : str) (c : caps) :
  isColon x = true -> lettersToEnd (x :: s) c = None.
Proof.
  intro Hx. unfold lettersToEnd.
  assert (E : isADi x = false).
  { unfold isColon in Hx. unfold isADi, isAD. bool_hyps; subst; reflexivity. }
  rewrite E. reflexivity.
Qed.

Lemma matches_ws_lettersToEnd (s : str) (c : caps) :
  matches (Cat ws (Cat (Grp 1 reLetters) (Cat ws Eos))) s c
    (fun s' c' => Some (c', s'))
  = lettersToEnd (trimStart s) c.
Proof.
  rewrite m_cat, matches_ws.
  - apply matches_lettersToEnd.
  - intros s0 c0. rewrite !matches_lettersToEnd.
    destruct s0 as [ | x s0]; [exact (fun H => H) | ].
    cbn [trimStart]. destruct (isSpace x) eqn:Ex; [intros _ | exact (fun H => H)].
    apply lettersToEnd_space. exact Ex.
Qed.

(** [[:：]?\s*], the letters, [\s*$]: the colon is taken if it is there. *)
Lemma matches_colon_letters (s : str) (c : caps) :
  matches (Cat (Opt (Chr isColon))
             (Cat ws (Cat (Grp 1 reLetters) (Cat ws Eos)))) s c
    (fun s' c' => Some (c', s'))
  = match s with
    | x :: r =>
        if isColon x then lettersToEnd (trimStart r) c
        else lettersToEnd (trimStart s) c
    | [] => None
    end.
Proof.
  rewrite m_cat, m_opt.
  destruct s as [ | x r].
  - rewrite m_chr_nil, matches_ws_lettersToEnd. reflexivity.
  - rewrite m_chr_cons, !matches_ws_lettersToEnd.
    destruct (isColon x) eqn:Ex; [ | reflexivity].
    destruct (lettersToEnd (trimStart r) c) as [y | ]; [reflexivity | ].
    rewrite (trimStart_solid x r (isColon_solid x Ex)).
    apply lettersToEnd_colon. exact Ex.
Qed.

Lemma matchHead_reInline (t : str) :
  matchHead reInline t
  = match keyword t with
    | None => None
    | Some r1 =>
        match trimStart r1 with
        | x :: r =>
            if isColon x then lettersToEnd (trimStart r) []
            else lettersToEnd (x :: r) []
        | [] => None
        end
    end.
Proof.
  unfold matchHead, reInline. rewrite m_cat, matches_reKeyword.
  destruct (keyword t) as [r1 | ]; [ | reflexivity].
  rewrite m_cat, matches_ws.
  - rewrite matches_colon_letters.
    destruct (trimStart r1) as [ | x r] eqn:E; [reflexivity | ].
    destruct (isColon x); [reflexivity | ].
    rewrite <- E, trimStart_idem. reflexivity.
  - intros s0 c0. rewrite !matches_colon_letters.
    destruct s0 as [ | x s0]; [exact (fun H => H) | ].
    cbn [trimStart]. destruct (isSpace x) eqn:Ex;
      [ | cbn [trimStart]; rewrite Ex; exact (fun H => H)].
    rewrite (space_not_class isColon x isColon_solid Ex).
    destruct (trimStart s0) as [ | y r] eqn:E; [reflexivity | ].
    destruct (isColon y) eqn:Ey.
    + intros _. apply lettersToEnd_colon. exact Ey.
    + rewrite <- E, trimStart_idem. exact (fun H => H).
Qed.

Lemma extractInlineAnswer_reading (s : str) :
  extractInlineAnswer s = inlineAnswer s.
Proof.
  unfold extractInlineAnswer, inlineAnswer. rewrite matchHead_reInline.
  destruct (keyword (trim s)) as [r1 | ]; [ | reflexivity].
  destruct (trimStart r1) as [ | x r]; [reflexivity | ].
  destruct (isColon x) eqn:Ex.
  - unfold lettersToEnd. destruct (trimStart r) as [ | l r4]; [reflexivity | ].
    destruct (isADi l); [ | reflexivity].
    destruct (isEmpty (trimStart (lettersTail r4))); reflexivity.
  - unfold lettersToEnd.
    destruct (isADi x); [ | reflexivity].
    destruct (isEmpty (trimStart (lettersTail r))); reflexivity.
Qed.

(** ** The normalizer, by the recognisers *)

Lemma replaceFrom_ext (m1 m2 : str -> option (str * str)) :
  (forall s, m1 s = m2 s) ->
  forall fuel s, replaceFrom m1 fuel s = replaceFrom m2 fuel s.
Proof.
  intro H. induction fuel as [ | f IH]; intro s; [reflexivity | ].
  cbn [replaceFrom]. destruct s as [ | c r]; [reflexivity | ].
  rewrite H. destruct (m2 (c :: r)) as [[rep rest] | ]; rewrite IH; reflexivity.
Qed.

Lemma replaceAll_ext (m1 m2 : str -> option (str * str)) (s : str) :
  (forall s, m1 s = m2 s) -> replaceAll m1 s = replaceAll m2 s.
Proof. intro H. apply replaceFrom_ext. exact H. Qed.

Lemma normalizeMcqText_reading (raw : str) :
  normalizeMcqText raw
  = replaceAll answerBreak
      (replaceAll blankRun
         (replaceAll optionBreak (replaceChar NBSP SP (removeAll CR raw)))).
Proof.
  unfold normalizeMcqText.
  rewrite (replaceAll_ext _ _ _ breakBefore_reAnswerBreak).
  rewrite (replaceAll_ext _ _ _ squeeze_reBlankRun).
  rewrite (replaceAll_ext _ _ _ breakBefore_reOptionBreak).
  reflexivity.
Qed.

(** ** Option breaks: the first replacement settles what it writes *)


Lemma optionHead_cons2 (l q : cu) (r : str) :
  optionHead (l :: q :: r) = isAD l && isMark q.
Proof. reflexivity. Qed.

Lemma breakOptions_spaces (w y : str) :
  spaces w -> optionHead (trimStart y) = false ->
  breakOptions (w ++ y) = w ++ breakOptions y.
Proof.
  intros Hw Hy. induction Hw as [ | c w Hc Hw IH]; [reflexivity | ].
  cbn [app]. rewrite breakOptions_skip.
  - rewrite IH. reflexivity.
  - apply optionBreak_none. rewrite (trimStart_app_spaces _ _ Hw). exact Hy.
Qed.

Lemma breakOptions_option (y : str) :
  optionHead (breakOptions y) = true -> optionHead y = true.
Proof.
  destruct y as [ | d y']; [intro H; exact H | ].
  rewrite (replaceAll_cons _ _ _ optionBreak_shrinking).
  destruct (optionBreak (d :: y')) as [[rep rest] | ] eqn:E.
  - destruct (optionBreak_inv _ _ _ _ E) as [_ [l [q [r' [_ [_ [_ [-> _]]]]]]]].
    cbn [app optionHead]. rewrite andb_false_r. discriminate.
  - destruct y' as [ | e y'']; [intro H; exact H | ].
    destruct (breakOptions_head e y'') as [z ->]. exact (fun H => H).
Qed.

Lemma breakOptions_trim_option (x : str) :
  optionHead (trimStart x) = false ->
  optionHead (trimStart (breakOptions x)) = false.
Proof.
  intro H.
  assert (H' : optionHead (trimStart (trimStart x)) = false)
    by (rewrite trimStart_idem; exact H).
  rewrite (split_spaces x) at 1.
  rewrite (breakOptions_spaces (takeSpaces x) (trimStart x) (takeSpaces_all x) H').
  rewrite (trimStart_app_spaces _ _ (takeSpaces_all x)).
  rewrite (trimStart_fix _ (breakOptions_headSolid _ (trimStart_headSolid x))).
  destruct (optionHead (breakOptions (trimStart x))) eqn:E; [ | reflexivity].
  rewrite (breakOptions_option _ E) in H. discriminate.
Qed.

Lemma breakOptions_idem (t : str) :
  breakOptions (breakOptions t) = breakOptions t.
Proof.
  remember (length t) as n eqn:Hn. revert t Hn.
  induction n as [n IH] using lt_wf_ind. intros t Hn.
  destruct t as [ | c r]; [reflexivity | ].
  destruct (optionBreak (c :: r)) as [[rep rest] | ] eqn:E.
  - destruct (optionBreak_inv _ _ _ _ E)
      as [Hc [l [q [r' [Hr [Hl [Hq [-> ->]]]]]]]].
    rewrite (breakOptions_hit c l q r r' Hc Hr Hl Hq).
    pose proof (optionBreak_shrinking _ _ _ E) as Hlen.
    set (x := breakOptions (trimStart r')).
    assert (Hx : headSolid x)
      by (apply breakOptions_headSolid, trimStart_headSolid).
    rewrite (breakOptions_hit c l q _ (takeSpaces r' ++ x) Hc); [ | | exact Hl | exact Hq].
    + rewrite (takeSpaces_app_spaces _ _ (takeSpaces_all r')).
      rewrite (takeSpaces_fix _ Hx), app_nil_r.
      rewrite (trimStart_app_spaces _ _ (takeSpaces_all r')).
      rewrite (trimStart_fix _ Hx).
      unfold x. rewrite (IH (length (trimStart r'))); [reflexivity | | reflexivity].
      subst n. exact Hlen.
    + cbn [trimStart]. rewrite isSpace_LF.
      rewrite (isAD_solid l Hl). reflexivity.
  - rewrite (breakOptions_skip _ _ E).
    rewrite breakOptions_skip.
    + f_equal. apply (IH (length r)); [subst n; simpl; lia | reflexivity].
    + destruct (optionBreak_None_inv _ _ E) as [Hc | Ho].
      * apply N.eqb_eq in Hc. subst c. reflexivity.
      * apply optionBreak_none. apply breakOptions_trim_option. exact Ho.
Qed.

(** How being settled is read off the head of a text. *)

Lemma settled_skip (c : cu) (r : str) :
  optionBreak (c :: r) = None ->
  (optionsSettled (c :: r) <-> optionsSettled r).
Proof.
  intro H. unfold optionsSettled. rewrite (breakOptions_skip _ _ H).
  split; intro E; [inversion E as [E']; rewrite E'; exact E' | rewrite E; reflexivity].
Qed.

Lemma settled_LF (r : str) : optionsSettled (LF :: r) <-> optionsSettled r.
Proof. apply settled_skip. reflexivity. Qed.

Lemma settled_hit (c l q : cu) (r r' : str) :
  (c =? LF)%N = false -> trimStart r = l :: q :: r' ->
  isAD l = true -> isMark q = true ->
  (optionsSettled (c :: r)
   <-> r = LF :: l :: q :: r' /\ optionsSettled (trimStart r')).
Proof.
  intros Hc Hr Hl Hq. unfold optionsSettled.
  rewrite (breakOptions_hit c l q r r' Hc Hr Hl Hq).
  split.
  - intro E. injection E as E'.
    assert (Ht : trimStart r = l :: q :: takeSpaces r' ++ breakOptions (trimStart r')).
    { rewrite <- E'. cbn [trimStart]. rewrite isSpace_LF.
      rewrite (isAD_solid l Hl). reflexivity. }
    rewrite Hr in Ht. injection Ht as Ht'.
    split.
    + rewrite <- E', <- Ht'. reflexivity.
    + assert (H2 : takeSpaces r' ++ breakOptions (trimStart r')
                   = takeSpaces r' ++ trimStart r').
      { rewrite <- Ht'. apply split_spaces. }
      exact (app_inv_head _ _ _ H2).
  - intros [-> E]. rewrite E. rewrite <- split_spaces. reflexivity.
Qed.

Lemma settled_spaces (w y : str) :
  spaces w -> optionHead (trimStart y) = false ->
  (optionsSettled (w ++ y) <-> optionsSettled y).
Proof.
  intros Hw Hy. induction Hw as [ | c w Hc Hw IH]; [reflexivity | ].
  cbn [app]. rewrite settled_skip; [exact IH | ].
  apply optionBreak_none. rewrite (trimStart_app_spaces _ _ Hw). exact Hy.
Qed.

(** ** Blank runs *)

Lemma dropLF_spaces (s : str) : trimStart (dropLF s) = trimStart s.
Proof.
  induction s as [ | c r IH]; [reflexivity | ].
  cbn [dropLF]. destruct (N.eqb_spec c LF) as [-> | Hc].
  - rewrite IH. cbn [trimStart]. rewrite isSpace_LF. reflexivity.
  - reflexivity.
Qed.


Lemma dropLF_head (s : str) : headNotLF (dropLF s).
Proof.
  induction s as [ | c r IH]; [exact I | ].
  cbn [dropLF]. destruct (c =? LF)%N eqn:E; [exact IH | exact E].
Qed.

Lemma squeezeBlank_headNotLF (s : str) : headNotLF s -> headNotLF (squeezeBlank s).
Proof.
  destruct s as [ | c r]; [intros _; exact I | ].
  destruct (squeezeBlank_head c r) as [z ->]. exact (fun H => H).
Qed.

Lemma blankRun_second (a b : cu) (r : str) :
  (b =? LF)%N = false -> blankRun (a :: b :: r) = None.
Proof.
  intro H. unfold blankRun. destruct r as [ | d r]; [reflexivity | ].
  rewrite H, andb_false_r. reflexivity.
Qed.

Lemma blankRun_third (a b : cu) (r : str) :
  headNotLF r -> blankRun (a :: b :: r) = None.
Proof.
  intro H. unfold blankRun. destruct r as [ | d r]; [reflexivity | ].
  simpl in H. rewrite H, andb_false_r. reflexivity.
Qed.

Lemma blankRun_short (a : cu) (r : str) :
  headNotLF r -> blankRun (a :: r) = None.
Proof.
  intro H. destruct r as [ | b r]; [reflexivity | ].
  apply blankRun_second. exact H.
Qed.

Lemma squeezeBlank_trimStart (x : str) :
  trimStart (squeezeBlank x) = squeezeBlank (trimStart x).
Proof.
  remember (length x) as n eqn:Hn. revert x Hn.
  induction n as [n IH] using lt_wf_ind. intros x Hn.
  destruct x as [ | e x']; [reflexivity | ].
  destruct (isSpace e) eqn:Ee.
  - cbn [trimStart]. rewrite Ee.
    destruct (blankRun (e :: x')) as [[rep rest] | ] eqn:E.
    + destruct (blankRun_inv _ _ _ E) as [r0 [H0 [-> ->]]].
      injection H0 as -> ->.
      rewrite squeezeBlank_hit. cbn [trimStart]. rewrite isSpace_LF.
      rewrite (IH (length (dropLF r0))); [ | | reflexivity].
      * rewrite dropLF_spaces. reflexivity.
      * subst n. pose proof (dropLF_length r0). simpl. lia.
    + rewrite (squeezeBlank_skip _ _ E). cbn [trimStart]. rewrite Ee.
      apply (IH (length x')); [subst n; simpl; lia | reflexivity].
  - cbn [trimStart]. rewrite Ee.
    rewrite (squeezeBlank_skip _ _ (blankRun_solid e x' (solid_not_LF e Ee))).
    cbn [trimStart]. rewrite Ee. reflexivity.
Qed.

Lemma squeezeBlank_option (y : str) :
  optionHead (squeezeBlank y) = optionHead y.
Proof.
  destruct y as [ | l y']; [reflexivity | ].
  destruct (isAD l) eqn:El.
  - rewrite (squeezeBlank_skip _ _
               (blankRun_solid l y' (solid_not_LF l (isAD_solid l El)))).
    destruct y' as [ | q y'']; [reflexivity | ].
    destruct (squeezeBlank_head q y'') as [z ->]. reflexivity.
  - destruct (squeezeBlank_head l y') as [z ->].
    destruct z as [ | q z]; destruct y' as [ | q' y'']; cbn [optionHead];
      rewrite ?El; reflexivity.
Qed.

Lemma settled_dropLF (s : str) : optionsSettled s -> optionsSettled (dropLF s).
Proof.
  induction s as [ | c r IH]; [exact (fun H => H) | ].
  cbn [dropLF]. destruct (N.eqb_spec c LF) as [-> | Hc]; [ | exact (fun H => H)].
  intro H. apply IH. apply (proj1 (settled_LF _)). exact H.
Qed.

(** The second replacement keeps a text settled. *)
Lemma squeezeBlank_settled (t : str) :
  optionsSettled t -> optionsSettled (squeezeBlank t).
Proof.
  remember (length t) as n eqn:Hn. revert t Hn.
  induction n as [n IH] using lt_wf_ind. intros t Hn Ht.
  destruct t as [ | c r]; [exact Ht | ].
  destruct (optionBreak (c :: r)) as [[rep rest] | ] eqn:E.
  - destruct (optionBreak_inv _ _ _ _ E)
      as [Hc [l [q [r' [Hr [Hl [Hq _]]]]]]].
    pose proof (optionBreak_shrinking _ _ _ E) as Hlen.
    destruct (optionBreak_inv _ _ _ _ E) as [_ [l0 [q0 [r0 [Hr0 [_ [_ [_ Hrest]]]]]]]].
    rewrite Hr in Hr0. injection Hr0 as <- <- <-. subst rest.
    apply (settled_hit c l q r r' Hc Hr Hl Hq) in Ht. destruct Ht as [-> Ht].
    assert (Hl' : (l =? LF)%N = false) by (apply solid_not_LF, isAD_solid; exact Hl).
    assert (Hq' : (q =? LF)%N = false) by (apply solid_not_LF, isMark_solid; exact Hq).
    rewrite (squeezeBlank_skip _ _ (blankRun_solid c _ Hc)).
    rewrite (squeezeBlank_skip _ _ (blankRun_second LF l _ Hl')).
    rewrite (squeezeBlank_skip _ _ (blankRun_solid l _ Hl')).
    rewrite (squeezeBlank_skip _ _ (blankRun_solid q _ Hq')).
    apply (settled_hit c l q _ (squeezeBlank r') Hc); [ | exact Hl | exact Hq | ].
    + cbn [trimStart]. rewrite isSpace_LF, (isAD_solid l Hl). reflexivity.
    + split; [reflexivity | ].
      rewrite squeezeBlank_trimStart.
      apply (IH (length (trimStart r'))); [subst n; exact Hlen | reflexivity | exact Ht].
  - apply (settled_skip _ _ E) in Ht.
    destruct (blankRun (c :: r)) as [[rep rest] | ] eqn:B.
    + destruct (blankRun_inv _ _ _ B) as [r0 [H0 [-> ->]]].
      injection H0 as -> ->.
      rewrite squeezeBlank_hit.
      apply (proj2 (settled_LF _)), (proj2 (settled_LF _)).
      apply (IH (length (dropLF r0))).
      * subst n. pose proof (dropLF_length r0). simpl. lia.
      * reflexivity.
      * apply settled_dropLF.
        apply (proj1 (settled_LF _)), (proj1 (settled_LF _)). exact Ht.
    + rewrite (squeezeBlank_skip _ _ B).
      apply (fun H => proj2 (settled_skip c (squeezeBlank r) H)).
      * destruct (optionBreak_None_inv _ _ E) as [Hc | Ho].
        -- apply N.eqb_eq in Hc. subst c. reflexivity.
        -- apply optionBreak_none.
           rewrite squeezeBlank_trimStart, squeezeBlank_option. exact Ho.
      * apply (IH (length r)); [subst n; simpl; lia | reflexivity | exact Ht].
Qed.

Lemma noBlankRun_cons (c : cu) (r : str) :
  blankRun (c :: r) = None -> noBlankRun (c :: r) = noBlankRun r.
Proof. intro H. cbn [noBlankRun]. rewrite H. reflexivity. Qed.

Lemma noBlankRun_inv (c : cu) (r : str) :
  noBlankRun (c :: r) = true -> blankRun (c :: r) = None /\ noBlankRun r = true.
Proof.
  cbn [noBlankRun]. destruct (blankRun (c :: r)); [discriminate | ].
  intro H; split; [reflexivity | exact H].
Qed.

Lemma noBlankRun_fix (t : str) : noBlankRun t = true -> squeezeBlank t = t.
Proof.
  induction t as [ | c r IH]; [reflexivity | ].
  intro H. destruct (noBlankRun_inv _ _ H) as [Hb Hr].
  rewrite (squeezeBlank_skip _ _ Hb), (IH Hr). reflexivity.
Qed.

Lemma blankRun_squeezed (c : cu) (r : str) :
  blankRun (c :: r) = None -> blankRun (c :: squeezeBlank r) = None.
Proof.
  intro H. destruct (c =? LF)%N eqn:Ec; [ | apply blankRun_solid; exact Ec].
  destruct r as [ | b r1]; [reflexivity | ].
  destruct (b =? LF)%N eqn:Eb.
  2:{ destruct (squeezeBlank_head b r1) as [z ->]. apply blankRun_second; exact Eb. }
  destruct r1 as [ | d r2]; [reflexivity | ].
  destruct (d =? LF)%N eqn:Ed.
  { exfalso. unfold blankRun in H. rewrite Ec, Eb, Ed in H. discriminate. }
  rewrite (squeezeBlank_skip _ _ (blankRun_second b d r2 Ed)).
  destruct (squeezeBlank_head d r2) as [z ->].
  apply blankRun_third. exact Ed.
Qed.

Lemma squeezeBlank_noBlankRun (t : str) : noBlankRun (squeezeBlank t) = true.
Proof.
  remember (length t) as n eqn:Hn. revert t Hn.
  induction n as [n IH] using lt_wf_ind. intros t Hn.
  destruct t as [ | c r]; [reflexivity | ].
  destruct (blankRun (c :: r)) as [[rep rest] | ] eqn:B.
  - destruct (blankRun_inv _ _ _ B) as [r0 [H0 [-> ->]]].
    injection H0 as -> ->.
    rewrite squeezeBlank_hit.
    pose proof (squeezeBlank_headNotLF _ (dropLF_head r0)) as Hh.
    rewrite (noBlankRun_cons _ _ (blankRun_third LF LF _ Hh)).
    rewrite (noBlankRun_cons _ _ (blankRun_short LF _ Hh)).
    apply (IH (length (dropLF r0))); [ | reflexivity].
    subst n. pose proof (dropLF_length r0). simpl. lia.
  - rewrite (squeezeBlank_skip _ _ B).
    rewrite (noBlankRun_cons _ _ (blankRun_squeezed _ _ B)).
    apply (IH (length r)); [subst n; simpl; lia | reflexivity].
Qed.

Lemma noBlankRun_suffix (a b : str) :
  noBlankRun (a ++ b) = true -> noBlankRun b = true.
Proof.
  induction a as [ | c a IH]; [exact (fun H => H) | ].
  cbn [app]. intro H. apply IH. exact (proj2 (noBlankRun_inv _ _ H)).
Qed.

(** Behind a code unit that is no line feed the text may be exchanged. *)
Lemma noBlankRun_exchange (p x x' : str) (c : cu) :
  (c =? LF)%N = false ->
  noBlankRun (p ++ c :: x) = true -> noBlankRun x' = true ->
  noBlankRun (p ++ c :: x') = true.
Proof.
  intros Hc Hx Hx'. induction p as [ | a p IH].
  - cbn [app]. rewrite (noBlankRun_cons _ _ (blankRun_solid c x' Hc)). exact Hx'.
  - cbn [app] in *. destruct (noBlankRun_inv _ _ Hx) as [Hb Hr].
    rewrite noBlankRun_cons; [exact (IH Hr) | ].
    destruct p as [ | b [ | d p]]; cbn [app] in *.
    + apply blankRun_second; exact Hc.
    + apply blankRun_third; exact Hc.
    + unfold blankRun in *.
      destruct ((a =? LF)%N && (b =? LF)%N && (d =? LF)%N);
        [discriminate | reflexivity].
Qed.

Lemma breakAnswers_noBlankRun_from (n : nat) :
  forall a t, length t <= n ->
  noBlankRun (a ++ t) = true -> noBlankRun (a ++ breakAnswers t) = true.
Proof.
  induction n as [ | n IH]; intros a t Hn Ht.
  - destruct t; [exact Ht | simpl in Hn; lia].
  - destruct t as [ | c r]; [exact Ht | ].
    destruct (answerBreak (c :: r)) as [[rep rest] | ] eqn:E.
    + destruct (answerBreak_inv _ _ _ _ E) as [Hc [Hv _]].
      destruct (answerTag_spec _ _ Hv) as [K [HK [Htag _]]].
      rewrite HK in Hv.
      rewrite (breakAnswers_hit c r K rest Hc HK Hv).
      destruct (tagText_head _ Htag) as [k0 [k1 [K' [-> Hk0]]]].
      assert (Hr : r = takeSpaces r ++ (k0 :: k1 :: K') ++ rest)
        by (rewrite <- HK; apply split_spaces).
      replace (a ++ c :: LF :: (k0 :: k1 :: K') ++ breakAnswers rest)
        with ((a ++ c :: LF :: k0 :: k1 :: K') ++ breakAnswers rest)
        by (rewrite <- app_assoc; reflexivity).
      apply IH.
      * pose proof (answerBreak_shrinking _ _ _ E). simpl in *. lia.
      * rewrite <- app_assoc. cbn [app].
        apply (noBlankRun_exchange a r _ c Hc Ht).
        rewrite noBlankRun_cons
          by (apply blankRun_second, solid_not_LF; exact Hk0).
        rewrite Hr in Ht.
        apply (noBlankRun_suffix (a ++ c :: takeSpaces r)).
        rewrite <- app_assoc. exact Ht.
    + rewrite (breakAnswers_skip _ _ E).
      replace (a ++ c :: breakAnswers r) with ((a ++ [c]) ++ breakAnswers r)
        by (rewrite <- app_assoc; reflexivity).
      apply IH; [simpl in Hn; lia | ].
      rewrite <- app_assoc. exact Ht.
Qed.

Lemma breakAnswers_noBlankRun (t : str) :
  noBlankRun t = true -> noBlankRun (breakAnswers t) = true.
Proof. apply (breakAnswers_noBlankRun_from (length t) [] t (le_n _)). Qed.

(** ** Answer breaks *)

Lemma squash_breakAnswers (t : str) : squash (breakAnswers t) = squash t.
Proof.
  remember (length t) as n eqn:Hn. revert t Hn.
  induction n as [n IH] using lt_wf_ind. intros t Hn.
  destruct t as [ | c r]; [reflexivity | ].
  destruct (answerBreak (c :: r)) as [[rep rest] | ] eqn:E.
  - destruct (answerBreak_inv _ _ _ _ E) as [Hc [Hv _]].
    destruct (answerTag_spec _ _ Hv) as [K [HK _]].
    rewrite HK in Hv.
    rewrite (breakAnswers_hit c r K rest Hc HK Hv).
    pose proof (answerBreak_shrinking _ _ _ E) as Hlen.
    change (c :: LF :: K ++ breakAnswers rest)
      with ([c] ++ [LF] ++ K ++ breakAnswers rest).
    change (c :: r) with ([c] ++ r).
    rewrite !squash_app.
    rewrite (IH (length rest)); [ | subst n; exact Hlen | reflexivity].
    rewrite <- (squash_trimStart r), HK, squash_app. reflexivity.
  - rewrite (breakAnswers_skip _ _ E).
    change (c :: breakAnswers r) with ([c] ++ breakAnswers r).
    change (c :: r) with ([c] ++ r).
    rewrite !squash_app. f_equal.
    apply (IH (length r)); [subst n; simpl; lia | reflexivity].
Qed.

Lemma breakAnswers_sepLetter (v : str) :
  sepLetter v = None -> sepLetter (breakAnswers v) = None.
Proof.
  intro H.
  pose proof (sepLetter_OK v) as H1. rewrite H in H1.
  pose proof (sepLetter_OK (breakAnswers v)) as H2.
  unfold sepLetterOK in *. rewrite squash_breakAnswers in H2.
  rewrite H1 in H2. destruct (sepLetter (breakAnswers v)); [discriminate | reflexivity].
Qed.

Lemma breakAnswers_spaces (w y : str) :
  spaces w -> answerTag (trimStart y) = None ->
  breakAnswers (w ++ y) = w ++ breakAnswers y.
Proof.
  intros Hw Hy. induction Hw as [ | c w Hc Hw IH]; [reflexivity | ].
  cbn [app]. rewrite breakAnswers_skip.
  - rewrite IH. reflexivity.
  - apply answerBreak_none. rewrite (trimStart_app_spaces _ _ Hw). exact Hy.
Qed.

(** A run of solid code units at the head of the result stood at the head
    of the argument. *)
Lemma breakAnswers_peel (k : str) :
  k <> [] -> solids k ->
  forall y u', breakAnswers y = k ++ u' ->
  exists u, y = k ++ u /\ squash u = squash u'.
Proof.
  intros Hne Hs. induction k as [ | a k IH]; [congruence | ].
  intros y u' Hy. inversion Hs as [ | ? ? Ha Hk]; subst.
  destruct y as [ | a' y']; [discriminate | ].
  destruct (breakAnswers_head a' y') as [z Hz].
  assert (a' = a) by (rewrite Hz in Hy; cbn [app] in Hy; congruence). subst a'.
  destruct k as [ | b k'].
  - exists y'. split; [reflexivity | ].
    pose proof (squash_breakAnswers (a :: y')) as Hq.
    rewrite Hy in Hq. cbn [app] in Hq.
    rewrite !(squash_solid a _ Ha) in Hq. congruence.
  - destruct (answerBreak (a :: y')) as [[rep rest] | ] eqn:E.
    + exfalso.
      destruct (answerBreak_inv _ _ _ _ E) as [_ [_ ->]].
      rewrite (replaceAll_cons _ _ _ answerBreak_shrinking), E in Hy.
      cbn [app] in Hy. injection Hy as Hb _.
      inversion Hk as [ | ? ? Hb' _]; subst. discriminate.
    + rewrite (breakAnswers_skip _ _ E) in Hy. cbn [app] in Hy.
      injection Hy as Hy.
      destruct (IH ltac:(discriminate) Hk y' u' Hy) as [u [-> Hu]].
      exists u. split; [reflexivity | exact Hu].
Qed.

Lemma breakAnswers_tag (y : str) :
  answerTag y = None -> answerTag (breakAnswers y) = None.
Proof.
  intro H.
  destruct (answerTag (breakAnswers y)) as [v' | ] eqn:E; [ | reflexivity].
  exfalso.
  pose proof (answerTag_ok (breakAnswers y)) as H1. rewrite E in H1.
  destruct (keyword (breakAnswers y)) as [u' | ] eqn:Ek; [ | discriminate].
  destruct (keyword_Some _ _ Ek) as [k [Hk Hkw]].
  destruct Hkw as [Hne [Hs [Hx _]]].
  destruct (breakAnswers_peel k Hne Hs y u' Hk) as [u [-> Hu]].
  pose proof (answerTag_ok (k ++ u)) as H2. rewrite H, Hx in H2.
  unfold colonLetterOK in *. rewrite Hu in H2. congruence.
Qed.

Lemma breakAnswers_idem (t : str) :
  breakAnswers (breakAnswers t) = breakAnswers t.
Proof.
  remember (length t) as n eqn:Hn. revert t Hn.
  induction n as [n IH] using lt_wf_ind. intros t Hn.
  destruct t as [ | c r]; [reflexivity | ].
  destruct (answerBreak (c :: r)) as [[rep rest] | ] eqn:E.
  - destruct (answerBreak_inv _ _ _ _ E) as [Hc [Hv _]].
    destruct (answerTag_spec _ _ Hv) as [K [HK [Htag Hnone]]].
    rewrite HK in Hv.
    rewrite (breakAnswers_hit c r K rest Hc HK Hv).
    pose proof (answerBreak_shrinking _ _ _ E) as Hlen.
    destruct (tagText_head _ Htag) as [k0 [k1 [K' [HK' Hk0]]]].
    rewrite (breakAnswers_hit c _ K (breakAnswers rest) Hc).
    + rewrite (IH (length rest)); [reflexivity | subst n; exact Hlen | reflexivity].
    + cbn [trimStart]. rewrite isSpace_LF. rewrite HK'.
      cbn [app trimStart]. rewrite Hk0. reflexivity.
    + apply answerTag_build; [exact Htag | ].
      apply breakAnswers_sepLetter. exact Hnone.
  - rewrite (breakAnswers_skip _ _ E).
    rewrite breakAnswers_skip.
    + f_equal. apply (IH (length r)); [subst n; simpl; lia | reflexivity].
    + destruct (answerBreak_None_inv _ _ E) as [Hc | Ho].
      * apply N.eqb_eq in Hc. subst c. reflexivity.
      * apply answerBreak_none.
        assert (Ho' : answerTag (trimStart (trimStart r)) = None)
          by (rewrite trimStart_idem; exact Ho).
        rewrite (split_spaces r) at 1.
        rewrite (breakAnswers_spaces _ _ (takeSpaces_all r) Ho').
        rewrite (trimStart_app_spaces _ _ (takeSpaces_all r)).
        rewrite (trimStart_fix _ (breakAnswers_headSolid _ (trimStart_headSolid r))).
        apply breakAnswers_tag. exact Ho.
Qed.

(** ** Answer breaks keep a text settled *)


Lemma tagText_tagHead (K v : str) : tagText K -> tagHead (K ++ v).
Proof.
  intro H. pose proof (tagText_not_option K v H) as Ho.
  destruct H as [k [w1 [c [w2 [l [t [-> [Hk _]]]]]]]].
  destruct (isKeyword_head _ Hk) as [k0 [k' [-> Hk0]]].
  exists k0. eexists. splits; [reflexivity | exact Hk0 | | exact Ho].
  destruct (isMark k0) eqn:Em; [ | reflexivity].
  destruct Hk as [_ [_ [Hk _]]]. specialize (Hk []).
  cbn [app] in Hk. rewrite (keyword_not_mark k0 _ Em) in Hk. discriminate.
Qed.

Lemma space_not_mark (e : cu) : isSpace e = true -> isMark e = false.
Proof.
  intro H. destruct (isMark e) eqn:E; [ | reflexivity].
  rewrite (isMark_solid e E) in H. discriminate.
Qed.

Lemma tagHead_trim (y : str) : tagHead y -> trimStart y = y.
Proof.
  intros [k0 [y' [-> [H _]]]]. apply trimStart_solid. exact H.
Qed.

Lemma respace_option (a w y : str) (c : cu) :
  spaces w -> tagHead y ->
  optionHead (trimStart (a ++ c :: LF :: y))
  = optionHead (trimStart (a ++ c :: w ++ y)).
Proof.
  intros Hw Hy. pose proof (tagHead_trim y Hy) as Hty.
  destruct Hy as [k0 [y' [-> [Hk0 [Hm Ho]]]]].
  destruct (trimStart a) as [ | b B] eqn:Ea.
  - rewrite !(trimStart_app_all_space a _ Ea).
    cbn [trimStart]. destruct (isSpace c) eqn:Ec.
    + rewrite isSpace_LF. rewrite (trimStart_app_spaces _ _ Hw). reflexivity.
    + cbn [optionHead]. rewrite andb_false_r.
      destruct Hw as [ | e w He Hw]; cbn [app optionHead].
      * rewrite Hm, andb_false_r. reflexivity.
      * rewrite (space_not_mark e He), andb_false_r. reflexivity.
  - assert (Hne : trimStart a <> []) by (rewrite Ea; discriminate).
    rewrite !(trimStart_app_solid_head a _ Hne), Ea.
    destruct B as [ | b2 B]; reflexivity.
Qed.

Lemma settled_respace_head (c : cu) (w y : str) :
  spaces w -> tagHead y ->
  optionsSettled (c :: w ++ y) -> optionsSettled (c :: LF :: y).
Proof.
  intros Hw Hy H. pose proof (tagHead_trim y Hy) as Hty.
  assert (Ho : optionHead (trimStart y) = false).
  { rewrite Hty. destruct Hy as [k0 [y' [-> [_ [_ Ho]]]]]. exact Ho. }
  assert (E1 : optionBreak (c :: w ++ y) = None).
  { apply optionBreak_none. rewrite (trimStart_app_spaces _ _ Hw). exact Ho. }
  assert (E2 : optionBreak (c :: LF :: y) = None).
  { apply optionBreak_none. cbn [trimStart]. rewrite isSpace_LF. exact Ho. }
  apply (settled_skip _ _ E1) in H.
  apply (settled_spaces w y Hw Ho) in H.
  apply (settled_skip _ _ E2). apply settled_LF. exact H.
Qed.

(** A run of spaces in front of an answer tag may be exchanged for one line
    feed. *)
Lemma settled_respace (n : nat) :
  forall (a : str) (c : cu) (w y : str),
  length a <= n ->
  (c =? LF)%N = false -> spaces w -> tagHead y ->
  optionsSettled (a ++ c :: w ++ y) -> optionsSettled (a ++ c :: LF :: y).
Proof.
  induction n as [n IH] using lt_wf_ind.
  intros a c w y Hn Hc Hw Hy H.
  destruct a as [ | x a'].
  { exact (settled_respace_head c w y Hw Hy H). }
  cbn [app] in *.
  destruct (optionBreak (x :: a' ++ c :: w ++ y)) as [[rep rest] | ] eqn:E.
  - destruct (optionBreak_inv _ _ _ _ E)
      as [Hx [l [q [r' [Hr [Hl [Hq _]]]]]]].
    apply (settled_hit x l q _ r' Hx Hr Hl Hq) in H. destruct H as [Hshape H].
    pose proof (tagHead_trim y Hy) as Hty.
    destruct a' as [ | z1 [ | z2 [ | z3 a'']]]; cbn [app] in Hshape.
    + injection Hshape as -> _. discriminate.
    + injection Hshape as -> -> Hwy. exfalso.
      destruct Hy as [k0 [y' [-> [Hk0 [Hm _]]]]].
      destruct Hw as [ | e w He Hw]; cbn [app] in Hwy; injection Hwy as -> _.
      * congruence.
      * rewrite (space_not_mark q He) in Hq. discriminate.
    + injection Hshape as -> -> -> <-.
      rewrite (trimStart_app_spaces _ _ Hw), Hty in H.
      cbn [app].
      apply (settled_hit x l q _ (LF :: y) Hx); [ | exact Hl | exact Hq | ].
      * cbn [trimStart]. rewrite isSpace_LF, (isAD_solid l Hl). reflexivity.
      * split; [reflexivity | ].
        cbn [trimStart]. rewrite isSpace_LF, Hty. exact H.
    + injection Hshape as -> -> -> <-.
      cbn [app].
      apply (settled_hit x l q _ (a'' ++ c :: LF :: y) Hx); [ | exact Hl | exact Hq | ].
      * cbn [trimStart]. rewrite isSpace_LF, (isAD_solid l Hl). reflexivity.
      * split; [reflexivity | ].
        destruct (trimStart a'') as [ | b B] eqn:Ea.
        -- rewrite (trimStart_app_all_space a'' (c :: LF :: y) Ea).
           rewrite (trimStart_app_all_space a'' (c :: w ++ y) Ea) in H.
           cbn [trimStart] in *. destruct (isSpace c) eqn:Ec.
           ++ rewrite isSpace_LF, Hty.
              rewrite (trimStart_app_spaces _ _ Hw), Hty in H. exact H.
           ++ exact (settled_respace_head c w y Hw Hy H).
        -- assert (Hne : trimStart a'' <> []) by (rewrite Ea; discriminate).
           rewrite (trimStart_app_solid_head a'' (c :: LF :: y) Hne).
           rewrite (trimStart_app_solid_head a'' (c :: w ++ y) Hne) in H.
           apply (IH (length (trimStart a'')) ltac:(pose proof (trimStart_length a''); simpl in Hn; lia)
                    (trimStart a'') c w y (le_n _) Hc Hw Hy H).
  - apply (settled_skip _ _ E) in H.
    assert (E' : optionBreak (x :: a' ++ c :: LF :: y) = None).
    { destruct (optionBreak_None_inv _ _ E) as [Hx | Ho].
      - apply N.eqb_eq in Hx. subst x. reflexivity.
      - apply optionBreak_none. rewrite (respace_option a' w y c Hw Hy). exact Ho. }
    apply (settled_skip _ _ E').
    apply (IH (length a') ltac:(simpl in Hn; lia) a' c w y (le_n _) Hc Hw Hy H).
Qed.

Lemma breakAnswers_settled_from (n : nat) :
  forall a t, length t <= n ->
  optionsSettled (a ++ t) -> optionsSettled (a ++ breakAnswers t).
Proof.
  induction n as [ | n IH]; intros a t Hn Ht.
  - destruct t; [exact Ht | simpl in Hn; lia].
  - destruct t as [ | c r]; [exact Ht | ].
    destruct (answerBreak (c :: r)) as [[rep rest] | ] eqn:E.
    + destruct (answerBreak_inv _ _ _ _ E) as [Hc [Hv _]].
      destruct (answerTag_spec _ _ Hv) as [K [HK [Htag _]]].
      rewrite HK in Hv.
      rewrite (breakAnswers_hit c r K rest Hc HK Hv).
      replace (a ++ c :: LF :: K ++ breakAnswers rest)
        with ((a ++ c :: LF :: K) ++ breakAnswers rest)
        by (rewrite <- app_assoc; reflexivity).
      apply IH.
      * pose proof (answerBreak_shrinking _ _ _ E). simpl in *. lia.
      * rewrite <- app_assoc. cbn [app].
        apply (settled_respace (length a) a c (takeSpaces r) (K ++ rest) (le_n _) Hc
                 (takeSpaces_all r) (tagText_tagHead K rest Htag)).
        rewrite <- HK, <- split_spaces. exact Ht.
    + rewrite (breakAnswers_skip _ _ E).
      replace (a ++ c :: breakAnswers r) with ((a ++ [c]) ++ breakAnswers r)
        by (rewrite <- app_assoc; reflexivity).
      apply IH; [simpl in Hn; lia | ].
      rewrite <- app_assoc. exact Ht.
Qed.

Lemma breakAnswers_settled (t : str) :
  optionsSettled t -> optionsSettled (breakAnswers t).
Proof. apply (breakAnswers_settled_from (length t) [] t (le_n _)). Qed.

(** ** Carriage returns and no-break spaces *)



Lemma stripped_plain (raw : str) : plain (stripped raw).
Proof.
  unfold plain, stripped, replaceChar, removeAll.
  induction raw as [ | c r IH]; [constructor | ].
  cbn [filter]. destruct (N.eqb_spec c CR) as [-> | Hc]; cbn [negb].
  - exact IH.
  - cbn [map]. constructor; [ | exact IH].
    destruct (N.eqb_spec c NBSP) as [-> | Hn]; [split; discriminate | ].
    split; assumption.
Qed.

Lemma plain_stripped (t : str) : plain t -> stripped t = t.
Proof.
  unfold plain, stripped, replaceChar, removeAll.
  induction 1 as [ | c r [Hc Hn] _ IH]; [reflexivity | ].
  cbn [filter]. destruct (N.eqb_spec c CR) as [-> | _]; [congruence | ].
  cbn [negb map]. destruct (N.eqb_spec c NBSP) as [-> | _]; [congruence | ].
  f_equal. exact IH.
Qed.


Lemma replaceAll_In (m : str -> option (str * str)) :
  shrinking m -> conservative m ->
  forall t x, In x (replaceAll m t) -> x = LF \/ In x t.
Proof.
  intros Hs Hc t. remember (length t) as n eqn:Hn. revert t Hn.
  induction n as [n IH] using lt_wf_ind. intros t Hn x Hx.
  destruct t as [ | c r]; [contradiction | ].
  rewrite (replaceAll_cons _ _ _ Hs) in Hx.
  destruct (m (c :: r)) as [[rep rest] | ] eqn:E.
  - destruct (Hc _ _ _ E) as [H1 H2]. pose proof (Hs _ _ _ E) as Hl.
    apply in_app_or in Hx. destruct Hx as [Hx | Hx]; [exact (H1 x Hx) | ].
    destruct (IH (length rest) ltac:(lia) rest eq_refl x Hx) as [Hx' | Hx'];
      [left; exact Hx' | right; exact (H2 x Hx')].
  - destruct Hx as [-> | Hx]; [right; left; reflexivity | ].
    destruct (IH (length r) ltac:(subst n; simpl; lia) r eq_refl x Hx) as [Hx' | Hx'];
      [left; exact Hx' | right; right; exact Hx'].
Qed.

Lemma replaceAll_plain (m : str -> option (str * str)) (t : str) :
  shrinking m -> conservative m -> plain t -> plain (replaceAll m t).
Proof.
  intros Hs Hc Ht. unfold plain in *. rewrite Forall_forall in *.
  intros x Hx. destruct (replaceAll_In m Hs Hc t x Hx) as [-> | Hx'].
  - split; discriminate.
  - exact (Ht x Hx').
Qed.

Lemma In_trimStart (s : str) (x : cu) : In x (trimStart s) -> In x s.
Proof.
  intro H. rewrite (split_spaces s). apply in_or_app. right; exact H.
Qed.

Lemma In_takeSpaces (s : str) (x : cu) : In x (takeSpaces s) -> In x s.
Proof.
  intro H. rewrite (split_spaces s). apply in_or_app. left; exact H.
Qed.

Lemma In_dropLF (s : str) (x : cu) : In x (dropLF s) -> In x s.
Proof.
  induction s as [ | c r IH]; [exact (fun H => H) | ].
  cbn [dropLF]. destruct (c =? LF)%N; [ | exact (fun H => H)].
  intro H. right. exact (IH H).
Qed.

Lemma optionBreak_conservative : conservative optionBreak.
Proof.
  intros s rep rest H. destruct s as [ | c r]; [discriminate | ].
  destruct (optionBreak_inv _ _ _ _ H) as [_ [l [q [r' [Hr [_ [_ [-> ->]]]]]]]].
  assert (Hin : forall x, In x (l :: q :: r') -> In x (c :: r)).
  { intros x Hx. right. apply In_trimStart. rewrite Hr. exact Hx. }
  split; intros x Hx.
  - destruct Hx as [<- | [<- | [<- | [<- | Hx]]]].
    + right; left; reflexivity.
    + left; reflexivity.
    + right. apply Hin. left; reflexivity.
    + right. apply Hin. right; left; reflexivity.
    + right. apply Hin. right; right. exact (In_takeSpaces _ _ Hx).
  - apply Hin. right; right. exact (In_trimStart _ _ Hx).
Qed.

Lemma blankRun_conservative : conservative blankRun.
Proof.
  intros s rep rest H.
  destruct (blankRun_inv _ _ _ H) as [r [-> [-> ->]]].
  split; intros x Hx.
  - destruct Hx as [<- | [<- | []]]; left; reflexivity.
  - right; right; right. exact (In_dropLF _ _ Hx).
Qed.

Lemma answerBreak_conservative : conservative answerBreak.
Proof.
  intros s rep rest H. destruct s as [ | c r]; [discriminate | ].
  destruct (answerBreak_inv _ _ _ _ H) as [_ [Hv ->]].
  destruct (answerTag_spec _ _ Hv) as [K [HK _]].
  rewrite HK, consumed_app.
  assert (Hin : forall x, In x (K ++ rest) -> In x (c :: r)).
  { intros x Hx. right. apply In_trimStart. rewrite HK. exact Hx. }
  split; intros x Hx.
  - destruct Hx as [<- | [<- | Hx]].
    + right; left; reflexivity.
    + left; reflexivity.
    + right. apply Hin. apply in_or_app. left; exact Hx.
  - apply Hin. apply in_or_app. right; exact Hx.
Qed.

(** ** The normalizer is idempotent *)

Lemma normalizeMcqText_steps (raw : str) :
  normalizeMcqText raw
  = breakAnswers (squeezeBlank (breakOptions (stripped raw))).
Proof. apply normalizeMcqText_reading. Qed.

Lemma normalizeMcqText_fixpoint (t : str) :
  plain t -> optionsSettled t -> noBlankRun t = true -> breakAnswers t = t ->
  normalizeMcqText t = t.
Proof.
  intros Hp Hs Hb Ha.
  rewrite normalizeMcqText_steps, (plain_stripped t Hp).
  unfold optionsSettled in Hs. rewrite Hs, (noBlankRun_fix t Hb). exact Ha.
Qed.

(* ================================================================== *)
(** * The viewer's load path *)

Lemma keepCard_spec (c : ViewCard) :
  keepCard c = true <-> vQuestion c <> [] /\ vAnswer c <> [].
Proof.
  unfold keepCard.
  destruct (vQuestion c) as [ | a q]; destruct (vAnswer c) as [ | b r]; simpl;
    split; intro H;
    try discriminate; try reflexivity;
    try (destruct H; congruence);
    split; discriminate.
Qed.

Lemma mapRes_Val {A B : Type} (f : A -> res B) (l : list A) (ys : list B) :
  mapRes f l = Val ys <-> Forall2 (fun x y => f x = Val y) l ys.
Proof.
  revert ys. induction l as [ | x rest IH]; intro ys; cbn [mapRes].
  - split; intro H; [injection H as <-; constructor | inversion H; reflexivity].
  - split; intro H.
    + destruct (f x) as [y | | ] eqn:E; cbn [bind] in H; try discriminate.
      destruct (mapRes f rest) as [ys0 | | ] eqn:E0; cbn [bind] in H; try discriminate.
      injection H as <-. constructor; [exact E | apply IH; reflexivity].
    + inversion H as [ | ? y ? ys0 Hx Hrest]; subst. rewrite Hx. cbn [bind].
      rewrite (proj2 (IH ys0) Hrest). reflexivity.
Qed.

(** A callback that either returns or throws a [TypeError]: so does the
    [map], and it throws exactly when the callback does for an element. *)
Lemma mapRes_cases {A B : Type} (f : A -> res B) (l : list A) :
  Forall (fun x => (exists y, f x = Val y) \/ f x = TypeError) l ->
  (exists ys, mapRes f l = Val ys)
  \/ (mapRes f l = TypeError /\ exists x, In x l /\ f x = TypeError).
Proof.
  induction 1 as [ | x rest Hx Hrest IH]; cbn [mapRes]; [left; eexists; reflexivity | ].
  destruct Hx as [[y Hy] | Hx].
  - rewrite Hy. cbn [bind].
    destruct IH as [[ys Hys] | [He [z [Hz1 Hz2]]]].
    + left. rewrite Hys. eexists; reflexivity.
    + right. rewrite He. split; [reflexivity | ].
      exists z. split; [right; exact Hz1 | exact Hz2].
  - right. rewrite Hx. split; [reflexivity | ].
    exists x. split; [left; reflexivity | exact Hx].
Qed.

Lemma mapRes_all {A B : Type} (f : A -> res B) (l : list A) :
  Forall (fun x => exists y, f x = Val y) l -> exists ys, mapRes f l = Val ys.
Proof.
  induction 1 as [ | x rest [y Hy] Hrest [ys IH]]; cbn [mapRes];
    [eexists; reflexivity | ].
  rewrite Hy. cbn [bind]. rewrite IH. eexists; reflexivity.
Qed.

Lemma mapRes_throws {A B : Type} (f : A -> res B) (l : list A) (x : A) :
  Forall (fun x => (exists y, f x = Val y) \/ f x = TypeError) l ->
  In x l -> f x = TypeError -> mapRes f l = TypeError.
Proof.
  induction 1 as [ | z rest Hz Hrest IH]; intros Hin Hx; [destruct Hin | ].
  cbn [mapRes]. destruct Hz as [[y Hy] | Hz]; [ | rewrite Hz; reflexivity].
  rewrite Hy. cbn [bind]. destruct Hin as [<- | Hin]; [congruence | ].
  rewrite (IH Hin Hx). reflexivity.
Qed.

(** Induction on a value, through the elements of its arrays. *)
Lemma json_elements (P : json -> Prop) :
  P JNull -> (forall b, P (JBool b)) -> (forall text, P (JNum text)) ->
  (forall s, P (JStr s)) ->
  (forall items, Forall P items -> P (JArr items)) ->
  (forall members, P (JObj members)) ->
  forall v, P v.
Proof.
  intros Hnull Hbool Hnum Hstr Harr Hobj.
  fix IH 1. intros [ | b | text | s | items | members];
    [exact Hnull | apply Hbool | apply Hnum | apply Hstr | | apply Hobj].
  apply Harr. induction items as [ | e rest IHrest]; constructor;
    [apply IH | exact IHrest].
Qed.

(** [String] returns for a convertible value and throws a [TypeError] for
    every other one. *)
Lemma toStr_cases (v : json) :
  (convertible v = true -> exists s, toStr v = Val s)
  /\ (convertible v = false -> toStr v = TypeError).
Proof.
  induction v as [ | b | text | s | items IH | members] using json_elements;
    try (split; [intros _; eexists; reflexivity | discriminate]).
  - destruct b; split; try discriminate; intros _; eexists; reflexivity.
  - cbn [toStr convertible].
    set (f := fun e => match e with JNull => Val [] | _ => toStr e end).
    assert (Hf : Forall (fun e => (convertible e = true -> exists y, f e = Val y)
                                  /\ (convertible e = false -> f e = TypeError)) items).
    { eapply Forall_impl; [ | exact IH]. intros e He.
      destruct e; try exact He. split; [intros _; eexists; reflexivity | discriminate]. }
    assert (Hc : Forall (fun e => (exists y, f e = Val y) \/ f e = TypeError) items).
    { eapply Forall_impl; [ | exact Hf]. intros e [H1 H2].
      destruct (convertible e); [left; apply H1; reflexivity | right; apply H2; reflexivity]. }
    split; intro H.
    + rewrite forallb_forall in H.
      destruct (mapRes_all f items) as [ys Hys].
      * rewrite Forall_forall in Hf. apply Forall_forall. intros e He.
        apply (proj1 (Hf e He)). apply H. exact He.
      * rewrite Hys. eexists; reflexivity.
    + assert (Hx : exists e, In e items /\ convertible e = false).
      { clear - H. induction items as [ | e rest IHr]; [discriminate | ].
        cbn [forallb] in H. destruct (convertible e) eqn:E.
        - destruct (IHr H) as [z [Hz1 Hz2]]. exists z. split; [right; exact Hz1 | exact Hz2].
        - exists e. split; [left; reflexivity | exact E]. }
      destruct Hx as [e [He1 He2]].
      rewrite (mapRes_throws f items e Hc He1); [reflexivity | ].
      rewrite Forall_forall in Hf. apply (proj2 (Hf e He1)). exact He2.
  - cbn [toStr convertible]. destruct (member kToString members);
      split; try discriminate; intros _; try reflexivity; eexists; reflexivity.
Qed.

Lemma toStr_outcome (v : json) : (exists s, toStr v = Val s) \/ toStr v = TypeError.
Proof.
  destruct (toStr_cases v) as [H1 H2].
  destruct (convertible v); [left; apply H1; reflexivity | right; apply H2; reflexivity].
Qed.

Lemma normalizeCard_cases (x : json) :
  (forallb convertible (stringsOf x) = true -> exists c, normalizeCard x = Val c)
  /\ (forallb convertible (stringsOf x) = false -> normalizeCard x = TypeError).
Proof.
  unfold normalizeCard, stringsOf. rewrite !forallb_app. cbn [forallb].
  rewrite !andb_true_r.
  destruct (toStr_cases (orEmpty (field x kQuestion))) as [Q1 Q2].
  destruct (convertible (orEmpty (field x kQuestion)));
    [destruct (Q1 eq_refl) as [q ->]; cbn [bind andb]
    | rewrite (Q2 eq_refl); split; [discriminate | reflexivity]].
  set (opts := match field x kOptions with Some (JArr items) => items | _ => [] end).
  assert (Ho : (forallb convertible opts = true ->
                exists o, match field x kOptions with
                          | Some (JArr items) =>
                              strings <- mapRes toStr items ;; Val (Some strings)
                          | _ => Val None
                          end = Val o)
               /\ (forallb convertible opts = false ->
                   match field x kOptions with
                   | Some (JArr items) =>
                       strings <- mapRes toStr items ;; Val (Some strings)
                   | _ => Val None
                   end = TypeError)).
  { unfold opts.
    destruct (field x kOptions) as [[ | b | text | s | items | members] | ];
      try (split; [intros _; eexists; reflexivity | discriminate]).
    assert (Hc : Forall (fun e => (exists y, toStr e = Val y) \/ toStr e = TypeError) items)
      by (apply Forall_forall; intros e _; apply toStr_outcome).
    split; intro H.
    - rewrite forallb_forall in H. destruct (mapRes_all toStr items) as [ys ->].
      + apply Forall_forall. intros e He. apply (proj1 (toStr_cases e)). apply H. exact He.
      + eexists; reflexivity.
    - assert (Hx : exists e, In e items /\ convertible e = false).
      { clear - H. induction items as [ | e rest IHr]; [discriminate | ].
        cbn [forallb] in H. destruct (convertible e) eqn:E.
        - destruct (IHr H) as [z [Hz1 Hz2]]. exists z. split; [right; exact Hz1 | exact Hz2].
        - exists e. split; [left; reflexivity | exact E]. }
      destruct Hx as [e [He1 He2]].
      rewrite (mapRes_throws toStr items e Hc He1 (proj2 (toStr_cases e) He2)).
      reflexivity. }
  destruct Ho as [O1 O2].
  destruct (forallb convertible opts);
    [destruct (O1 eq_refl) as [o ->]; cbn [bind andb]
    | rewrite (O2 eq_refl); split; [discriminate | reflexivity]].
  destruct (toStr_cases (orEmpty (field x kAnswer))) as [A1 A2].
  destruct (convertible (orEmpty (field x kAnswer)));
    [destruct (A1 eq_refl) as [a ->]; cbn [bind andb]
    | rewrite (A2 eq_refl); split; [discriminate | reflexivity]].
  destruct (field x kExplanation) as [w | ];
    [ | split; [intros _; eexists; reflexivity | discriminate]].
  destruct (toStr_cases w) as [E1 E2].
  destruct w as [ | b | text | s | items | members];
    try (split; [intros _; eexists; reflexivity | discriminate]);
    cbn [forallb]; rewrite andb_true_r;
    match goal with
    | |- context [convertible ?w] =>
        destruct (convertible w);
        [destruct (E1 eq_refl) as [e ->]; split;
           [intros _; eexists; reflexivity | discriminate]
        | rewrite (E2 eq_refl); split; [discriminate | reflexivity]]
    end.
Qed.

Lemma normalizeCard_outcome (x : json) :
  (exists c, normalizeCard x = Val c) \/ normalizeCard x = TypeError.
Proof.
  destruct (normalizeCard_cases x) as [H1 H2].
  destruct (forallb convertible (stringsOf x));
    [left; apply H1; reflexivity | right; apply H2; reflexivity].
Qed.

(** X2.  The [map] callback of App.tsx (lines 39-44) returns a card or
    throws a [TypeError], and it throws exactly when one of the values it
    hands to [String] (the question and the answer, an element of an options
    array, an explanation that is not null) is not convertible: it holds an
    object with a member [toString] of its own.  A card it returns has a
    question and an answer without white space at their ends, options
    exactly for an options array, with one string for each element, and an
    explanation exactly for one that is there and not null. *)
Lemma normalizeCard_throws (x : json) :
  (normalizeCard x = TypeError <-> forallb convertible (stringsOf x) = false)
  /\ (forallb convertible (stringsOf x) = true <-> exists c, normalizeCard x = Val c)
  /\ (forall c, normalizeCard x = Val c ->
        trim (vQuestion c) = vQuestion c /\ trim (vAnswer c) = vAnswer c
        /\ match field x kOptions with
           | Some (JArr items) =>
               exists strings,
                 vOptions c = Some strings
                 /\ Forall2 (fun e t => toStr e = Val t) items strings
           | _ => vOptions c = None
           end
        /\ (vExplanation c = None <->
            field x kExplanation = None \/ field x kExplanation = Some JNull)).
Proof.
  destruct (normalizeCard_cases x) as [H1 H2].
  split; [ | split].
  - split; [ | exact H2]. intro H.
    destruct (forallb convertible (stringsOf x)); [ | reflexivity].
    destruct (H1 eq_refl) as [c Hc]. congruence.
  - split; [exact H1 | ]. intros [c Hc].
    destruct (forallb convertible (stringsOf x)); [reflexivity | ].
    rewrite (H2 eq_refl) in Hc. discriminate.
  - intros c Hc. unfold normalizeCard in Hc.
    destruct (toStr (orEmpty (field x kQuestion))) as [q | | ]; cbn [bind] in Hc;
      try discriminate.
    destruct (match field x kOptions with
              | Some (JArr items) => strings <- mapRes toStr items ;; Val (Some strings)
              | _ => Val None
              end) as [o | | ] eqn:Eo; cbn [bind] in Hc; try discriminate.
    destruct (toStr (orEmpty (field x kAnswer))) as [a | | ]; cbn [bind] in Hc;
      try discriminate.
    destruct (match field x kExplanation with
              | None => Val None
              | Some JNull => Val None
              | Some w => text <- toStr w ;; Val (Some text)
              end) as [e | | ] eqn:Ee; cbn [bind] in Hc; try discriminate.
    injection Hc as <-. cbn [vQuestion vAnswer vOptions vExplanation].
    split; [apply trim_idem | ]. split; [apply trim_idem | ]. split.
    + destruct (field x kOptions) as [[ | b | text | s | items | members] | ];
        try (injection Eo as <-; reflexivity).
      destruct (mapRes toStr items) as [strings | | ] eqn:Em; cbn [bind] in Eo;
        try discriminate.
      injection Eo as <-. exists strings. split; [reflexivity | ].
      apply mapRes_Val. exact Em.
    + destruct (field x kExplanation) as [[ | b | text | s | items | members] | ];
        try (injection Ee as <-; split; [intros _ | intros _; reflexivity];
             first [left; reflexivity | right; reflexivity]);
        (destruct (toStr _) as [t | | ]; cbn [bind] in Ee; try discriminate;
         injection Ee as <-; split; [discriminate | intros [H | H]; discriminate]).
Qed.

(** X1.  The load of App.tsx (lines 23-65): the cards it keeps have a
    question and an answer; anything but an array with a card to keep ends in
    a load error and on the error screen.  For an array the callback of
    [map] runs for every element before the filter: when it throws for one
    of them no card is kept, whatever the other elements are. *)
Lemma load_contract (r : response) (st : ViewState) :
  let st' := load false r st in
  isLoading st' = false
  /\ Forall (fun c => vQuestion c <> [] /\ vAnswer c <> []) (cards st')
  /\ match r with
     | Body (JArr items) =>
         match mapRes normalizeCard items with
         | Val mapped =>
             let kept := filter keepCard mapped in
             Forall2 (fun x c => normalizeCard x = Val c) items mapped
             /\ (kept = [] -> cards st' = [] /\ loadError st' = Some NoValidCard)
             /\ (kept <> [] -> cards st' = kept /\ loadError st' = None)
         | _ =>
             cards st' = [] /\ loadError st' = Some TypeFailure
             /\ exists x, In x items /\ normalizeCard x = TypeError
         end
     | Body _ => cards st' = [] /\ loadError st' = Some NotAnArray
     | FetchRejected => cards st' = [] /\ loadError st' = Some NetworkFailure
     | HttpStatus status => cards st' = [] /\ loadError st' = Some (Http status)
     | BadBody => cards st' = [] /\ loadError st' = Some SyntaxFailure
     end
  /\ (cards st' = [] -> exists e, loadError st' = Some e /\ render st' = ErrorScreen e).
Proof.
  cbv zeta. unfold load.
  destruct r as [ | status | | data]; cbn [loadTry];
    try (splits; [reflexivity | constructor | reflexivity | reflexivity
                  | intros _; eexists; split; reflexivity]).
  destruct data as [ | b | text | s | items | members];
    try (splits; [reflexivity | constructor | reflexivity | reflexivity
                  | intros _; eexists; split; reflexivity]).
  cbn [loadTry].
  destruct (mapRes_cases normalizeCard items) as [[mapped Hm] | [Hm Hx]];
    [apply Forall_forall; intros x _; apply normalizeCard_outcome | | ];
    rewrite Hm.
  2:{ splits; [reflexivity | constructor | reflexivity | reflexivity | exact Hx
               | intros _; eexists; split; reflexivity]. }
  cbv zeta.
  set (kept := filter keepCard mapped).
  assert (Hk : Forall (fun c => vQuestion c <> [] /\ vAnswer c <> []) kept).
  { apply Forall_forall. intros c Hc. apply filter_In in Hc.
    apply keepCard_spec. exact (proj2 Hc). }
  apply mapRes_Val in Hm.
  destruct kept as [ | c kept'] eqn:E; cbn [length Nat.eqb].
  - splits; [reflexivity | constructor | exact Hm | intros _; split; reflexivity
             | congruence | intros _; eexists; split; reflexivity].
  - cbn [cards loadError isLoading].
    splits; [reflexivity | exact Hk | exact Hm | discriminate
             | intros _; split; reflexivity | discriminate].
Qed.

(* ================================================================== *)
(** * The cards the loop pushes *)

(** A pass pushes a card exactly for a candidate that is not discarded, and
    the card's answer is made of the buffer of that pass. *)
Lemma cycle_emit_iff (lines : list str) (k k' : nat) (c : Flashcard) :
  cycle lines k = Val (k', Emit c) <->
  exists qLines opts j' answers,
    candidate lines k qLines opts j' /\ answerBuffer lines j' k' answers
    /\ c = mkCard (trim (join [SP] qLines)) opts (finalAnswer answers) None.
Proof.
  unfold cycle, candidate, answerBuffer. split.
  - intro H.
    destruct (candidateStart lines k) as [s | | ] eqn:Hs; cbn [bind] in H;
      try discriminate.
    destruct (length lines <=? s) eqn:El; [discriminate | ].
    apply Nat.leb_gt in El.
    destruct (scanQuestion (gas lines) lines s []) as [[j qLines] | | ] eqn:Hq;
      cbn [bind] in H; try discriminate.
    destruct (optionAt lines j) as [b | | ] eqn:Hb; cbn [bind] in H; try discriminate.
    destruct b; cbn [negb] in H; [ | discriminate].
    cbv zeta in H.
    destruct (trim (join [SP] qLines)) as [ | q0 q] eqn:Q; cbn [isEmpty] in H;
      [discriminate | ].
    destruct (scanOptions (gas lines) lines j []) as [[j' opts] | | ] eqn:Ho;
      cbn [bind] in H; try discriminate.
    destruct (length opts <? 2) eqn:E2; [discriminate | ].
    apply Nat.ltb_ge in E2.
    destruct (skipNoise (gas lines) lines j') as [a | | ] eqn:Ha; cbn [bind] in H;
      try discriminate.
    destruct (scanAnswer (gas lines) lines a []) as [[a1 answers] | | ] eqn:Hsa;
      cbn [bind] in H; try discriminate.
    injection H as <- <-.
    exists qLines, opts, j', answers. rewrite Q. split; [ | split; [ | reflexivity]].
    + exists s, j.
      repeat split; try assumption; try reflexivity. discriminate.
    + exists a. split; [exact Ha | exact Hsa].
  - intros [qLines [opts [j' [answers [[s [j [Hs [Hl [Hq [Hb [Q [Ho H2]]]]]]]]
                                         [[a [Ha Hsa]] ->]]]]]].
    rewrite Hs. cbn [bind].
    replace (length lines <=? s) with false by (symmetry; apply Nat.leb_gt; exact Hl).
    rewrite Hq. cbn [bind]. rewrite Hb. cbn [bind negb]. cbv zeta.
    destruct (trim (join [SP] qLines)) as [ | q0 q] eqn:Eq; [congruence | ].
    cbn [isEmpty]. rewrite Ho. cbn [bind].
    replace (length opts <? 2) with false by (symmetry; apply Nat.ltb_ge; exact H2).
    rewrite Ha. cbn [bind]. rewrite Hsa. reflexivity.
Qed.

(** The answer scan returns behind every candidate, whatever it finds. *)
Lemma candidate_answer (lines : list str) (k : nat) (qLines opts : list str) (j' : nat) :
  candidate lines k qLines opts j' ->
  exists k' answers, answerBuffer lines j' k' answers.
Proof.
  intros _. unfold answerBuffer.
  destruct (skipNoise_total lines (gas lines) j' (gas_bound lines j')) as [a [Ha _]].
  destruct (scanAnswer_total lines (gas lines) a [] (gas_bound lines a))
    as [k' [answers [Hsa _]]].
  exists k', answers, a. split; assumption.
Qed.

Lemma cycle_emit_lt (lines : list str) (k k' : nat) (c : Flashcard) :
  cycle lines k = Val (k', Emit c) -> k < length lines.
Proof.
  intro H. apply cycle_emit_iff in H.
  destruct H as [qLines [opts [j' [answers [[s [j [Hs [Hl _]]]] _]]]]].
  unfold candidateStart in Hs.
  destruct (skipNoise_total lines (gas lines) k (gas_bound lines k)) as [s' [Hs' [Hle _]]].
  rewrite Hs in Hs'. injection Hs' as <-. lia.
Qed.

Lemma reached_cases (lines : list str) (i k : nat) :
  reached lines i k ->
  k = i
  \/ exists i' o,
       i < length lines /\ cycle lines i = Val (i', o) /\ o <> Halt
       /\ reached lines i' k.
Proof.
  intro H. destruct H as [i | i i' k o Hi Hc Ho Hr]; [left; reflexivity | right].
  exists i', o. repeat split; assumption.
Qed.

(** What the outer loop adds to its cards: the cards of the passes it
    makes. *)
Lemma segment_pushed (lines : list str) (fuel : nat) :
  forall i cards cs,
  length lines - i < fuel ->
  segment fuel lines i cards = Val cs ->
  exists new,
    cs = cards ++ new
    /\ forall c, In c new <->
                 exists k k', reached lines i k /\ cycle lines k = Val (k', Emit c).
Proof.
  induction fuel as [ | f IH]; intros i cards cs Hf H; [lia | ].
  cbn [segment] in H. destruct (i <? length lines) eqn:E.
  - apply Nat.ltb_lt in E.
    destruct (cycle_total lines i E) as [s [i' [o [_ [Hc [_ [Hlt _]]]]]]].
    rewrite Hc in H; cbn [bind] in H.
    assert (Hskip : o <> Halt -> (forall c0, o <> Emit c0) ->
                    forall c, (exists k k', reached lines i' k
                                            /\ cycle lines k = Val (k', Emit c))
                              <-> (exists k k', reached lines i k
                                                /\ cycle lines k = Val (k', Emit c))).
    { intros Ho He c. split; intros [k [k' [Hr Hk]]].
      - exists k, k'. split; [ | exact Hk]. exact (reached_pass _ _ _ _ _ E Hc Ho Hr).
      - destruct (reached_cases _ _ _ Hr) as [-> | [i2 [o2 [_ [Hc2 [_ Hr2]]]]]].
        + rewrite Hc in Hk. injection Hk as _ Hk. exfalso. exact (He c Hk).
        + rewrite Hc in Hc2. injection Hc2 as <- <-. exists k, k'. split; assumption. }
    destruct o as [ | | | | c0].
    + injection H as <-. exists []. split; [symmetry; apply app_nil_r | ].
      intro c. split; [intros [] | ].
      intros [k [k' [Hr Hk]]].
      destruct (reached_cases _ _ _ Hr) as [-> | [i2 [o2 [_ [Hc2 [Ho2 _]]]]]].
      * rewrite Hc in Hk. discriminate.
      * rewrite Hc in Hc2. injection Hc2 as _ <-. exact (Ho2 eq_refl).
    + destruct (IH i' cards cs ltac:(lia) H) as [new [Hn Hin]].
      exists new. split; [exact Hn | ]. intro c. rewrite Hin.
      apply Hskip; [discriminate | intros; discriminate].
    + destruct (IH i' cards cs ltac:(lia) H) as [new [Hn Hin]].
      exists new. split; [exact Hn | ]. intro c. rewrite Hin.
      apply Hskip; [discriminate | intros; discriminate].
    + destruct (IH i' cards cs ltac:(lia) H) as [new [Hn Hin]].
      exists new. split; [exact Hn | ]. intro c. rewrite Hin.
      apply Hskip; [discriminate | intros; discriminate].
    + destruct (IH i' (cards ++ [c0]) cs ltac:(lia) H) as [new [Hn Hin]].
      exists (c0 :: new). split; [rewrite Hn, <- app_assoc; reflexivity | ].
      intro c. cbn [In]. rewrite Hin. split.
      * intros [<- | [k [k' [Hr Hk]]]].
        -- exists i, i'. split; [apply reached_here | exact Hc].
        -- exists k, k'. split; [ | exact Hk].
           refine (reached_pass _ _ _ _ _ E Hc _ Hr). discriminate.
      * intros [k [k' [Hr Hk]]].
        destruct (reached_cases _ _ _ Hr) as [-> | [i2 [o2 [_ [Hc2 [_ Hr2]]]]]].
        -- rewrite Hc in Hk. injection Hk as _ Hk. left; exact Hk.
        -- rewrite Hc in Hc2. injection Hc2 as <- _. right. exists k, k'.
           split; assumption.
  - apply Nat.ltb_ge in E. injection H as <-.
    exists []. split; [symmetry; apply app_nil_r | ].
    intro c. split; [intros [] | ].
    intros [k [k' [Hr Hk]]].
    destruct (reached_cases _ _ _ Hr) as [-> | [i2 [o2 [Hi _]]]]; [ | lia].
    pose proof (cycle_emit_lt _ _ _ _ Hk). lia.
Qed.

(* ================================================================== *)
(** * The claims of the specification *)

(** C1 (defect of the code).  Scenario A: for the lines ["What is 2+2?"],
    ["A. 3"], ["B. 4"], ["C. 5"], ["정답: B"] the specification promises one
    card with the three options and the answer ["B"].  The line ["정답: B"]
    is an inline answer ([extractInlineAnswer] reads ["B"] from it), yet the
    continuation loop of the option scan takes every line that is no option
    line, so the code returns one card whose third option is
    ["C. 5 정답: B"] and whose answer is ["UNKNOWN"]. *)
Theorem scenarioA_inline_answer_swallowed :
  toLines scenarioA
  = map lit ["What is 2+2?"; "A. 3"; "B. 4"; "C. 5"; "정답: B"]%string
  /\ extractInlineAnswer (lit "정답: B") = Some (lit "B")
  /\ parseDocxContent scenarioA
     = Val [mkCard (lit "What is 2+2?")
              [lit "A. 3"; lit "B. 4"; lit "C. 5 정답: B"]
              (lit "UNKNOWN") None].
Proof. splits; vm_compute; reflexivity. Qed.

(** C2 (defect of the code).  Scenario D: for the lines ["Q1"], ["A. x"],
    ["B. y"], ["Q2"], ["A. p"], ["B. q"] the specification promises two
    cards, the second with the question ["Q2"].  The code returns one card:
    ["Q2"] is appended to the option ["B. y"], and the options of the second
    record become the third and fourth option of the first. *)
Theorem scenarioD_second_question_swallowed :
  toLines scenarioD = map lit ["Q1"; "A. x"; "B. y"; "Q2"; "A. p"; "B. q"]%string
  /\ parseDocxContent scenarioD
     = Val [mkCard (lit "Q1")
              [lit "A. x"; lit "B. y Q2"; lit "A. p"; lit "B. q"]
              (lit "UNKNOWN") None].
Proof. splits; vm_compute; reflexivity. Qed.

(** C3.  Every pass through the body of the outer loop leaves the cursor
    strictly greater than it found it, whatever the lines; and on every
    input [parseDocxContent] returns after at most as many passes as there
    are lines (more fuel than lines changes nothing). *)
Theorem cursor_progress :
  (forall lines i, i < length lines ->
     exists i' o, cycle lines i = Val (i', o) /\ i < i')
  /\ (forall rawText,
        let lines := toLines rawText in
        exists cards n,
          parseDocxContent rawText = Val cards
          /\ passes (gas lines) lines 0 = Val n /\ n <= length lines
          /\ forall fuel, length lines < fuel ->
               segment fuel lines 0 [] = Val cards).
Proof.
  split.
  - intros lines i Hi.
    destruct (cycle_total lines i Hi) as [s [i' [o [_ [Hc [_ [Hlt _]]]]]]].
    exists i', o. split; assumption.
  - intros rawText lines.
    destruct (parse_total rawText) as [cards [Hp _]].
    destruct (passes_bound lines (gas lines) 0 (gas_bound lines 0)) as [n [Hn Hb]].
    exists cards, n. splits; [exact Hp | exact Hn | lia | ].
    intros fuel Hf. rewrite <- Hp. unfold parseDocxContent. fold lines.
    apply segment_fuel; [lia | apply gas_bound].
Qed.

(** C4.  On every input [parseDocxContent] returns, and every card it
    returns has a question and an answer that are not empty, no option or
    between two and four of them, and no explanation.  The cards are those
    of the passes of the outer loop that push one.  A pass pushes a card
    exactly for a candidate that is not discarded (a question that is not
    empty and at least two options); behind every such candidate the answer
    scan returns its buffer and the card is pushed with [answer ||
    'UNKNOWN'] of the trimmed join of that very buffer: the sentinel when
    the buffer is empty or trims to empty, the trimmed join otherwise.  So
    the record is pushed whether or not an answer was collected. *)
Theorem emitted_cards_valid (rawText : str) :
  let lines := toLines rawText in
  exists cards,
    parseDocxContent rawText = Val cards
    /\ Forall (fun c =>
         question c <> [] /\ answer c <> []
         /\ (length (options c) = 0
             \/ 2 <= length (options c) /\ length (options c) <= 4)
         /\ explanation c = None) cards
    /\ (forall c,
          In c cards <->
          exists k k', reached lines 0 k /\ cycle lines k = Val (k', Emit c))
    /\ (forall k k' c,
          cycle lines k = Val (k', Emit c) <->
          exists qLines opts j' answers,
            candidate lines k qLines opts j' /\ answerBuffer lines j' k' answers
            /\ c = mkCard (trim (join [SP] qLines)) opts (finalAnswer answers) None)
    /\ (forall k qLines opts j',
          candidate lines k qLines opts j' ->
          exists k' answers,
            answerBuffer lines j' k' answers
            /\ cycle lines k
               = Val (k', Emit (mkCard (trim (join [SP] qLines)) opts
                                  (finalAnswer answers) None)))
    /\ (forall answers,
          answers = [] \/ trim (join [LF] answers) = [] ->
          finalAnswer answers = UNKNOWN)
    /\ (forall answers,
          trim (join [LF] answers) <> [] ->
          finalAnswer answers = trim (join [LF] answers)).
Proof.
  cbv zeta.
  destruct (parse_total rawText) as [cards [Hp Hv]].
  exists cards. split; [exact Hp | ]. split; [ | split; [ | split; [ | split; [ | split]]]].
  - apply (Forall_impl _ (P := validCard)); [ | exact Hv].
    intros c [Hq [Ha [_ [H2 [H4 He]]]]].
    splits; [exact Hq | exact Ha | right; split; assumption | exact He].
  - unfold parseDocxContent in Hp. cbv zeta in Hp.
    destruct (segment_pushed _ _ 0 [] cards (gas_bound _ 0) Hp) as [new [Hn Hin]].
    cbn [app] in Hn. subst new. exact Hin.
  - intros k k' c. apply cycle_emit_iff.
  - intros k qLines opts j' Hc.
    destruct (candidate_answer _ _ _ _ _ Hc) as [k' [answers Ha]].
    exists k', answers. split; [exact Ha | ].
    apply cycle_emit_iff. exists qLines, opts, j', answers.
    split; [exact Hc | split; [exact Ha | reflexivity]].
  - intros answers [-> | H]; [reflexivity | apply finalAnswer_sentinel; exact H].
  - intros answers H. unfold finalAnswer. cbv zeta.
    destruct (trim (join [LF] answers)); [congruence | reflexivity].
Qed.

(** C5.  The normalizer is idempotent. *)
Theorem normalizeMcqText_idempotent (raw : str) :
  normalizeMcqText (normalizeMcqText raw) = normalizeMcqText raw.
Proof.
  apply normalizeMcqText_fixpoint; rewrite normalizeMcqText_steps.
  - apply (replaceAll_plain _ _ answerBreak_shrinking answerBreak_conservative).
    apply (replaceAll_plain _ _ blankRun_shrinking blankRun_conservative).
    apply (replaceAll_plain _ _ optionBreak_shrinking optionBreak_conservative).
    apply stripped_plain.
  - apply breakAnswers_settled, squeezeBlank_settled. apply breakOptions_idem.
  - apply breakAnswers_noBlankRun, squeezeBlank_noBlankRun.
  - apply breakAnswers_idem.
Qed.

(** C6, as the specification states it, fails: a candidate with no option
    line behind it leaves the cursor at the end of the input, and one with a
    single option leaves it one past the end, not one line past where the
    candidate starts. *)
Lemma discarded_cursor_not_next_line :
  candidateStart [lit "Q1"; lit "Q2"] 0 = Val 0
  /\ cycle [lit "Q1"; lit "Q2"] 0 = Val (2, NoOptions)
  /\ 2 <> 0 + 1
  /\ candidateStart [lit "Q"; lit "A. x"; lit "more"] 0 = Val 0
  /\ cycle [lit "Q"; lit "A. x"; lit "more"] 0 = Val (4, FewOptions)
  /\ 4 <> 0 + 1.
Proof. splits; try (vm_compute; reflexivity); discriminate. Qed.

(** C6, amended.  When a pass discards its candidate, the cursor it leaves
    is: one line past the start of the candidate when the question is empty;
    the end of the input ([Math.max(i + 1, j)] with [j] at the end) when no
    option line was found; one past the end of the input ([j + 1]) when
    fewer than two options were collected.  In each case it is past the
    start of the candidate. *)
Theorem discarded_candidate_cursor (lines : list str) (i s i' : nat) (o : outcome) :
  candidateStart lines i = Val s ->
  cycle lines i = Val (i', o) ->
  match o with
  | EmptyQuestion => i' = s + 1
  | NoOptions => i' = length lines /\ s < i'
  | FewOptions => i' = length lines + 1 /\ s < i'
  | Halt => True
  | Emit _ => True
  end.
Proof.
  intros Hs Hc.
  destruct (Nat.lt_ge_cases i (length lines)) as [Hi | Hi].
  - destruct (cycle_total lines i Hi) as [s0 [i0 [o0 [Hs0 [Hc0 [_ [_ Hafter]]]]]]].
    rewrite Hs in Hs0. rewrite Hc in Hc0.
    injection Hs0 as <-. injection Hc0 as <- <-.
    destruct o; cbn [cursorAfter] in Hafter; try exact I.
    + destruct Hafter as [H1 H2]. split; [exact H2 | lia].
    + exact (proj2 Hafter).
    + destruct Hafter as [H1 H2]. split; [exact H2 | lia].
  - unfold cycle in Hc. rewrite Hs in Hc. cbn [bind] in Hc.
    unfold candidateStart in Hs.
    destruct (skipNoise_total lines (gas lines) i (gas_bound lines i))
      as [k [Hk [Hk1 _]]].
    rewrite Hs in Hk. injection Hk as <-.
    assert (E : (length lines <=? s) = true) by (apply Nat.leb_le; lia).
    rewrite E in Hc. injection Hc as <- <-. exact I.
Qed.

Lemma discarded_candidate_cursor_witness :
  3 = length [lit "A. x"; lit "Q1"; lit "Q2"] /\ 1 < 3.
Proof.
  apply (discarded_candidate_cursor [lit "A. x"; lit "Q1"; lit "Q2"] 1 1 3 NoOptions);
    vm_compute; reflexivity.
Defined.

(** C7, as the specification states it, fails: behind three options the
    repeated line ["B. 4"] is collected as the fourth option, and the answer
    is the sentinel. *)
Lemma scenarioB_answer_unknown :
  parseDocxContent scenarioB
  = Val [mkCard (lit "What is 2+2?")
           [lit "A. 3"; lit "B. 4"; lit "C. 5"; lit "B. 4"]
           (lit "UNKNOWN") None]
  /\ lit "UNKNOWN" <> lit "B. 4".
Proof. split; [vm_compute; reflexivity | discriminate]. Qed.

(** C7, amended.  Behind four options (the cap of the option scan) the
    repeated option line ["B. 4"] is the answer of the one card; behind the
    three options of scenario B it is the fourth option and the answer is
    ["UNKNOWN"]. *)
Theorem repeated_option_answer_after_four :
  parseDocxContent scenarioB4
  = Val [mkCard (lit "What is 2+2?")
           [lit "A. 3"; lit "B. 4"; lit "C. 5"; lit "D. 6"]
           (lit "B. 4") None]
  /\ parseDocxContent scenarioB
     = Val [mkCard (lit "What is 2+2?")
              [lit "A. 3"; lit "B. 4"; lit "C. 5"; lit "B. 4"]
              (lit "UNKNOWN") None].
Proof. split; vm_compute; reflexivity. Qed.

(** C8.  Neither function fails: on every input [parseDocxContent] returns
    a list of cards, also behind [normalizeMcqText], and every pass of the
    outer loop returns from every cursor; no index is read outside [lines]
    (that would be the [TypeError] of the model) and no loop runs on. *)
Theorem segmentation_total :
  (forall rawText, exists cards, parseDocxContent rawText = Val cards)
  /\ (forall rawText,
        exists cards, parseDocxContent (normalizeMcqText rawText) = Val cards)
  /\ (forall lines i, exists i' o, cycle lines i = Val (i', o)).
Proof.
  splits.
  - intro rawText. destruct (parse_total rawText) as [cards [H _]].
    exists cards; exact H.
  - intro rawText.
    destruct (parse_total (normalizeMcqText rawText)) as [cards [H _]].
    exists cards; exact H.
  - exact cycle_defined.
Qed.

(** C9 (defect of the code).  The load of App.tsx keeps the contract
    ([load_contract]); [loadCards] of the JavaScript viewer does not: for
    the array with no element it sets no error and leaves the loading text
    on the screen, where App.tsx reports that there is no valid card. *)
Theorem loadCards_empty_array_no_error :
  let st := loadCards (Body (JArr [])) (mkJsState [] None true) in
  jsCards st = [] /\ jsLoadError st = None /\ renderJs st = LoadingScreen
  /\ load false (Body (JArr [])) (mkState [] None true)
     = mkState [] (Some NoValidCard) false.
Proof. cbv zeta. splits; reflexivity. Qed.

(** C10.  On every input every card [parseDocxContent] returns has at least
    two and at most four options. *)
Theorem emitted_options_two_to_four (rawText : str) :
  exists cards,
    parseDocxContent rawText = Val cards
    /\ Forall (fun c => 2 <= length (options c) /\ length (options c) <= 4) cards.
Proof.
  destruct (parse_total rawText) as [cards [Hp Hv]].
  exists cards. split; [exact Hp | ].
  apply (Forall_impl _ (P := validCard)); [ | exact Hv].
  intros c [_ [_ [_ [H2 [H4 _]]]]]. split; assumption.
Qed.

(* ================================================================== *)
(** * Further properties *)

(** X3.  The two line classifiers (lines 18 and 19) are one function, and
    only the first two code units of a line decide it: a letter A to D and
    one of the three marks.  A line that repeats an option as the answer is
    therefore an option line as well. *)
Theorem classifiers_coincide (s : str) :
  isAnswerLine s = isOptionLine s
  /\ isOptionLine s
     = match s with
       | l :: q :: _ => isAD l && isMark q
       | _ => false
       end.
Proof.
  split; [reflexivity | ].
  rewrite isOptionLine_head. destruct s as [ | l [ | q r]]; reflexivity.
Qed.

(** ** The shape of the cards *)

Lemma optionHead_app (x t : str) :
  optionHead x = true -> optionHead (x ++ t) = true.
Proof. destruct x as [ | l [ | q r]]; simpl; try discriminate. exact (fun H => H). Qed.

Lemma optionHead_inv (x : str) :
  optionHead x = true ->
  exists l q r, x = l :: q :: r /\ isAD l = true /\ isMark q = true.
Proof.
  destruct x as [ | l [ | q r]]; simpl; try discriminate.
  intro H. apply andb_prop in H. exists l, q, r. split; [reflexivity | exact H].
Qed.

Lemma trimEnd_prefix (s : str) : exists w, s = trimEnd s ++ w.
Proof.
  exists (rev (takeSpaces (rev s))). unfold trimEnd.
  rewrite <- rev_app_distr, <- split_spaces, rev_involutive. reflexivity.
Qed.

Lemma trimEnd_keep2 (l q : cu) (r : str) :
  isSpace q = false -> exists r', trimEnd (l :: q :: r) = l :: q :: r'.
Proof.
  intro Hq. unfold trimEnd. cbn [rev].
  destruct (trimStart_app_solid (rev r) q Hq) as [r0 Hr0].
  rewrite trimStart_app_solid_head.
  - rewrite Hr0, rev_app_distr. cbn [rev app]. rewrite rev_app_distr.
    cbn [rev app]. exists (rev r0). reflexivity.
  - rewrite Hr0. destruct r0; discriminate.
Qed.

Lemma optionHead_trim (x : str) : optionHead x = true -> optionHead (trim x) = true.
Proof.
  intro H. destruct (optionHead_inv x H) as [l [q [r [-> [Hl Hq]]]]].
  unfold trim. rewrite (trimStart_solid l _ (isAD_solid l Hl)).
  destruct (trimEnd_keep2 l q r (isMark_solid q Hq)) as [r' ->].
  simpl. rewrite Hl, Hq. reflexivity.
Qed.

Lemma optionHead_trimEnd_inv (s : str) :
  optionHead (trimEnd s) = true -> optionHead s = true.
Proof.
  intro H. destruct (trimEnd_prefix s) as [w Hw]. rewrite Hw.
  apply optionHead_app. exact H.
Qed.

(** An option line is no inline answer: behind the letter comes a mark, and
    no keyword has one there. *)
Lemma option_not_inline (s : str) :
  trim s = s -> isOptionLine s = true -> extractInlineAnswer s = None.
Proof.
  intros Ht Ho. rewrite extractInlineAnswer_reading. unfold inlineAnswer.
  rewrite Ht. rewrite isOptionLine_head in Ho.
  destruct (optionHead_inv s Ho) as [l [q [r [-> [Hl Hq]]]]].
  assert (E : keyword (l :: q :: r) = None).
  { unfold keyword, kwJeongdap, kwDap, kwAnswer. cbn [litPrefix].
    unfold isAD in Hl. unfold isMark in Hq.
    apply andb_prop in Hl. destruct Hl as [H1 H2].
    apply N.leb_le in H1. apply N.leb_le in H2.
    assert (U : upcase l = l).
    { unfold upcase. replace ((97 <=? l) && (l <=? 122))%N with false; [reflexivity | ].
      symmetry. apply andb_false_intro1. apply N.leb_gt. lia. }
    rewrite U.
    change (upcase 51221%N) with 51221%N. change (upcase 45813%N) with 45813%N.
    change (upcase 65%N) with 65%N. change (upcase 110%N) with 78%N.
    replace (l =? 51221)%N with false by (symmetry; apply N.eqb_neq; lia).
    replace (l =? 45813)%N with false by (symmetry; apply N.eqb_neq; lia).
    destruct (l =? 65)%N; [ | reflexivity].
    assert (V : (upcase q =? 78)%N = false).
    { bool_hyps; subst; reflexivity. }
    rewrite V. reflexivity. }
  rewrite E. reflexivity.
Qed.

Lemma finalAnswer_headed (answers : list str) :
  headed answers -> optionHead (finalAnswer answers) = true.
Proof.
  destruct answers as [ | x rest]; [contradiction | ]. cbn [headed]. intro H.
  assert (Hj : optionHead (join [LF] (x :: rest)) = true).
  { destruct rest as [ | y rest]; cbn [join]; [exact H | ].
    apply optionHead_app. exact H. }
  pose proof (optionHead_trim _ Hj) as Ht.
  unfold finalAnswer.
  destruct (trim (join [LF] (x :: rest))) as [ | c r]; [discriminate | exact Ht].
Qed.

Lemma appendLast_headed (answers : list str) (t : str) :
  headed answers -> headed (appendLast answers t).
Proof.
  destruct answers as [ | x [ | y rest]]; cbn [appendLast headed];
    [contradiction | apply optionHead_app | exact (fun H => H)].
Qed.

Lemma headed_app (answers more : list str) :
  headed answers -> headed (answers ++ more).
Proof. destruct answers; [contradiction | exact (fun H => H)]. Qed.

Lemma questionLine_solid (x : str) : questionLine x -> solid x.
Proof.
  intros [Ht [Hn _]]. rewrite <- Ht. apply not_noise_solid. rewrite Ht. exact Hn.
Qed.

(** The question of a card is the join of its lines as it stands; it is
    no option line. *)
Lemma question_not_option (x : str) (rest : list str) :
  questionLine x -> optionHead (trim (join [SP] (x :: rest))) = false.
Proof.
  intros Hx. destruct (questionLine_solid x Hx) as [c [r [-> Hc]]].
  destruct Hx as [_ [_ Ho]]. rewrite isOptionLine_head in Ho.
  destruct (optionHead (trim _)) eqn:E; [ | reflexivity]. exfalso.
  unfold trim in E. apply optionHead_trimEnd_inv in E.
  match type of E with
  | context [trimStart ?z] =>
      replace (trimStart z) with z in E
        by (symmetry; destruct rest; cbn [join app]; apply trimStart_solid; exact Hc)
  end.
  destruct rest as [ | y rest]; cbn [join] in E; [congruence | ].
  destruct r as [ | d r]; cbn [app optionHead] in E, Ho.
  - apply andb_prop in E. destruct E as [_ E]. discriminate.
  - congruence.
Qed.

Opaque gas.

Section Shapes.

Variable lines : list str.

Lemma scanQuestion_shape (fuel : nat) :
  forall j q j' q',
  scanQuestion fuel lines j q = Val (j', q') ->
  exists extra, q' = q ++ extra /\ Forall questionLine extra.
Proof.
  induction fuel as [ | f IH]; intros j q j' q' H; [discriminate | ].
  cbn [scanQuestion] in H. destruct (j <? length lines).
  2:{ inversion H; subst. exists []. rewrite app_nil_r. split; constructor. }
  destruct (lineAt lines j) as [l | | ]; cbn [bind] in H; try discriminate.
  destruct (isNoiseLine (trim l)) eqn:N; [exact (IH _ _ _ _ H) | ].
  destruct (isOptionLine (trim l)) eqn:O.
  { inversion H; subst. exists []. rewrite app_nil_r. split; constructor. }
  assert (Hq : questionLine (trim l)) by (repeat split; [apply trim_idem | exact N | exact O]).
  destruct (skipNoise (gas lines) lines (j + 1)) as [k | | ]; cbn [bind] in H;
    try discriminate.
  destruct (optionAt lines k) as [b | | ]; cbn [bind] in H; try discriminate.
  destruct b.
  - inversion H; subst. exists [trim l]. split; [reflexivity | ].
    constructor; [exact Hq | constructor].
  - destruct (IH _ _ _ _ H) as [extra [-> He]].
    exists (trim l :: extra). rewrite <- app_assoc. split; [reflexivity | ].
    constructor; assumption.
Qed.

Lemma continuation_shape (fuel : nat) :
  forall k opt k' opt',
  continuation fuel lines k opt = Val (k', opt') ->
  (exists t, opt' = opt ++ t) /\ boundary lines k'.
Proof.
  induction fuel as [ | f IH]; intros k opt k' opt' H; [discriminate | ].
  cbn [continuation] in H. destruct (k <? length lines) eqn:E.
  2:{ inversion H; subst. split; [exists []; rewrite app_nil_r; reflexivity | ].
      right. apply Nat.ltb_ge in E. exact E. }
  destruct (lineAt lines k) as [l | | ] eqn:Hl; cbn [bind] in H; try discriminate.
  destruct (isNoiseLine (trim l)) eqn:N; [exact (IH _ _ _ _ H) | ].
  destruct (isOptionLine (trim l)) eqn:O.
  - inversion H; subst. split; [exists []; rewrite app_nil_r; reflexivity | ].
    left. unfold optionAt. rewrite E, Hl. cbn [bind]. rewrite O. reflexivity.
  - destruct (IH _ _ _ _ H) as [[t ->] Hb]. split; [ | exact Hb].
    exists (([SP] ++ trim l) ++ t). rewrite <- app_assoc. reflexivity.
Qed.

Lemma boundary_line (j : nat) (l : str) :
  boundary lines j -> lineAt lines j = Val l ->
  isOptionLine (trim l) = true /\ isNoiseLine (trim l) = false
  /\ isNoiseLine l = false.
Proof.
  intros [Hb | Hb] Hl.
  - unfold optionAt in Hb. destruct (j <? length lines); [ | discriminate].
    rewrite Hl in Hb. cbn [bind] in Hb. injection Hb as O.
    pose proof (option_not_noise (trim l) (trim_idem l) O) as N.
    repeat split; [exact O | exact N | ].
    rewrite <- isNoiseLine_trim. exact N.
  - destruct (lineAt_Val lines j l Hl) as [_ Hlt]. lia.
Qed.

Lemma scanOptions_shape (fuel : nat) :
  forall j opts j' opts',
  boundary lines j ->
  scanOptions fuel lines j opts = Val (j', opts') ->
  (exists more, opts' = opts ++ more /\ Forall (fun o => optionHead o = true) more)
  /\ boundary lines j'.
Proof.
  induction fuel as [ | f IH]; intros j opts j' opts' Hb H; [discriminate | ].
  cbn [scanOptions] in H. destruct (j <? length lines) eqn:E.
  2:{ inversion H; subst. split; [ | exact Hb].
      exists []. rewrite app_nil_r. split; constructor. }
  destruct (lineAt lines j) as [l | | ] eqn:Hl; cbn [bind] in H; try discriminate.
  destruct (boundary_line j l Hb Hl) as [O [N _]].
  rewrite N, O in H. cbn [negb] in H.
  destruct (continuation (gas lines) lines (j + 1) (trim l)) as [[k opt] | | ] eqn:Hc;
    cbn [bind] in H; try discriminate.
  destruct (continuation_shape _ _ _ _ _ Hc) as [[t ->] Hk].
  assert (Ho : optionHead (trim l ++ t) = true).
  { apply optionHead_app. rewrite <- isOptionLine_head. exact O. }
  match type of H with
  | context [4 <=? ?n] => destruct (4 <=? n)
  end.
  - inversion H; subst. split; [ | exact Hk].
    exists [trim l ++ t]. split; [reflexivity | ].
    constructor; [exact Ho | constructor].
  - destruct (IH _ _ _ _ Hk H) as [[more [-> Hm]] Hj]. split; [ | exact Hj].
    exists ((trim l ++ t) :: more). rewrite <- app_assoc. split; [reflexivity | ].
    constructor; assumption.
Qed.

Lemma scanAnswer_headed (fuel : nat) :
  forall a answers a' answers',
  headed answers ->
  scanAnswer fuel lines a answers = Val (a', answers') -> headed answers'.
Proof.
  induction fuel as [ | f IH]; intros a answers a' answers' Hh H; [discriminate | ].
  cbn [scanAnswer] in H. destruct (a <? length lines).
  2:{ inversion H; subst. exact Hh. }
  destruct (lineAt lines a) as [l | | ]; cbn [bind] in H; try discriminate.
  destruct (isNoiseLine (trim l)); [exact (IH _ _ _ _ Hh H) | ].
  destruct (truthy (extractInlineAnswer (trim l))).
  { inversion H; subst. apply headed_app. exact Hh. }
  match type of H with
  | bind ?x _ = _ => destruct x as [stop | | ]; cbn [bind] in H; try discriminate
  end.
  destruct stop; [inversion H; subst; exact Hh | ].
  refine (IH _ _ _ _ _ H).
  destruct (isAnswerLine (trim l)); [apply headed_app; exact Hh | ].
  destruct (0 <? length answers); [apply appendLast_headed; exact Hh | exact Hh].
Qed.

(** The answer scan starts on an option line or behind the last line: its
    buffer stays empty, or starts with that option line. *)
Lemma scanAnswer_first (fuel a a' : nat) (answers' : list str) :
  boundary lines a ->
  scanAnswer fuel lines a [] = Val (a', answers') ->
  answers' = [] \/ headed answers'.
Proof.
  intros Hb H. destruct fuel as [ | f]; [discriminate | ].
  cbn [scanAnswer] in H. destruct (a <? length lines).
  2:{ inversion H; subst. left; reflexivity. }
  destruct (lineAt lines a) as [l | | ] eqn:Hl; cbn [bind] in H; try discriminate.
  destruct (boundary_line a l Hb Hl) as [O [N _]].
  rewrite N in H.
  rewrite (option_not_inline (trim l) (trim_idem l) O) in H. cbn [truthy] in H.
  assert (A : isAnswerLine (trim l) = true) by exact O.
  rewrite A in H. cbn [negb andb bind app] in H.
  right. refine (scanAnswer_headed _ _ _ _ _ _ H).
  cbn [headed]. rewrite <- isOptionLine_head. exact O.
Qed.

Lemma skipNoise_boundary (fuel j a : nat) :
  boundary lines j -> skipNoise fuel lines j = Val a -> a = j.
Proof.
  intros Hb H. destruct fuel as [ | f]; [discriminate | ].
  cbn [skipNoise] in H. destruct (j <? length lines); [ | congruence].
  destruct (lineAt lines j) as [l | | ] eqn:Hl; cbn [bind] in H; try discriminate.
  destruct (boundary_line j l Hb Hl) as [_ [_ N]]. rewrite N in H. congruence.
Qed.

(** A pass that pushes a card: what its buffers are like. *)
Lemma cycle_emit (i i' : nat) (c : Flashcard) :
  cycle lines i = Val (i', Emit c) ->
  exists x rest opts answers,
    c = cardOf (x :: rest) opts answers
    /\ Forall questionLine (x :: rest)
    /\ Forall (fun o => optionHead o = true) opts
    /\ (answers = [] \/ headed answers).
Proof.
  unfold cycle, candidateStart. intro H.
  destruct (skipNoise (gas lines) lines i) as [s | | ]; cbn [bind] in H;
    try discriminate.
  destruct (length lines <=? s); [discriminate | ].
  destruct (scanQuestion (gas lines) lines s []) as [[j qLines] | | ] eqn:Hq;
    cbn [bind] in H; try discriminate.
  destruct (optionAt lines j) as [b | | ] eqn:Hb; cbn [bind] in H; try discriminate.
  destruct b; cbn [negb] in H; [ | discriminate].
  destruct (isEmpty (trim (join [SP] qLines))) eqn:Q; [discriminate | ].
  destruct (scanOptions (gas lines) lines j []) as [[j' opts] | | ] eqn:Ho;
    cbn [bind] in H; try discriminate.
  destruct (length opts <? 2); [discriminate | ].
  destruct (skipNoise (gas lines) lines j') as [a | | ] eqn:Ha; cbn [bind] in H;
    try discriminate.
  destruct (scanAnswer (gas lines) lines a []) as [[a1 answers] | | ] eqn:Hs;
    cbn [bind] in H; try discriminate.
  inversion H; subst.
  destruct (scanQuestion_shape _ _ _ _ _ Hq) as [extra [He Hx]]. cbn [app] in He.
  subst qLines.
  destruct (scanOptions_shape _ _ _ _ _ (or_introl Hb) Ho) as [[more [Hm Hf]] Hj'].
  cbn [app] in Hm. subst opts.
  rewrite (skipNoise_boundary _ _ _ Hj' Ha) in Hs.
  pose proof (scanAnswer_first _ _ _ _ Hj' Hs) as Hans.
  destruct extra as [ | x rest]; [discriminate | ].
  exists x, rest, more, answers. repeat split; assumption.
Qed.

Lemma segment_Forall (P : Flashcard -> Prop) :
  (forall i i' c, cycle lines i = Val (i', Emit c) -> P c) ->
  forall fuel i cards cs,
  segment fuel lines i cards = Val cs -> Forall P cards -> Forall P cs.
Proof.
  intro HP. induction fuel as [ | f IH]; intros i cards cs H Hc; [discriminate | ].
  cbn [segment] in H. destruct (i <? length lines); [ | congruence].
  destruct (cycle lines i) as [[i' o] | | ] eqn:E; cbn [bind] in H; try discriminate.
  destruct o; try (exact (IH _ _ _ H Hc)); [congruence | ].
  apply (IH _ _ _ H). apply Forall_app. split; [exact Hc | ].
  constructor; [exact (HP _ _ _ E) | constructor].
Qed.

End Shapes.

Transparent gas.

Lemma parse_Forall (P : Flashcard -> Prop) (rawText : str) (cards : list Flashcard) :
  (forall lines i i' c, cycle lines i = Val (i', Emit c) -> P c) ->
  parseDocxContent rawText = Val cards -> Forall P cards.
Proof.
  intros HP Hp. unfold parseDocxContent in Hp.
  exact (segment_Forall _ P (HP _) _ _ _ _ Hp (Forall_nil _)).
Qed.

(** ** The inline answer is a list of letters *)

Lemma splitOn_app_sep (p : cu -> bool) (a b : str) (c : cu) :
  Forall (fun x => p x = false) a -> p c = true ->
  splitOn p (a ++ c :: b) = a :: splitOn p b.
Proof.
  intros Ha Hc. induction Ha as [ | x a Hx _ IH]; cbn [app splitOn].
  - rewrite Hc. reflexivity.
  - rewrite Hx, IH. reflexivity.
Qed.

Lemma splitOn_none (p : cu -> bool) (a : str) :
  Forall (fun x => p x = false) a -> splitOn p a = [a].
Proof.
  induction 1 as [ | x a Hx _ IH]; cbn [splitOn]; [reflexivity | ].
  rewrite Hx, IH. reflexivity.
Qed.

Lemma trimEnd_spaces_behind (l : cu) (w : str) :
  isSpace l = false -> spaces w -> trimEnd (l :: w) = [l].
Proof.
  intros Hl Hw. unfold trimEnd. cbn [rev].
  rewrite trimStart_app_spaces.
  - cbn [trimStart]. rewrite Hl. reflexivity.
  - apply Forall_rev. exact Hw.
Qed.

Lemma trim_letter (w2 w : str) (l : cu) :
  spaces w2 -> isSpace l = false -> spaces w -> trim ((w2 ++ [l]) ++ w) = [l].
Proof.
  intros H2 Hl Hw. unfold trim. rewrite <- app_assoc.
  rewrite (trimStart_app_spaces _ _ H2). cbn [app trimStart]. rewrite Hl.
  apply trimEnd_spaces_behind; assumption.
Qed.

Lemma spaces_no_sep (w : str) : spaces w -> Forall (fun x => isSep x = false) w.
Proof.
  intro H. eapply Forall_impl; [ | exact H]. intros x Hx. cbv beta in Hx.
  destruct (isSep x) eqn:E; [ | reflexivity].
  rewrite (isSep_solid x E) in Hx. discriminate.
Qed.

Lemma spaces_no_letter (w : str) : spaces w -> filter isADi w = [].
Proof.
  induction 1 as [ | x w Hx _ IH]; cbn [filter]; [reflexivity | ].
  rewrite (space_not_class isADi x isADi_solid Hx). exact IH.
Qed.

Lemma iters_letters (t : str) :
  iters t ->
  forall (p : str) (x : cu),
  Forall (fun c => isSep c = false) p ->
  (forall w, spaces w -> trim (p ++ w) = [x]) ->
  map trim (splitOn isSep (p ++ t)) = [x] :: map (fun l => [l]) (filter isADi t).
Proof.
  induction 1 as [ | w1 w2 t c l H1 Hc H2 Hl Ht IH]; intros p x Hp Hx.
  - rewrite app_nil_r, (splitOn_none _ _ Hp). cbn [map filter].
    rewrite <- (app_nil_r p), (Hx [] (Forall_nil _)). reflexivity.
  - rewrite app_assoc, splitOn_app_sep;
      [ | apply Forall_app; split; [exact Hp | apply spaces_no_sep; exact H1]
        | exact Hc].
    cbn [map]. rewrite (Hx w1 H1).
    change (w2 ++ l :: t) with (w2 ++ [l] ++ t). rewrite app_assoc.
    rewrite (IH (w2 ++ [l]) l).
    + f_equal. rewrite filter_app, (spaces_no_letter w1 H1). cbn [app filter].
      rewrite (isSep_not_ADi c Hc).
      rewrite <- app_assoc, filter_app, (spaces_no_letter w2 H2). cbn [app filter].
      rewrite Hl. reflexivity.
    + apply Forall_app. split; [apply spaces_no_sep; exact H2 | ].
      constructor; [ | constructor].
      destruct (isSep l) eqn:E; [ | reflexivity].
      rewrite (isSep_not_ADi l E) in Hl. discriminate.
    + intros w Hw. apply trim_letter; [exact H2 | apply isADi_solid; exact Hl | exact Hw].
Qed.

Lemma filter_singletons (ls : list cu) :
  filter (fun x => negb (isEmpty x)) (map (fun l : cu => [l]) ls)
  = map (fun l => [l]) ls.
Proof. induction ls as [ | l ls IH]; cbn [map filter isEmpty negb]; [ | rewrite IH]; reflexivity. Qed.

Lemma letterList_nonempty (l : cu) (ls : list cu) : letterList (l :: ls) <> [].
Proof. unfold letterList. destruct ls; cbn [map join app]; discriminate. Qed.

(** What lines 24 to 30 make of group 1: the letters of the line, in their
    order and case, joined by a comma and a space. *)
Lemma inlineAnswer_letters (s v : str) :
  inlineAnswer s = Some v ->
  exists ls, ls <> [] /\ Forall (fun l => isADi l = true) ls /\ v = letterList ls.
Proof.
  unfold inlineAnswer. intro H.
  destruct (keyword (trim s)) as [r1 | ]; [ | discriminate].
  cbv zeta in H.
  match type of H with
  | match ?r3 with _ => _ end = _ => destruct r3 as [ | l r4]; [discriminate | ]
  end.
  destruct (isADi l) eqn:Hl; [ | discriminate].
  destruct (isEmpty (trimStart (lettersTail r4))); [ | discriminate].
  destruct (lettersTail_spec r4) as [t [Ht [Hr4 _]]].
  assert (G : consumed (l :: r4) (lettersTail r4) = l :: t).
  { rewrite Hr4 at 1. change (l :: t ++ lettersTail r4) with ((l :: t) ++ lettersTail r4).
    apply consumed_app. }
  rewrite G in H.
  change (l :: t) with ([l] ++ t) in H.
  rewrite (iters_letters t Ht [l] l) in H.
  - change ([l] :: map (fun l0 : cu => [l0]) (filter isADi t))
      with (map (fun l0 : cu => [l0]) (l :: filter isADi t)) in H.
    rewrite filter_singletons in H.
    fold (letterList (l :: filter isADi t)) in H.
    destruct (isEmpty (letterList (l :: filter isADi t))); [discriminate | ].
    inversion H; subst. exists (l :: filter isADi t).
    splits; [discriminate | | reflexivity].
    constructor; [exact Hl | ].
    apply Forall_forall. intros x Hx. apply filter_In in Hx. exact (proj2 Hx).
  - constructor; [ | constructor].
    destruct (isSep l) eqn:E; [ | reflexivity].
    rewrite (isSep_not_ADi l E) in Hl. discriminate.
  - intros w Hw. apply (trim_letter [] w l); [constructor | | exact Hw].
    apply isADi_solid. exact Hl.
Qed.

(** ** The converter component *)

Lemma optionAt_In (lines : list str) (j : nat) :
  optionAt lines j = Val true ->
  exists l, In l lines /\ isOptionLine (trim l) = true.
Proof.
  unfold optionAt. destruct (j <? length lines); [ | discriminate].
  destruct (lineAt lines j) as [l | | ] eqn:Hl; cbn [bind]; try discriminate.
  intro H. injection H as O.
  exists l. split; [ | exact O].
  apply (nth_error_In lines j). exact (proj1 (lineAt_Val _ _ _ Hl)).
Qed.

Opaque gas.

Lemma cycle_emit_option (lines : list str) (i i' : nat) (c : Flashcard) :
  cycle lines i = Val (i', Emit c) ->
  exists l, In l lines /\ isOptionLine (trim l) = true.
Proof.
  unfold cycle, candidateStart. intro H.
  destruct (skipNoise (gas lines) lines i) as [s | | ]; cbn [bind] in H;
    try discriminate.
  destruct (length lines <=? s); [discriminate | ].
  destruct (scanQuestion (gas lines) lines s []) as [[j qLines] | | ];
    cbn [bind] in H; try discriminate.
  destruct (optionAt lines j) as [b | | ] eqn:Hb; cbn [bind] in H; try discriminate.
  destruct b; cbn [negb] in H; [ | discriminate].
  exact (optionAt_In _ _ Hb).
Qed.

Transparent gas.

(** Lines without an option line give no card. *)
Lemma segment_no_option (lines : list str) :
  (forall l, In l lines -> isOptionLine (trim l) = false) ->
  forall fuel i cards cs, segment fuel lines i cards = Val cs -> cs = cards.
Proof.
  intro Hno. induction fuel as [ | f IH]; intros i cards cs H; [discriminate | ].
  cbn [segment] in H. destruct (i <? length lines); [ | congruence].
  destruct (cycle lines i) as [[i' o] | | ] eqn:E; cbn [bind] in H; try discriminate.
  destruct o; try (exact (IH _ _ _ H)); [congruence | ].
  destruct (cycle_emit_option _ _ _ _ E) as [l [Hl Ho]].
  rewrite (Hno l Hl) in Ho. discriminate.
Qed.

Lemma In_splitOn (p : cu -> bool) (s piece : str) (x : cu) :
  In piece (splitOn p s) -> In x piece -> In x s.
Proof.
  revert piece. induction s as [ | c r IH]; intros piece Hp Hx.
  - cbn [splitOn] in Hp. destruct Hp as [<- | []]. exact Hx.
  - cbn [splitOn] in Hp. destruct (p c).
    + destruct Hp as [<- | Hp]; [contradiction | ]. right. exact (IH _ Hp Hx).
    + destruct (splitOn p r) as [ | first rest] eqn:E.
      * destruct Hp as [<- | []]. destruct Hx as [<- | []]. left; reflexivity.
      * destruct Hp as [<- | Hp].
        -- destruct Hx as [<- | Hx]; [left; reflexivity | right].
           apply (IH first); [left; reflexivity | exact Hx].
        -- right. apply (IH piece); [right; exact Hp | exact Hx].
Qed.

Lemma In_trimEnd (s : str) (x : cu) : In x (trimEnd s) -> In x s.
Proof.
  intro H. destruct (trimEnd_prefix s) as [w Hw]. rewrite Hw.
  apply in_or_app. left; exact H.
Qed.

Lemma In_trim (s : str) (x : cu) : In x (trim s) -> In x s.
Proof. intro H. apply In_trimStart. apply In_trimEnd. exact H. Qed.

Lemma In_stripped (raw : str) (x : cu) :
  In x (replaceChar NBSP SP (removeAll CR raw)) -> x = SP \/ In x raw.
Proof.
  unfold replaceChar, removeAll. intro H. apply in_map_iff in H.
  destruct H as [y [Hy Hin]]. apply filter_In in Hin. destruct Hin as [Hin _].
  cbv beta in Hy. subst x.
  destruct (y =? NBSP)%N; [left; reflexivity | right; assumption].
Qed.

Lemma In_toLines (rawText l : str) (x : cu) :
  In l (toLines rawText) -> In x l -> x = SP \/ In x rawText.
Proof.
  unfold toLines. intros Hl Hx. apply in_map_iff in Hl.
  destruct Hl as [piece [<- Hp]]. apply In_trimEnd in Hx.
  unfold replaceChar in Hx. apply in_map_iff in Hx. destruct Hx as [y [Hy Hin]].
  pose proof (In_splitOn _ _ _ _ Hp Hin) as Hr.
  unfold removeAll in Hr. apply filter_In in Hr. destruct Hr as [Hr _].
  cbv beta in Hy. subst x.
  destruct (y =? NBSP)%N; [left; reflexivity | right; assumption].
Qed.

Lemma In_normalizeMcqText (raw : str) (x : cu) :
  In x (normalizeMcqText raw) -> x = LF \/ x = SP \/ In x raw.
Proof.
  rewrite normalizeMcqText_reading. intro H.
  apply (replaceAll_In _ answerBreak_shrinking answerBreak_conservative) in H.
  destruct H as [-> | H]; [left; reflexivity | ].
  apply (replaceAll_In _ blankRun_shrinking blankRun_conservative) in H.
  destruct H as [-> | H]; [left; reflexivity | ].
  apply (replaceAll_In _ optionBreak_shrinking optionBreak_conservative) in H.
  destruct H as [-> | H]; [left; reflexivity | ].
  right. apply In_stripped. exact H.
Qed.

(** Without one of the letters A to D there is no option line, and no card. *)
Lemma parse_without_letters (rawText : str) :
  Forall (fun c => isAD c = false) rawText -> parseDocxContent rawText = Val [].
Proof.
  intro Hno. destruct (parse_total rawText) as [cards [Hp _]]. rewrite Hp.
  f_equal. unfold parseDocxContent in Hp.
  apply (segment_no_option (toLines rawText)) in Hp; [exact Hp | ].
  intros l Hl. rewrite isOptionLine_head.
  destruct (optionHead (trim l)) eqn:E; [ | reflexivity]. exfalso.
  destruct (optionHead_inv _ E) as [a [q [r [Ht [Ha _]]]]].
  assert (Hin : In a l) by (apply In_trim; rewrite Ht; left; reflexivity).
  destruct (In_toLines _ _ _ Hl Hin) as [-> | Hr]; [discriminate | ].
  rewrite Forall_forall in Hno. rewrite (Hno a Hr) in Ha. discriminate.
Qed.

Lemma field_cardJson (c : Flashcard) :
  field (cardJson c) kQuestion = Some (JStr (question c))
  /\ field (cardJson c) kOptions = Some (JArr (map JStr (options c)))
  /\ field (cardJson c) kAnswer = Some (JStr (answer c))
  /\ field (cardJson c) kExplanation
     = Some (match explanation c with Some e => JStr e | None => JNull end).
Proof. repeat split; reflexivity. Qed.

Lemma mapRes_strings (l : list str) : mapRes toStr (map JStr l) = Val l.
Proof.
  induction l as [ | x rest IH]; [reflexivity | ].
  cbn [map mapRes toStr bind]. cbn [map mapRes] in IH. rewrite IH. reflexivity.
Qed.

Lemma normalizeCard_cardJson (c : Flashcard) :
  trim (question c) = question c -> trim (answer c) = answer c ->
  normalizeCard (cardJson c) = Val (viewCard c).
Proof.
  intros Hq Ha. unfold normalizeCard.
  destruct (field_cardJson c) as [E1 [E2 [E3 E4]]].
  rewrite E1, E2, E3, E4. cbn [orEmpty toStr bind]. rewrite mapRes_strings.
  cbn [bind]. rewrite Hq, Ha. unfold viewCard.
  destruct (explanation c); reflexivity.
Qed.

(** What the viewer needs of a card to keep it as it is. *)
Lemma cycle_emit_clean (lines : list str) (i i' : nat) (c : Flashcard) :
  cycle lines i = Val (i', Emit c) ->
  trim (question c) = question c /\ trim (answer c) = answer c.
Proof.
  intro H. destruct (cycle_emit _ _ _ _ H) as [x [rest [opts [answers [-> _]]]]].
  unfold cardOf. cbn [question answer]. split; [apply trim_idem | ].
  unfold finalAnswer.
  destruct (trim (join [LF] answers)) as [ | a r] eqn:E; cbn [isEmpty].
  - reflexivity.
  - rewrite <- E. apply trim_idem.
Qed.

(** ** The viewer's controls *)

Lemma handleNext_inRange (v : Viewer) :
  inRange v -> cards (view v) <> [] -> inRange (handleNext v).
Proof.
  intros [H0 H1] Hne. destruct H1 as [H1 | H1]; [contradiction | ].
  unfold inRange, handleNext, cardCount in *. cbn [currentIndex view].
  split; [lia | right; lia].
Qed.

Lemma handlePrev_inRange (v : Viewer) : inRange v -> inRange (handlePrev v).
Proof.
  intros [H0 H1]. unfold inRange, handlePrev, cardCount in *. cbn [currentIndex view].
  split; [lia | destruct H1 as [H1 | H1]; [left; exact H1 | right; lia]].
Qed.

Lemma loaded_inRange (cancelled : bool) (r : response) (v : Viewer) :
  inRange v -> inRange (loaded cancelled r v).
Proof.
  intros [H0 H1]. unfold loaded, load.
  destruct cancelled; [split; [exact H0 | exact H1] | ].
  destruct (loadTry r) as [e | normalized] eqn:E.
  - split; [exact H0 | left; reflexivity].
  - split; [cbn; lia | ]. cbn [view cards currentIndex]. unfold cardCount.
    cbn [view cards].
    destruct normalized as [ | c rest]; [left; reflexivity | right; cbn [length]; lia].
Qed.

Lemma render_card (st : ViewState) : render st = CardScreen -> cards st <> [].
Proof.
  unfold render. destruct (isLoading st); [discriminate | ].
  destruct (loadError st); [discriminate | ].
  destruct (cards st); [discriminate | discriminate].
Qed.

Lemma step_inRange (e : event) (v : Viewer) : inRange v -> inRange (step e v).
Proof.
  intro H. destruct e as [cancelled r | k | | | | | ]; cbn [step].
  - apply loaded_inRange; exact H.
  - destruct k; cbn [handleKeyPress]; try exact H.
    + destruct (0 <? currentIndex v)%Z; [apply handlePrev_inRange | ]; exact H.
    + destruct (currentIndex v <? cardCount v - 1)%Z eqn:E; [ | exact H].
      apply handleNext_inRange; [exact H | ].
      apply Z.ltb_lt in E. unfold cardCount in E.
      destruct (cards (view v)); [cbn in E; destruct H; lia | discriminate].
  - destruct (render (view v)); exact H.
  - destruct (render (view v)); try exact H. cbn [click].
    destruct (currentIndex v =? 0)%Z; [exact H | apply handlePrev_inRange; exact H].
  - destruct (render (view v)) eqn:R; try exact H. cbn [click].
    destruct (currentIndex v =? cardCount v - 1)%Z; [exact H | ].
    apply handleNext_inRange; [exact H | apply render_card; exact R].
  - destruct (render (view v)); exact H.
  - destruct (render (view v)); try exact H. cbn [click].
    destruct (explanationButton v); exact H.
Qed.

Lemma run_inRange (es : list event) (v : Viewer) : inRange v -> inRange (run es v).
Proof.
  revert v. induction es as [ | e es IH]; intros v H; [exact H | ].
  unfold run. cbn [fold_left]. apply IH. apply step_inRange. exact H.
Qed.

Lemma inRange_currentCard (v : Viewer) :
  inRange v -> cards (view v) <> [] -> exists c, currentCard v = Some c.
Proof.
  intros [H0 H1] Hne. destruct H1 as [H1 | H1]; [contradiction | ].
  unfold currentCard. replace (currentIndex v <? 0)%Z with false
    by (symmetry; apply Z.ltb_ge; exact H0).
  destruct (nth_error (cards (view v)) (Z.to_nat (currentIndex v))) as [c | ] eqn:E;
    [exists c; reflexivity | ].
  apply nth_error_None in E. unfold cardCount in H1. lia.
Qed.

(** ** The controls of the JavaScript viewer *)













(** ** What the normalizer keeps and what it never writes *)

Lemma squash_takeSpaces (s : str) : squash (takeSpaces s) = [].
Proof. apply squash_spaces. apply takeSpaces_all. Qed.

Lemma squash_dropLF (s : str) : squash (dropLF s) = squash s.
Proof.
  induction s as [ | c r IH]; [reflexivity | ].
  cbn [dropLF]. destruct (N.eqb_spec c LF) as [-> | Hc]; [ | reflexivity].
  rewrite IH. symmetry. apply squash_space. reflexivity.
Qed.

Lemma squash_stripped (raw : str) : squash (stripped raw) = squash raw.
Proof.
  unfold stripped, replaceChar, removeAll.
  induction raw as [ | c r IH]; [reflexivity | ].
  cbn [filter]. destruct (N.eqb_spec c CR) as [-> | Hc]; cbn [negb].
  - rewrite IH. symmetry. apply squash_space. reflexivity.
  - cbn [map]. destruct (N.eqb_spec c NBSP) as [-> | Hn].
    + rewrite (squash_space SP), (squash_space NBSP) by reflexivity. exact IH.
    + unfold squash in *. cbn [filter]. rewrite IH. reflexivity.
Qed.

Lemma squash_breakOptions (t : str) : squash (breakOptions t) = squash t.
Proof.
  remember (length t) as n eqn:Hn. revert t Hn.
  induction n as [n IH] using lt_wf_ind. intros t Hn.
  destruct t as [ | c r]; [reflexivity | ].
  destruct (optionBreak (c :: r)) as [[rep rest] | ] eqn:E.
  - destruct (optionBreak_inv _ _ _ _ E) as [Hc [l [q [r' [Hr [Hl [Hq [-> ->]]]]]]]].
    rewrite (breakOptions_hit c l q r r' Hc Hr Hl Hq).
    change (c :: LF :: l :: q :: takeSpaces r' ++ breakOptions (trimStart r'))
      with ([c; LF; l; q] ++ takeSpaces r' ++ breakOptions (trimStart r')).
    rewrite !squash_app, squash_takeSpaces.
    rewrite (IH (length (trimStart r'))); [ | | reflexivity].
    + change (c :: r) with ([c] ++ r). rewrite squash_app.
      rewrite <- (squash_trimStart r), Hr.
      change (l :: q :: r') with ([l; q] ++ r'). rewrite squash_app, squash_trimStart.
      change [c; LF; l; q] with ([c] ++ [LF] ++ [l; q]). rewrite !squash_app.
      rewrite (squash_space LF []) by reflexivity.
      change (squash []) with (@nil cu). cbn [app]. rewrite <- app_assoc. reflexivity.
    + subst n. cbn [length].
      pose proof (trimStart_length r') as H1. pose proof (trimStart_length r) as H2.
      rewrite Hr in H2. cbn [length] in H2. lia.
  - rewrite (breakOptions_skip _ _ E).
    unfold squash in *. cbn [filter].
    rewrite (IH (length r)); [reflexivity | subst n; cbn [length]; lia | reflexivity].
Qed.

Lemma squash_squeezeBlank (t : str) : squash (squeezeBlank t) = squash t.
Proof.
  remember (length t) as n eqn:Hn. revert t Hn.
  induction n as [n IH] using lt_wf_ind. intros t Hn.
  destruct t as [ | c r]; [reflexivity | ].
  destruct (blankRun (c :: r)) as [[rep rest] | ] eqn:E.
  - destruct (blankRun_inv _ _ _ E) as [r0 [H0 [-> ->]]].
    rewrite H0, squeezeBlank_hit.
    change (LF :: LF :: squeezeBlank (dropLF r0)) with ([LF; LF] ++ squeezeBlank (dropLF r0)).
    change (LF :: LF :: LF :: r0) with ([LF; LF; LF] ++ r0).
    rewrite !squash_app.
    rewrite (IH (length (dropLF r0))); [ | | reflexivity].
    + rewrite squash_dropLF. reflexivity.
    + subst n. rewrite H0. cbn [length]. pose proof (dropLF_length r0). lia.
  - rewrite (squeezeBlank_skip _ _ E).
    unfold squash in *. cbn [filter].
    rewrite (IH (length r)); [reflexivity | subst n; cbn [length]; lia | reflexivity].
Qed.

Lemma noBlankRun_no_three (t a b : str) :
  noBlankRun t = true -> t <> a ++ LF :: LF :: LF :: b.
Proof.
  intros H E. subst t. apply noBlankRun_suffix in H.
  cbn [noBlankRun blankRun] in H.
  change (LF =? LF)%N with true in H. cbn [andb] in H. discriminate.
Qed.

Lemma removeAll_idem (c : cu) (s : str) : removeAll c (removeAll c s) = removeAll c s.
Proof.
  unfold removeAll. induction s as [ | x s IH]; [reflexivity | ].
  cbn [filter]. destruct (negb (x =? c)%N) eqn:E; [ | exact IH].
  cbn [filter]. rewrite E, IH. reflexivity.
Qed.

Lemma removeAll_plain (s : str) : plain s -> removeAll CR s = s.
Proof.
  unfold plain, removeAll. induction 1 as [ | x s [Hx _] _ IH]; [reflexivity | ].
  cbn [filter]. destruct (N.eqb_spec x CR) as [-> | _]; [congruence | ].
  cbn [negb]. rewrite IH. reflexivity.
Qed.

Lemma replaceChar_plain (s : str) : plain s -> replaceChar NBSP SP s = s.
Proof.
  unfold plain, replaceChar. induction 1 as [ | x s [_ Hx] _ IH]; [reflexivity | ].
  cbn [map]. destruct (N.eqb_spec x NBSP) as [-> | _]; [congruence | ].
  rewrite IH. reflexivity.
Qed.

Lemma splitOn_plain (p : cu -> bool) (s piece : str) :
  plain s -> In piece (splitOn p s) -> plain piece.
Proof.
  intros Hs Hp. unfold plain in *. rewrite Forall_forall in *.
  intros x Hx. apply Hs. exact (In_splitOn p s piece x Hp Hx).
Qed.

(** On a text without carriage returns and no-break spaces the first two
    steps of [toLines] do nothing. *)
Lemma toLines_plain (t : str) :
  plain t -> toLines t = map trimEnd (splitOn (fun c => (c =? LF)%N) t).
Proof.
  intro H. unfold toLines. rewrite (removeAll_plain t H).
  apply map_ext_in. intros piece Hp.
  rewrite (replaceChar_plain piece (splitOn_plain _ _ _ H Hp)). reflexivity.
Qed.

Lemma splitOn_map (p : cu -> bool) (f : cu -> cu) (s : str) :
  (forall x, p (f x) = p x) ->
  splitOn p (map f s) = map (map f) (splitOn p s).
Proof.
  intro Hf. induction s as [ | c r IH]; [reflexivity | ].
  cbn [map splitOn]. rewrite Hf, IH.
  destruct (p c); [reflexivity | ].
  destruct (splitOn p r) as [ | piece rest]; reflexivity.
Qed.

Lemma replaceChar_idem (s : str) :
  replaceChar NBSP SP (replaceChar NBSP SP s) = replaceChar NBSP SP s.
Proof.
  unfold replaceChar. rewrite map_map. apply map_ext. intro x.
  destruct (N.eqb_spec x NBSP) as [-> | Hx]; [reflexivity | ].
  destruct (N.eqb_spec x NBSP); [contradiction | reflexivity].
Qed.

Lemma removeAll_replaceChar (s : str) :
  removeAll CR (replaceChar NBSP SP s) = replaceChar NBSP SP (removeAll CR s).
Proof.
  unfold removeAll, replaceChar. induction s as [ | x s IH]; [reflexivity | ].
  cbn [map filter]. destruct (N.eqb_spec x NBSP) as [-> | Hn].
  - change (negb (SP =? CR)%N) with true. change (negb (NBSP =? CR)%N) with true.
    cbv iota. cbn [map]. change (NBSP =? NBSP)%N with true. cbv iota.
    rewrite IH. reflexivity.
  - destruct (negb (x =? CR)%N); [ | exact IH].
    cbn [map]. destruct (N.eqb_spec x NBSP); [contradiction | ].
    rewrite IH. reflexivity.
Qed.

Lemma toLines_stripped (raw : str) : toLines (stripped raw) = toLines raw.
Proof.
  unfold toLines, stripped.
  rewrite removeAll_replaceChar, removeAll_idem.
  change (replaceChar NBSP SP (removeAll CR raw))
    with (map (fun x => if (x =? NBSP)%N then SP else x) (removeAll CR raw)).
  rewrite (splitOn_map _ _ (removeAll CR raw)).
  - rewrite map_map. apply map_ext. intro piece.
    change (map (fun x => if (x =? NBSP)%N then SP else x) piece)
      with (replaceChar NBSP SP piece).
    rewrite replaceChar_idem. reflexivity.
  - intro x. destruct (N.eqb_spec x NBSP) as [-> | ]; reflexivity.
Qed.

Lemma stripped_idem (raw : str) : stripped (stripped raw) = stripped raw.
Proof.
  unfold stripped. rewrite removeAll_replaceChar, removeAll_idem, replaceChar_idem.
  reflexivity.
Qed.

(** ** Documents of entries that end in an answer line *)

Lemma gas_eq (lines : list str) : gas lines = S (length lines).
Proof. reflexivity. Qed.

Opaque gas.

Lemma skipNoise_here (fuel : nat) (lines : list str) (i : nat) (l : str) :
  0 < fuel -> lineAt lines i = Val l -> isNoiseLine l = false ->
  skipNoise fuel lines i = Val i.
Proof.
  intros Hf Hl Hn. destruct fuel as [ | f]; [lia | ]. cbn [skipNoise].
  destruct (lineAt_Val _ _ _ Hl) as [_ Hlt].
  rewrite (proj2 (Nat.ltb_lt _ _) Hlt), Hl. cbn [bind]. rewrite Hn. reflexivity.
Qed.

Lemma optionAt_here (lines : list str) (i : nat) (l : str) :
  lineAt lines i = Val l -> optionAt lines i = Val (isOptionLine (trim l)).
Proof.
  intro Hl. unfold optionAt. destruct (lineAt_Val _ _ _ Hl) as [_ Hlt].
  rewrite (proj2 (Nat.ltb_lt _ _) Hlt), Hl. reflexivity.
Qed.

Lemma continuation_stop (lines : list str) (k : nat) (l opt : str) :
  lineAt lines k = Val l -> trim l = l -> isOptionLine l = true ->
  continuation (gas lines) lines k opt = Val (k, opt).
Proof.
  intros Hl Ht Ho. rewrite gas_eq. cbn [continuation].
  destruct (lineAt_Val _ _ _ Hl) as [_ Hlt].
  rewrite (proj2 (Nat.ltb_lt _ _) Hlt), Hl. cbn [bind]. rewrite Ht.
  rewrite (option_not_noise l Ht Ho), Ho. reflexivity.
Qed.

Lemma gas_pos (lines : list str) : 0 < gas lines.
Proof. rewrite gas_eq. lia. Qed.

Lemma isNoiseLine_nil : isNoiseLine [] = true.
Proof. reflexivity. Qed.

Lemma scanAnswer_gap (lines : list str) (answers : list str) (g : nat) :
  forall fuel a,
  (forall k, k < g -> lineAt lines (a + k) = Val []) ->
  scanAnswer (g + fuel) lines a answers = scanAnswer fuel lines (a + g) answers.
Proof.
  induction g as [ | g IH]; intros fuel a Hg.
  - rewrite Nat.add_0_r. reflexivity.
  - cbn [Nat.add scanAnswer].
    pose proof (Hg 0 ltac:(lia)) as H0. rewrite Nat.add_0_r in H0.
    destruct (lineAt_Val _ _ _ H0) as [_ Hlt].
    rewrite (proj2 (Nat.ltb_lt _ _) Hlt), H0. cbn [bind].
    change (trim []) with (@nil cu). rewrite isNoiseLine_nil.
    rewrite IH.
    + f_equal. lia.
    + intros k Hk. replace (a + 1 + k) with (a + S k) by lia. apply Hg. lia.
Qed.

Lemma option_line_facts (l : str) :
  trim l = l /\ isOptionLine l = true ->
  isNoiseLine l = false /\ isOptionLine (trim l) = true
  /\ isNoiseLine (trim l) = false.
Proof.
  intros [Ht Ho]. rewrite Ht.
  pose proof (option_not_noise l Ht Ho). repeat split; assumption.
Qed.

Lemma lineAt_app (pre l : list str) (k : nat) :
  lineAt (pre ++ l) (length pre + k) = lineAt l k.
Proof.
  unfold lineAt. rewrite nth_error_app2 by lia.
  replace (length pre + k - length pre) with k by lia. reflexivity.
Qed.

Lemma lineAt_head (pre : list str) (x : str) (t : list str) :
  lineAt (pre ++ x :: t) (length pre) = Val x.
Proof. rewrite <- (Nat.add_0_r (length pre)), lineAt_app. reflexivity. Qed.

Lemma lineAt_second (pre : list str) (x y : str) (t : list str) :
  lineAt (pre ++ x :: y :: t) (length pre + 1) = Val y.
Proof. rewrite lineAt_app. reflexivity. Qed.

Lemma ltb_head (pre : list str) (x : str) (t : list str) :
  (length pre <? length (pre ++ x :: t)) = true.
Proof. apply Nat.ltb_lt. rewrite length_app. cbn [length]. lia. Qed.

(** The four options, one line each, behind [front]. *)
Lemma entry_options (front : list str) (a b c d ans : str) (rest : list str) :
  trim a = a /\ isOptionLine a = true ->
  trim b = b /\ isOptionLine b = true ->
  trim c = c /\ isOptionLine c = true ->
  trim d = d /\ isOptionLine d = true ->
  trim ans = ans /\ isOptionLine ans = true ->
  let lines := front ++ a :: b :: c :: d :: ans :: rest in
  scanOptions (gas lines) lines (length front) []
  = Val (length front + 4, [a; b; c; d]).
Proof.
  intros Ha Hb Hc Hd Hans lines.
  destruct (option_line_facts a Ha) as [_ [Oa Na]].
  destruct (option_line_facts b Hb) as [_ [Ob Nb]].
  destruct (option_line_facts c Hc) as [_ [Oc Nc]].
  destruct (option_line_facts d Hd) as [_ [Od Nd]].
  assert (L : forall k, lineAt lines (length front + k)
                        = lineAt (a :: b :: c :: d :: ans :: rest) k)
    by (intro k; apply lineAt_app).
  assert (La : lineAt lines (length front) = Val a) by apply lineAt_head.
  pose proof (L 1) as Lb. pose proof (L 2) as Lc. pose proof (L 3) as Ld.
  pose proof (L 4) as Lans. cbn [lineAt nth_error] in Lb, Lc, Ld, Lans.
  destruct (lineAt_Val _ _ _ La) as [_ H1]. destruct (lineAt_Val _ _ _ Lb) as [_ H2].
  destruct (lineAt_Val _ _ _ Lc) as [_ H3]. destruct (lineAt_Val _ _ _ Ld) as [_ H4].
  assert (E : gas lines = S (S (S (S (length lines - 3))))) by (rewrite gas_eq; lia).
  rewrite E at 1. cbn [scanOptions].
  rewrite (proj2 (Nat.ltb_lt _ _) H1), La. cbn [bind]. rewrite Na, Oa. cbn [negb].
  rewrite (continuation_stop lines (length front + 1) b (trim a) Lb (proj1 Hb) (proj2 Hb)).
  cbn [bind app length Nat.leb].
  rewrite (proj2 (Nat.ltb_lt _ _) H2), Lb. cbn [bind]. rewrite Nb, Ob. cbn [negb].
  replace (length front + 1 + 1) with (length front + 2) by lia.
  rewrite (continuation_stop lines (length front + 2) c (trim b) Lc (proj1 Hc) (proj2 Hc)).
  cbn [bind app length Nat.leb].
  rewrite (proj2 (Nat.ltb_lt _ _) H3), Lc. cbn [bind]. rewrite Nc, Oc. cbn [negb].
  replace (length front + 2 + 1) with (length front + 3) by lia.
  rewrite (continuation_stop lines (length front + 3) d (trim c) Ld (proj1 Hd) (proj2 Hd)).
  cbn [bind app length Nat.leb].
  rewrite (proj2 (Nat.ltb_lt _ _) H4), Ld. cbn [bind]. rewrite Nd, Od. cbn [negb].
  replace (length front + 3 + 1) with (length front + 4) by lia.
  rewrite (continuation_stop lines (length front + 4) ans (trim d) Lans
             (proj1 Hans) (proj2 Hans)).
  cbn [bind app length Nat.leb].
  rewrite (proj1 Ha), (proj1 Hb), (proj1 Hc), (proj1 Hd). reflexivity.
Qed.

(** The question scan over the lines of a question, the last of them in
    front of the first option. *)
Lemma scanQuestion_lead (q a : str) (rest : list str) :
  trim a = a /\ isOptionLine a = true ->
  forall qs pre acc fuel,
  Forall questionLine (qs ++ [q]) -> length qs < fuel ->
  scanQuestion fuel (pre ++ qs ++ q :: a :: rest) (length pre) acc
  = Val (length pre + length qs + 1, acc ++ qs ++ [q]).
Proof.
  intro Ha. destruct (option_line_facts a Ha) as [Na [Oa _]].
  induction qs as [ | x qs IH]; intros pre acc fuel Hq Hf.
  - destruct fuel as [ | f]; [lia | ]. cbn [app scanQuestion].
    rewrite ltb_head, lineAt_head. cbn [bind].
    inversion Hq as [ | ? ? [Tq [Nq Oq]] _]; subst. rewrite Tq, Nq, Oq.
    rewrite (skipNoise_here _ _ _ a (gas_pos _) (lineAt_second pre q a rest) Na).
    cbn [bind]. rewrite (optionAt_here _ _ a (lineAt_second pre q a rest)), Oa.
    cbn [bind length]. rewrite Nat.add_0_r. reflexivity.
  - destruct fuel as [ | f]; [cbn [length] in Hf; lia | ]. cbn [app scanQuestion].
    rewrite ltb_head, lineAt_head. cbn [bind].
    inversion Hq as [ | ? ? [Tx [Nx Ox]] Hq']; subst. rewrite Tx, Nx, Ox.
    assert (Hy : exists y t, qs ++ q :: a :: rest = y :: t /\ questionLine y).
    { destruct qs as [ | y qs'].
      - exists q, (a :: rest). split; [reflexivity | ]. inversion Hq'; assumption.
      - exists y, (qs' ++ q :: a :: rest). split; [reflexivity | ].
        inversion Hq'; assumption. }
    destruct Hy as [y [t [Ey [Ty [Ny Oy]]]]].
    assert (Ly : lineAt (pre ++ x :: qs ++ q :: a :: rest) (length pre + 1) = Val y)
      by (rewrite Ey; apply lineAt_second).
    assert (Ny' : isNoiseLine y = false) by exact Ny.
    rewrite (skipNoise_here _ _ _ y (gas_pos _) Ly Ny'). cbn [bind].
    rewrite (optionAt_here _ _ y Ly), Ty, Oy. cbn [bind].
    change (pre ++ x :: qs ++ q :: a :: rest) with (pre ++ [x] ++ qs ++ q :: a :: rest).
    rewrite app_assoc.
    replace (length pre + 1) with (length (pre ++ [x]))
      by (rewrite length_app; reflexivity).
    rewrite IH; [ | exact Hq' | cbn [length] in Hf; lia].
    rewrite length_app. cbn [length]. rewrite <- !app_assoc. cbn [app].
    f_equal. f_equal. lia.
Qed.

(** The answer scan over the leading lines of the next question: each is
    appended to the answer; the last line of the question, in front of an
    option, is where the scan stops. *)
Lemma scanAnswer_lead (q2 o2 : str) (rest : list str) :
  trim o2 = o2 /\ isOptionLine o2 = true ->
  forall ps pre acc fuel,
  Forall leadLine (ps ++ [q2]) -> length ps < fuel ->
  scanAnswer fuel (pre ++ ps ++ q2 :: o2 :: rest) (length pre) [acc]
  = Val (length pre + length ps, [acc ++ spaced ps]).
Proof.
  intro Ho. destruct (option_line_facts o2 Ho) as [No [Oo _]].
  induction ps as [ | x ps IH]; intros pre acc fuel Hq Hf.
  - destruct fuel as [ | f]; [lia | ]. cbn [app scanAnswer].
    rewrite ltb_head, lineAt_head. cbn [bind].
    inversion Hq as [ | ? ? [[Tq _] [Nq [Oq Iq]]] _]; subst.
    rewrite Tq, Nq, Iq. cbn [truthy].
    change (isAnswerLine q2) with (isOptionLine q2). rewrite Oq. cbn [negb andb].
    rewrite (skipNoise_here _ _ _ o2 (gas_pos _) (lineAt_second pre q2 o2 rest) No).
    cbn [bind]. rewrite (optionAt_here _ _ o2 (lineAt_second pre q2 o2 rest)), Oo.
    cbn [bind length]. unfold spaced. cbn [map concat].
    rewrite Nat.add_0_r, app_nil_r. reflexivity.
  - destruct fuel as [ | f]; [cbn [length] in Hf; lia | ]. cbn [app scanAnswer].
    rewrite ltb_head, lineAt_head. cbn [bind].
    inversion Hq as [ | ? ? [[Tx _] [Nx [Ox Ix]]] Hq']; subst.
    rewrite Tx, Nx, Ix. cbn [truthy].
    change (isAnswerLine x) with (isOptionLine x). rewrite Ox. cbn [negb andb].
    assert (Hy : exists y t, ps ++ q2 :: o2 :: rest = y :: t /\ leadLine y).
    { destruct ps as [ | y ps'].
      - exists q2, (o2 :: rest). split; [reflexivity | ]. inversion Hq'; assumption.
      - exists y, (ps' ++ q2 :: o2 :: rest). split; [reflexivity | ].
        inversion Hq'; assumption. }
    destruct Hy as [y [t [Ey [[Ty _] [Ny [Oy _]]]]]].
    assert (Ly : lineAt (pre ++ x :: ps ++ q2 :: o2 :: rest) (length pre + 1) = Val y)
      by (rewrite Ey; apply lineAt_second).
    rewrite (skipNoise_here _ _ _ y (gas_pos _) Ly Ny). cbn [bind].
    rewrite (optionAt_here _ _ y Ly), Ty, Oy. cbn [bind length Nat.ltb Nat.leb appendLast].
    change (pre ++ x :: ps ++ q2 :: o2 :: rest) with (pre ++ [x] ++ ps ++ q2 :: o2 :: rest).
    rewrite app_assoc.
    replace (length pre + 1) with (length (pre ++ [x]))
      by (rewrite length_app; reflexivity).
    rewrite IH; [ | exact Hq' | cbn [length] in Hf; lia].
    rewrite length_app. cbn [length]. unfold spaced. cbn [map concat app].
    rewrite <- !app_assoc. cbn [app]. f_equal. f_equal. lia.
Qed.

Lemma nth_error_repeat_app (g k : nat) (rest : list str) :
  k < g -> nth_error (repeat [] g ++ rest) k = Some [].
Proof.
  revert k. induction g as [ | g IH]; intros k Hk; [lia | ].
  destruct k as [ | k]; [reflexivity | ]. cbn [repeat app nth_error]. apply IH. lia.
Qed.

(** What may stand behind an entry: nothing, or the lines of a question in
    front of an option. *)
Lemma entry_answer (front : list str) (ans : str) (g : nat) (ps tail : list str) :
  trim ans = ans /\ isOptionLine ans = true ->
  (ps = [] /\ tail = []
   \/ exists q2 o2 rest,
        tail = q2 :: o2 :: rest /\ Forall leadLine (ps ++ [q2])
        /\ trim o2 = o2 /\ isOptionLine o2 = true) ->
  let lines := front ++ ans :: repeat [] g ++ ps ++ tail in
  scanAnswer (gas lines) lines (length front) []
  = Val (length front + 1 + g + length ps, [ans ++ spaced ps]).
Proof.
  intros Hans Hnext lines.
  destruct (option_line_facts ans Hans) as [_ [Oans Nans]].
  assert (Hlen : length lines = length front + 1 + g + length (ps ++ tail)).
  { unfold lines. rewrite length_app. cbn [length]. rewrite length_app, repeat_length.
    rewrite <- !Nat.add_assoc. reflexivity. }
  assert (E : gas lines = S (g + (length lines - g))) by (rewrite gas_eq; lia).
  rewrite E. cbn [scanAnswer].
  unfold lines at 1. rewrite ltb_head. unfold lines at 1. rewrite lineAt_head.
  cbn [bind]. rewrite Nans.
  rewrite (option_not_inline (trim ans) (trim_idem ans) Oans). cbn [truthy].
  change (isAnswerLine (trim ans)) with (isOptionLine (trim ans)).
  rewrite Oans. cbn [negb andb bind app].
  rewrite scanAnswer_gap.
  2:{ intros k Hk. unfold lines.
      change (front ++ ans :: repeat [] g ++ ps ++ tail)
        with (front ++ [ans] ++ repeat [] g ++ ps ++ tail).
      rewrite app_assoc.
      replace (length front + 1 + k) with (length (front ++ [ans]) + k)
        by (rewrite length_app; reflexivity).
      rewrite lineAt_app. unfold lineAt.
      rewrite (nth_error_repeat_app _ _ _ Hk). reflexivity. }
  rewrite (proj1 Hans).
  replace lines with ((front ++ ans :: repeat [] g) ++ ps ++ tail)
    by (unfold lines; rewrite <- app_assoc; reflexivity).
  replace (length front + 1 + g) with (length (front ++ ans :: repeat [] g))
    by (rewrite length_app; cbn [length]; rewrite repeat_length; lia).
  set (pre := front ++ ans :: repeat [] g).
  assert (Hpre : length (pre ++ ps ++ tail) = length lines).
  { unfold pre, lines. rewrite <- app_assoc. reflexivity. }
  rewrite Hpre.
  destruct Hnext as [[-> ->] | [q2 [o2 [rest [-> [Hl Ho]]]]]].
  - cbn [app]. rewrite app_nil_r in *.
    destruct (length lines - g) as [ | f] eqn:F; [lia | ].
    cbn [scanAnswer]. rewrite Nat.ltb_irrefl. cbn [length].
    unfold spaced. cbn [map concat]. rewrite Nat.add_0_r, app_nil_r. reflexivity.
  - apply scanAnswer_lead; [exact Ho | exact Hl | ].
    rewrite Hlen, length_app. cbn [length]. lia.
Qed.

Lemma trimEnd_solid_last (s : str) : trimEnd s = s -> s <> [] ->
  exists a z, s = a ++ [z] /\ isSpace z = false.
Proof.
  intros Ht Hne. destruct (exists_last Hne) as [a [z E]].
  exists a, z. split; [exact E | ].
  apply (trimEnd_last s a z). rewrite Ht. exact E.
Qed.

Lemma trim_trimEnd (l : str) : trim l = l -> trimEnd l = l.
Proof.
  intro H. rewrite <- H at 1. unfold trim. rewrite trimEnd_idem. exact H.
Qed.

(** A string between two solid code units is trimmed. *)
Lemma trim_between (c z : cu) (m : str) :
  isSpace c = false -> isSpace z = false -> trim (c :: m ++ [z]) = c :: m ++ [z].
Proof.
  intros Hc Hz. unfold trim. rewrite (trimStart_solid c _ Hc).
  change (c :: m ++ [z]) with ((c :: m) ++ [z]). apply trimEnd_app_solid. exact Hz.
Qed.

Lemma solid_ends (l : str) :
  trim l = l -> l <> [] ->
  (exists c r, l = c :: r /\ isSpace c = false)
  /\ (exists a z, l = a ++ [z] /\ isSpace z = false).
Proof.
  intros Ht Hne. split.
  - destruct l as [ | c r]; [congruence | ]. exists c, r. split; [reflexivity | ].
    apply (trim_head (c :: r) c r). exact Ht.
  - apply trimEnd_solid_last; [apply trim_trimEnd; exact Ht | exact Hne].
Qed.

(** A text that begins with a trimmed line and ends with one is trimmed. *)
Lemma trim_framed (x m y : str) :
  trim x = x -> x <> [] -> trim y = y -> y <> [] -> trim (x ++ m ++ y) = x ++ m ++ y.
Proof.
  intros Tx Nx Ty Ny.
  destruct (proj1 (solid_ends x Tx Nx)) as [c [r [-> Hc]]].
  destruct (proj2 (solid_ends y Ty Ny)) as [a [z [-> Hz]]].
  cbn [app]. rewrite !app_assoc. apply trim_between; assumption.
Qed.

Lemma questionLine_nonempty (l : str) : questionLine l -> trim l = l /\ l <> [].
Proof.
  intros [Tl [Nl _]]. split; [exact Tl | ]. intro E. subst l. discriminate.
Qed.

Lemma join_cons2 (sep x y : str) (r : list str) :
  join sep (x :: y :: r) = x ++ sep ++ join sep (y :: r).
Proof. reflexivity. Qed.

Lemma join_framed (x q : str) (qs : list str) :
  exists m, join [SP] (x :: qs ++ [q]) = x ++ m ++ q.
Proof.
  revert x. induction qs as [ | y qs IH]; intro x.
  - exists [SP]. reflexivity.
  - destruct (IH y) as [m Hm]. exists ([SP] ++ y ++ m).
    change (x :: (y :: qs) ++ [q]) with (x :: y :: qs ++ [q]).
    rewrite join_cons2, Hm. rewrite <- !app_assoc. reflexivity.
Qed.

Lemma join_lines_trimmed (qs : list str) (q : str) :
  Forall questionLine (qs ++ [q]) ->
  trim (join [SP] (qs ++ [q])) = join [SP] (qs ++ [q])
  /\ join [SP] (qs ++ [q]) <> [].
Proof.
  intro H.
  assert (Hq : questionLine q).
  { apply Forall_app in H. destruct H as [_ H]. inversion H; assumption. }
  destruct (questionLine_nonempty q Hq) as [Tq Nq].
  destruct qs as [ | x qs]; [cbn [app join]; split; assumption | ].
  assert (Hx : questionLine x) by (inversion H; assumption).
  destruct (questionLine_nonempty x Hx) as [Tx Nx].
  destruct (join_framed x q qs) as [m Em].
  change ((x :: qs) ++ [q]) with (x :: qs ++ [q]). rewrite Em. split.
  - apply trim_framed; assumption.
  - destruct x; [congruence | discriminate].
Qed.

Lemma leadLine_question (l : str) : leadLine l -> questionLine l.
Proof. intros [[Tl _] [Nl [Ol _]]]. repeat split; assumption. Qed.

Lemma spaced_framed (ans : str) (ps : list str) :
  trim ans = ans -> ans <> [] -> Forall leadLine ps ->
  trim (ans ++ spaced ps) = ans ++ spaced ps.
Proof.
  intros Ta Na Hps.
  destruct ps as [ | p ps] using rev_ind.
  - unfold spaced. cbn [map concat]. rewrite app_nil_r. exact Ta.
  - clear IHps. apply Forall_app in Hps. destruct Hps as [_ Hp].
    inversion Hp as [ | ? ? Hp' _]; subst.
    destruct (questionLine_nonempty p (leadLine_question p Hp')) as [Tp Np].
    unfold spaced. rewrite map_app, concat_app. cbn [map concat].
    rewrite app_nil_r.
    change (SP :: p) with ([SP] ++ p). rewrite (app_assoc _ [SP] p).
    apply trim_framed; assumption.
Qed.

Lemma finalAnswer_framed (ans : str) (ps : list str) :
  trim ans = ans -> ans <> [] -> Forall leadLine ps ->
  finalAnswer [ans ++ spaced ps] = ans ++ spaced ps.
Proof.
  intros Ta Na Hps. unfold finalAnswer. cbn [join].
  rewrite (spaced_framed ans ps Ta Na Hps).
  destruct ans; [congruence | reflexivity].
Qed.

Lemma option_nonempty (l : str) : isOptionLine l = true -> l <> [].
Proof. intros H E. subst l. discriminate. Qed.

Lemma wellFormed_question (e : Entry) : wellFormed e -> leadLine (eQuestion e).
Proof.
  intros [Hq [Nq [Oq [Iq _]]]]. repeat split; try assumption; apply Hq.
Qed.

(** One pass over an entry with the question lines [qs] in front of it and
    the leading lines [ps] of the next question behind it. *)
Lemma cycle_long (pre qs : list str) (c : Entry) (ps tail : list str) :
  Forall leadLine qs -> wellFormed c -> Forall leadLine ps ->
  (ps = [] /\ tail = []
   \/ exists q2 o2 rest,
        tail = q2 :: o2 :: rest /\ leadLine q2
        /\ trim o2 = o2 /\ isOptionLine o2 = true) ->
  cycle (pre ++ qs ++ entryLines c ++ ps ++ tail) (length pre)
  = Val (length pre + length qs + 6 + eGap c + length ps,
         Emit (mkCard (join [SP] (qs ++ [eQuestion c])) [eA c; eB c; eC c; eD c]
                 (eAnswer c ++ spaced ps) None)).
Proof.
  intros Hqs Hc Hps Hnext.
  pose proof (wellFormed_question c Hc) as Hq.
  destruct Hc as [_ [_ [_ [_ [[[Ta _] Oa] [[[Tb _] Ob] [[[Tc _] Oc]
                 [[[Td _] Od] [[Tans _] Oans]]]]]]]]].
  set (q := eQuestion c) in *. set (a := eA c) in *. set (b := eB c) in *.
  set (cc := eC c) in *. set (d := eD c) in *. set (ans := eAnswer c) in *.
  set (g := eGap c) in *.
  assert (Hall : Forall questionLine (qs ++ [q])).
  { apply Forall_app. split.
    - eapply Forall_impl; [ | exact Hqs]. exact leadLine_question.
    - constructor; [apply leadLine_question; exact Hq | constructor]. }
  set (back := ps ++ tail) in *.
  assert (El : pre ++ qs ++ entryLines c ++ back
               = pre ++ qs ++ q :: a :: b :: cc :: d :: ans :: repeat [] g ++ back).
  { unfold entryLines. rewrite <- app_assoc. reflexivity. }
  rewrite El. set (lines := pre ++ qs ++ q :: a :: b :: cc :: d :: ans :: repeat [] g ++ back).
  assert (Hy : exists y t, qs ++ q :: a :: b :: cc :: d :: ans :: repeat [] g ++ back
                           = y :: t /\ questionLine y).
  { destruct qs as [ | y qs'].
    - exists q, (a :: b :: cc :: d :: ans :: repeat [] g ++ back).
      split; [reflexivity | ]. inversion Hall; assumption.
    - eexists y, _. split; [reflexivity | ]. inversion Hall; assumption. }
  destruct Hy as [y [t [Ey [Ty [Ny Oy]]]]].
  unfold cycle, candidateStart.
  assert (L0 : lineAt lines (length pre) = Val y)
    by (unfold lines; rewrite Ey; apply lineAt_head).
  rewrite (skipNoise_here _ _ _ y (gas_pos _) L0 Ny). cbn [bind].
  destruct (lineAt_Val _ _ _ L0) as [_ Hlt].
  replace (length lines <=? length pre) with false
    by (symmetry; apply Nat.leb_gt; exact Hlt).
  unfold lines at 2.
  rewrite (scanQuestion_lead q a _ (conj Ta Oa) qs pre [] (gas lines) Hall)
    by (rewrite gas_eq; unfold lines; rewrite !length_app; lia).
  cbn [bind app].
  set (front := pre ++ qs ++ [q]).
  assert (Ef : lines = front ++ a :: b :: cc :: d :: ans :: repeat [] g ++ back).
  { unfold lines, front. rewrite <- !app_assoc. reflexivity. }
  assert (Lf : length pre + length qs + 1 = length front).
  { unfold front. rewrite !length_app. cbn [length]. lia. }
  rewrite Lf.
  assert (La : lineAt lines (length front) = Val a) by (rewrite Ef; apply lineAt_head).
  rewrite (optionAt_here _ _ a La), Ta, Oa. cbn [bind negb].
  destruct (join_lines_trimmed qs q Hall) as [Tj Nj].
  rewrite Tj.
  replace (isEmpty (join [SP] (qs ++ [q]))) with false
    by (destruct (join [SP] (qs ++ [q])); [congruence | reflexivity]).
  rewrite Ef at 1 2.
  rewrite (entry_options front a b cc d ans _ (conj Ta Oa) (conj Tb Ob) (conj Tc Oc)
             (conj Td Od) (conj Tans Oans)).
  cbn [bind length Nat.ltb Nat.leb].
  set (front5 := front ++ [a; b; cc; d]).
  assert (E5 : lines = front5 ++ ans :: repeat [] g ++ ps ++ tail).
  { rewrite Ef. unfold front5. rewrite <- app_assoc. reflexivity. }
  assert (L5 : length front + 4 = length front5).
  { unfold front5. rewrite length_app. reflexivity. }
  rewrite L5.
  assert (Lans : lineAt lines (length front5) = Val ans) by (rewrite E5; apply lineAt_head).
  destruct (option_line_facts ans (conj Tans Oans)) as [Nans _].
  rewrite (skipNoise_here _ _ _ ans (gas_pos _) Lans Nans). cbn [bind].
  rewrite E5.
  rewrite (entry_answer front5 ans g ps tail (conj Tans Oans)).
  - cbn [bind].
    rewrite (finalAnswer_framed ans ps Tans (option_nonempty ans Oans) Hps).
    f_equal. f_equal. lia.
  - destruct Hnext as [H | [q2 [o2 [rest [-> [Hq2 Ho2]]]]]]; [left; exact H | right].
    exists q2, o2, rest. split; [reflexivity | ]. split; [ | exact Ho2].
    apply Forall_app. split; [exact Hps | constructor; [exact Hq2 | constructor]].
Qed.

Transparent gas.

Lemma length_entryLines (e : Entry) : length (entryLines e) = 6 + eGap e.
Proof. unfold entryLines. rewrite length_app, repeat_length. reflexivity. Qed.

Lemma segment_long (es : list LongEntry) :
  Forall wellFormedLong es ->
  forall qs c pre cards fuel,
  Forall leadLine qs -> wellFormed c ->
  length (pre ++ qs ++ entryLines c ++ concat (map longLines es)) - length pre < fuel ->
  segment fuel (pre ++ qs ++ entryLines c ++ concat (map longLines es)) (length pre) cards
  = Val (cards ++ longCards qs c es).
Proof.
  induction 1 as [ | e es He Hes IH]; intros qs c pre cards fuel Hqs Hc Hf.
  - cbn [map concat] in *.
    destruct fuel as [ | [ | f]];
      try (rewrite !length_app, length_entryLines in Hf; cbn [length] in Hf; lia).
    cbn [segment].
    replace (length pre <? length (pre ++ qs ++ entryLines c ++ []))
      with true
      by (symmetry; apply Nat.ltb_lt; rewrite !length_app, length_entryLines; lia).
    pose proof (cycle_long pre qs c [] [] Hqs Hc (Forall_nil _)
                  (or_introl (conj eq_refl eq_refl))) as Hcy.
    cbn [app] in Hcy. rewrite Hcy. cbn [bind length].
    replace (length pre + length qs + 6 + eGap c + 0 <?
             length (pre ++ qs ++ entryLines c ++ []))
      with false
      by (symmetry; apply Nat.ltb_ge; rewrite !length_app, length_entryLines;
          cbn [length]; lia).
    reflexivity.
  - cbn [map concat] in *. destruct He as [Hlead Hcore].
    destruct fuel as [ | f];
      [rewrite !length_app, length_entryLines in Hf; lia | ].
    cbn [segment].
    replace (length pre <?
             length (pre ++ qs ++ entryLines c ++ longLines e ++ concat (map longLines es)))
      with true
      by (symmetry; apply Nat.ltb_lt; rewrite !length_app, length_entryLines; lia).
    set (tl := eQuestion (core e) :: eA (core e)
                 :: ([eB (core e); eC (core e); eD (core e); eAnswer (core e)]
                     ++ repeat [] (eGap (core e))) ++ concat (map longLines es)).
    assert (Et : longLines e ++ concat (map longLines es) = lead e ++ tl).
    { unfold longLines, entryLines, tl. rewrite <- !app_assoc. reflexivity. }
    pose proof (wellFormed_question _ Hcore) as Hq2.
    assert (Ho2 : trim (eA (core e)) = eA (core e) /\ isOptionLine (eA (core e)) = true).
    { destruct Hcore as [_ [_ [_ [_ [[[Ta _] Oa] _]]]]]. split; assumption. }
    assert (Hnext : lead e = [] /\ tl = []
                    \/ exists q2 o2 rest,
                         tl = q2 :: o2 :: rest /\ leadLine q2
                         /\ trim o2 = o2 /\ isOptionLine o2 = true).
    { right. eexists _, _, _. split; [reflexivity | ]. split; [exact Hq2 | exact Ho2]. }
    pose proof (cycle_long pre qs c (lead e) tl Hqs Hc Hlead Hnext) as Hcy.
    rewrite Et. rewrite Hcy. cbn [bind]. rewrite <- Et.
    replace (pre ++ qs ++ entryLines c ++ longLines e ++ concat (map longLines es))
      with ((pre ++ qs ++ entryLines c ++ lead e) ++ []
            ++ entryLines (core e) ++ concat (map longLines es))
      by (unfold longLines; rewrite <- !app_assoc; reflexivity).
    replace (length pre + length qs + 6 + eGap c + length (lead e))
      with (length (pre ++ qs ++ entryLines c ++ lead e))
      by (rewrite !length_app, length_entryLines; lia).
    rewrite (IH [] (core e) _ _ f (Forall_nil _) Hcore).
    + rewrite <- app_assoc. reflexivity.
    + revert Hf. unfold longLines. cbn [app].
      repeat rewrite length_app. repeat rewrite length_entryLines. lia.
Qed.

Lemma splitOn_join (ls : list str) :
  ls <> [] -> Forall (Forall (fun c => (c =? LF)%N = false)) ls ->
  splitOn (fun c => (c =? LF)%N) (join [LF] ls) = ls.
Proof.
  intros Hne H. revert Hne.
  induction H as [ | x ls Hx Hls IH]; intro Hne; [exfalso; exact (Hne eq_refl) | ].
  destruct ls as [ | y ls].
  - cbn [join]. apply splitOn_none. exact Hx.
  - rewrite join_cons2. cbn [app]. rewrite splitOn_app_sep; [ | exact Hx | reflexivity].
    f_equal. apply IH. discriminate.
Qed.

Lemma plain_join (ls : list str) : Forall plain ls -> plain (join [LF] ls).
Proof.
  induction 1 as [ | x ls Hx Hls IH]; [constructor | ].
  destruct ls as [ | y ls]; [exact Hx | ]. rewrite join_cons2.
  apply Forall_app. split; [exact Hx | ].
  cbn [app]. constructor; [split; discriminate | exact IH].
Qed.

Lemma toLines_join (ls : list str) :
  ls <> [] -> Forall keptLine ls -> toLines (join [LF] ls) = ls.
Proof.
  intros Hne H. rewrite toLines_plain.
  - rewrite splitOn_join; [ | exact Hne | ].
    + rewrite <- (map_id ls) at 2. apply map_ext_in. intros l Hl.
      rewrite Forall_forall in H. exact (proj1 (H l Hl)).
    + eapply Forall_impl; [ | exact H]. intros l [_ Hl].
      eapply Forall_impl; [ | exact Hl]. intros x [Hx _]. cbv beta.
      apply N.eqb_neq. exact Hx.
  - apply plain_join. eapply Forall_impl; [ | exact H]. intros l [_ Hl].
    eapply Forall_impl; [ | exact Hl]. intros x [_ Hx]. exact Hx.
Qed.

Lemma textLine_kept (l : str) : textLine l -> keptLine l.
Proof. intros [Ht Hl]. split; [apply trim_trimEnd; exact Ht | exact Hl]. Qed.

Lemma entryLines_kept (e : Entry) : wellFormed e -> Forall keptLine (entryLines e).
Proof.
  intros [Hq [_ [_ [_ [[Ha _] [[Hb _] [[Hc _] [[Hd _] [Hans _]]]]]]]]].
  unfold entryLines. apply Forall_app. split.
  - repeat (constructor; [apply textLine_kept; assumption | ]). constructor.
  - apply Forall_forall. intros l Hl. apply repeat_spec in Hl. subst l.
    split; [reflexivity | constructor].
Qed.

Lemma longLines_kept (e : LongEntry) : wellFormedLong e -> Forall keptLine (longLines e).
Proof.
  intros [Hl Hc]. unfold longLines. apply Forall_app. split.
  - eapply Forall_impl; [ | exact Hl]. intros l [Ht _]. apply textLine_kept. exact Ht.
  - apply entryLines_kept. exact Hc.
Qed.

(** The cards of a document of entries whose questions have several lines. *)
Lemma parse_long_entries (e : LongEntry) (es : list LongEntry) :
  Forall wellFormedLong (e :: es) ->
  parseDocxContent (longDocument (e :: es)) = Val (longCards (lead e) (core e) es).
Proof.
  intro H. inversion H as [ | ? ? He Hes]; subst.
  unfold parseDocxContent, longDocument.
  rewrite toLines_join.
  - assert (E : concat (map longLines (e :: es))
               = lead e ++ entryLines (core e) ++ concat (map longLines es)).
    { cbn [map concat]. unfold longLines at 1. rewrite <- app_assoc. reflexivity. }
    rewrite E.
    apply (segment_long es Hes (lead e) (core e) [] []); [exact (proj1 He) | exact (proj2 He) | ].
    cbn [app length]. apply gas_bound.
  - cbn [map concat]. unfold longLines at 1, entryLines.
    destruct (lead e); discriminate.
  - apply Forall_concat. apply Forall_map.
    eapply Forall_impl; [ | exact H]. intros x Hx. apply longLines_kept. exact Hx.
Qed.

(** Entries of one question line are entries without leading lines. *)
Lemma documentOf_long (es : list Entry) :
  documentOf es = longDocument (map (mkLong []) es).
Proof.
  unfold documentOf, longDocument. rewrite map_map. reflexivity.
Qed.

Lemma longCards_single (c : Entry) (es : list Entry) :
  longCards [] c (map (mkLong []) es) = map entryCard (c :: es).
Proof.
  revert c. induction es as [ | e es IH]; intro c.
  - cbn [map longCards leadOf app join]. unfold spaced. cbn [map concat].
    rewrite app_nil_r. reflexivity.
  - cbn [map longCards leadOf lead core app join]. unfold spaced at 1. cbn [map concat].
    rewrite app_nil_r. rewrite IH. reflexivity.
Qed.

Lemma letterList_not_answer (ls : list cu) :
  ls <> [] -> Forall (fun l => isADi l = true) ls ->
  letterList ls <> UNKNOWN /\ optionHead (letterList ls) = false.
Proof.
  intros Hne H. destruct H as [ | l ls Hl _]; [congruence | ].
  unfold letterList. destruct ls as [ | l2 ls]; cbn [map].
  - cbn [join]. split; [discriminate | reflexivity].
  - rewrite join_cons2. cbn [app optionHead]. split.
    + unfold UNKNOWN. intro E. injection E as E1 E2. discriminate E2.
    + apply andb_false_intro2. reflexivity.
Qed.

(** X4.  On every input, every card [parseDocxContent] returns has a
    question without white space at its ends that is no option line, and
    options that are all option lines: each starts with a letter A to D and
    one of the three marks. *)
Theorem emitted_cards_shape (rawText : str) :
  exists cards,
    parseDocxContent rawText = Val cards
    /\ Forall (fun c =>
         trim (question c) = question c
         /\ isOptionLine (question c) = false
         /\ Forall (fun o => isOptionLine o = true) (options c)) cards.
Proof.
  destruct (parse_total rawText) as [cards [Hp _]]. exists cards.
  split; [exact Hp | ]. apply (parse_Forall _ rawText cards); [ | exact Hp].
  intros lines i i' c H.
  destruct (cycle_emit _ _ _ _ H) as [x [rest [opts [answers [-> [Hq [Ho _]]]]]]].
  unfold cardOf. cbn [question options]. splits.
  - apply trim_idem.
  - rewrite isOptionLine_head. apply question_not_option.
    inversion Hq; assumption.
  - eapply Forall_impl; [ | exact Ho]. intros o Hh. cbv beta.
    rewrite isOptionLine_head. exact Hh.
Qed.

(** X5.  On every input, the answer of every card [parseDocxContent]
    returns is the sentinel ["UNKNOWN"] or starts like an option line (a
    letter A to D and a mark): the answer scan begins on an option line or
    behind the last line.  So no card has what [extractInlineAnswer] returns
    for a line as its answer. *)
Theorem emitted_answer_never_inline (rawText : str) :
  exists cards,
    parseDocxContent rawText = Val cards
    /\ Forall (fun c =>
         (answer c = UNKNOWN \/ isOptionLine (answer c) = true)
         /\ forall s, extractInlineAnswer s <> Some (answer c)) cards.
Proof.
  destruct (parse_total rawText) as [cards [Hp _]]. exists cards.
  split; [exact Hp | ]. apply (parse_Forall _ rawText cards); [ | exact Hp].
  intros lines i i' c H.
  destruct (cycle_emit _ _ _ _ H) as [x [rest [opts [answers [-> [_ [_ Ha]]]]]]].
  unfold cardOf. cbn [answer].
  assert (Hs : finalAnswer answers = UNKNOWN \/ optionHead (finalAnswer answers) = true).
  { destruct Ha as [-> | Ha]; [left; reflexivity | right].
    apply finalAnswer_headed. exact Ha. }
  split.
  - destruct Hs as [Hs | Hs]; [left; exact Hs | right].
    rewrite isOptionLine_head. exact Hs.
  - intros s E. rewrite extractInlineAnswer_reading in E.
    destruct (inlineAnswer_letters _ _ E) as [ls [Hne [Hls Hv]]].
    destruct (letterList_not_answer ls Hne Hls) as [H1 H2].
    rewrite <- Hv in H1, H2. destruct Hs as [Hs | Hs]; congruence.
Qed.



(** X7.  [parseDocxContent] on the lines of entries that end in an answer
    line: for entries of a question line, four option lines and the answer
    as a repeated option line right behind them (each trimmed and of one
    line, the question neither noise nor an option line nor an inline
    answer), with any number of empty lines behind each, [parseDocxContent]
    applied to the text of these lines returns exactly the cards of the
    entries, in their order.  This is a statement about [parseDocxContent]
    on that text as it stands; the converter hands it the text
    [normalizeMcqText] makes of an upload. *)
Theorem answer_line_entries_parsed (es : list Entry) :
  Forall wellFormed es ->
  parseDocxContent (documentOf es) = Val (map entryCard es).
Proof.
  intro H. destruct es as [ | e es]; [reflexivity | ].
  rewrite documentOf_long. cbn [map].
  rewrite (parse_long_entries (mkLong [] e) (map (mkLong []) es)).
  - cbn [lead core]. rewrite longCards_single. reflexivity.
  - change (mkLong [] e :: map (mkLong []) es) with (map (mkLong []) (e :: es)).
    apply Forall_map. eapply Forall_impl; [ | exact H].
    intros x Hx. split; [constructor | exact Hx].
Qed.

Lemma answer_line_entries_parsed_witness :
  parseDocxContent (documentOf sampleEntries) = Val (map entryCard sampleEntries).
Proof.
  apply (answer_line_entries_parsed sampleEntries).
  unfold sampleEntries.
  repeat constructor; unfold optionText, textLine; cbn [eQuestion eA eB eC eD eAnswer];
    try (vm_compute; reflexivity);
    vm_compute; repeat constructor; discriminate.
Defined.

(** X8.  [handleFileUpload] ends in one of four states.  Without a file
    nothing changes.  When the extraction fails, the error is its message and
    there is no data.  For an extracted text the engine never fails, and
    either no card was found (the error of line 240, no data) or the data
    are the cards, at least one, with no error; every card then has a
    question and an answer that are not empty and two to four options.  The
    processing flag is off at the end. *)
Theorem handleFileUpload_outcome (e : extraction) (st : Converter) :
  let st' := handleFileUpload e st in
  match e with
  | NoFile => st' = st
  | ExtractionFailed message =>
      st' = mkConverter None false (Some (ProcessingFailed message))
  | Extracted text =>
      isProcessing st' = false
      /\ ((jsonData st' = None /\ error st' = Some NothingFound
           /\ parseDocxContent (normalizeMcqText text) = Val [])
          \/ exists cards,
               jsonData st' = Some cards /\ error st' = None
               /\ cards <> []
               /\ parseDocxContent (normalizeMcqText text) = Val cards
               /\ Forall (fun c =>
                    question c <> [] /\ answer c <> []
                    /\ 2 <= length (options c) <= 4) cards)
  end.
Proof.
  cbv zeta. destruct e as [ | message | text]; cbn [handleFileUpload]; try reflexivity.
  destruct (parse_total (normalizeMcqText text)) as [cards [Hp Hv]].
  rewrite Hp. destruct cards as [ | c cards].
  - split; [reflexivity | left]. splits; reflexivity.
  - split; [reflexivity | right]. exists (c :: cards).
    splits; try reflexivity; [discriminate | ].
    eapply Forall_impl; [ | exact Hv].
    intros x [Hq [Ha [_ [H2 [H4 _]]]]]. splits; assumption.
Qed.

(** X9.  A document without any of the capital letters A to D has no option
    line, before and after the normalizer: the upload ends with the error of
    line 240 and no data. *)
Theorem upload_without_letters (text : str) (st : Converter) :
  Forall (fun c => isAD c = false) text ->
  handleFileUpload (Extracted text) st = mkConverter None false (Some NothingFound).
Proof.
  intro H. cbn [handleFileUpload].
  rewrite parse_without_letters; [reflexivity | ].
  apply Forall_forall. intros x Hx.
  destruct (In_normalizeMcqText _ _ Hx) as [-> | [-> | Hin]]; try reflexivity.
  rewrite Forall_forall in H. exact (H x Hin).
Qed.

Lemma upload_without_letters_witness :
  handleFileUpload (Extracted (lit "정답: b")) (mkConverter None false None)
  = mkConverter None false (Some NothingFound).
Proof.
  apply (upload_without_letters (lit "정답: b")).
  vm_compute. repeat constructor.
Defined.

Lemma keepCard_viewCard (cs : list Flashcard) :
  Forall (fun c => trim (question c) = question c /\ trim (answer c) = answer c
                   /\ question c <> [] /\ answer c <> []) cs ->
  mapRes normalizeCard (map cardJson cs) = Val (map viewCard cs)
  /\ filter keepCard (map viewCard cs) = map viewCard cs.
Proof.
  induction 1 as [ | c cs [Hq [Ha [Hqn Han]]] _ [IH1 IH2]]; [split; reflexivity | ].
  split.
  - cbn [map mapRes]. rewrite (normalizeCard_cardJson c Hq Ha). cbn [bind].
    cbn [mapRes] in IH1. rewrite IH1. reflexivity.
  - cbn [map filter].
    assert (K : keepCard (viewCard c) = true).
    { apply keepCard_spec. split; assumption. }
    rewrite K, IH2. reflexivity.
Qed.

(** X10.  What the converter offers for download loads in the viewer as it
    is: if an upload leaves cards, [downloadJson] names the file
    [flashcards.json], and the load of App.tsx on its content keeps every
    card, in order, with the same question, options and answer, reports no
    error and shows the card screen. *)
Theorem converted_cards_load
  (text : str) (st : Converter) (cs : list Flashcard) (vs : ViewState) :
  jsonData (handleFileUpload (Extracted text) st) = Some cs ->
  let data := JArr (map cardJson cs) in
  downloadJson (handleFileUpload (Extracted text) st)
  = Some (lit "flashcards.json", data)
  /\ load false (Body data) vs = mkState (map viewCard cs) None false
  /\ render (load false (Body data) vs) = CardScreen.
Proof.
  intros H data. unfold downloadJson. rewrite H. split; [reflexivity | ].
  cbn [handleFileUpload] in H.
  destruct (parse_total (normalizeMcqText text)) as [cs0 [Hp Hv]].
  rewrite Hp in H.
  assert (Hcs : cs0 = cs /\ cs <> []).
  { destruct cs0 as [ | c cs0]; cbn [jsonData] in H; [discriminate | ].
    injection H as <-. split; [reflexivity | discriminate]. }
  destruct Hcs as [-> Hne].
  assert (Hclean : Forall (fun c => trim (question c) = question c
                                    /\ trim (answer c) = answer c
                                    /\ question c <> [] /\ answer c <> []) cs).
  { pose proof (parse_Forall _ _ _ cycle_emit_clean Hp) as Hc.
    rewrite Forall_forall in *. intros c Hin.
    destruct (Hc c Hin) as [H1 H2]. destruct (Hv c Hin) as [H3 [H4 _]].
    splits; assumption. }
  assert (E : load false (Body data) vs = mkState (map viewCard cs) None false).
  { unfold load, data. cbn [loadTry].
    destruct (keepCard_viewCard cs Hclean) as [K1 K2]. rewrite K1, K2.
    rewrite length_map. destruct cs as [ | c cs]; [congruence | reflexivity]. }
  split; [exact E | ]. rewrite E. unfold render. cbn [isLoading loadError cards].
  destruct cs; [congruence | reflexivity].
Qed.

Lemma converted_cards_load_witness :
  let cs := map entryCard sampleEntries in
  let data := JArr (map cardJson cs) in
  downloadJson (handleFileUpload (Extracted (documentOf sampleEntries))
                  (mkConverter None false None))
  = Some (lit "flashcards.json", data)
  /\ load false (Body data) (mkState [] None true)
     = mkState (map viewCard cs) None false
  /\ render (load false (Body data) (mkState [] None true)) = CardScreen.
Proof.
  apply (converted_cards_load (documentOf sampleEntries) (mkConverter None false None)
           (map entryCard sampleEntries) (mkState [] None true)).
  vm_compute. reflexivity.
Defined.

(** X11.  The normalizer changes white space only: the code units of its
    result that are no white space are those of its input, in the same
    order. *)
Theorem normalizer_keeps_solid_text (raw : str) :
  squash (normalizeMcqText raw) = squash raw.
Proof.
  rewrite normalizeMcqText_reading.
  rewrite squash_breakAnswers, squash_squeezeBlank, squash_breakOptions.
  apply squash_stripped.
Qed.

(** X12.  The result of the normalizer has no carriage return, no no-break
    space, and nowhere three line feeds in a row. *)
Theorem normalized_text_clean (raw : str) :
  ~ In CR (normalizeMcqText raw)
  /\ ~ In NBSP (normalizeMcqText raw)
  /\ forall a b, normalizeMcqText raw <> a ++ LF :: LF :: LF :: b.
Proof.
  assert (Hp : plain (normalizeMcqText raw)).
  { rewrite normalizeMcqText_reading.
    apply (replaceAll_plain _ _ answerBreak_shrinking answerBreak_conservative).
    apply (replaceAll_plain _ _ blankRun_shrinking blankRun_conservative).
    apply (replaceAll_plain _ _ optionBreak_shrinking optionBreak_conservative).
    apply stripped_plain. }
  unfold plain in Hp. rewrite Forall_forall in Hp. splits.
  - intro H. exact (proj1 (Hp _ H) eq_refl).
  - intro H. exact (proj2 (Hp _ H) eq_refl).
  - intros a b. apply noBlankRun_no_three.
    rewrite normalizeMcqText_reading.
    apply breakAnswers_noBlankRun, squeezeBlank_noBlankRun.
Qed.

(** X13.  Carriage returns and no-break spaces never matter: on a text and
    on the text with every carriage return removed and every no-break space
    replaced by a space, [normalizeMcqText] returns the same, and so does
    [parseDocxContent]. *)
Theorem stripped_input_same_result (raw : str) :
  normalizeMcqText (replaceChar NBSP SP (removeAll CR raw)) = normalizeMcqText raw
  /\ parseDocxContent (replaceChar NBSP SP (removeAll CR raw)) = parseDocxContent raw.
Proof.
  fold (stripped raw). split.
  - rewrite !normalizeMcqText_reading. fold (stripped (stripped raw)). fold (stripped raw).
    rewrite stripped_idem. reflexivity.
  - unfold parseDocxContent. rewrite toLines_stripped. reflexivity.
Qed.

(** X14.  Whatever happens to the viewer of App.tsx (loads that settle, keys,
    clicks, in any order), the position is never negative and, with cards,
    is the index of one of them; on the card screen the card that line 153
    reads is there. *)
Theorem viewer_position_in_range (es : list event) :
  let v := run es initialViewer in
  (0 <= currentIndex v)%Z
  /\ (cards (view v) = [] \/ (currentIndex v < cardCount v)%Z)
  /\ (render (view v) = CardScreen -> exists c, currentCard v = Some c).
Proof.
  cbv zeta.
  assert (H : inRange (run es initialViewer)).
  { apply run_inRange. split; [cbn; lia | left; reflexivity]. }
  destruct H as [H0 H1]. splits; [exact H0 | exact H1 | ].
  intro R. apply inRange_currentCard; [split; assumption | ].
  apply render_card. exact R.
Qed.




(** X16.  A swipe in the JavaScript viewer (touch start at [x], last move
    at [y], touch end): with [x] or [y] at 0 nothing happens (the position 0
    is taken for no touch); else a swipe of more than 50 to the left goes to
    the next card unless the card is the last, one of more than 50 to the
    right goes to the previous card unless the card is the first, and a
    shorter one leaves the position.  A touch that never moves leaves it
    too. *)
Theorem js_swipe (v : JsViewer.Viewer) (x y : Z) :
  let i := JsViewer.currentIndex v in
  let n := JsViewer.cardCount v in
  JsViewer.currentIndex
    (JsViewer.onTouchEnd (JsViewer.onTouchMove y (JsViewer.onTouchStart x v)))
  = (if (x =? 0) || (y =? 0) then i
     else if 50 <? x - y then (if i <? n - 1 then i + 1 else i)
     else if x - y <? - 50 then (if 0 <? i then i - 1 else i)
     else i)%Z
  /\ JsViewer.currentIndex (JsViewer.onTouchEnd (JsViewer.onTouchStart x v)) = i.
Proof.
  cbv zeta. split; [ | unfold JsViewer.onTouchEnd, JsViewer.onTouchStart;
                       cbn; rewrite orb_true_r; reflexivity].
  unfold JsViewer.onTouchEnd, JsViewer.onTouchMove, JsViewer.onTouchStart.
  cbn [JsViewer.touchStart JsViewer.touchEnd JsViewer.truthyNum JsViewer.numOf].
  rewrite !negb_involutive.
  destruct (x =? 0)%Z; [reflexivity | ].
  destruct (y =? 0)%Z; [reflexivity | ]. cbn [orb].
  unfold JsViewer.minSwipeDistance, JsViewer.handleNext, JsViewer.handlePrev,
    JsViewer.cardCount, JsViewer.moveTo.
  cbn [JsViewer.view JsViewer.currentIndex].
  change (Z.opp 50) with (-50)%Z.
  destruct (50 <? x - y)%Z eqn:E1; destruct (x - y <? -50)%Z eqn:E2.
  - apply Z.ltb_lt in E1. apply Z.ltb_lt in E2. lia.
  - destruct (JsViewer.currentIndex v <? _)%Z; reflexivity.
  - destruct (0 <? JsViewer.currentIndex v)%Z; reflexivity.
  - reflexivity.
Qed.

(** X17.  Questions of several lines.  In a document of entries whose
    questions have further lines in front of the last one (each a trimmed
    line of text that is no noise, no option line and no inline answer), the
    first card's question is all the lines of its question joined by a space.
    For every later entry only the last line of the question becomes the
    card's question: the lines in front of it are appended, each behind a
    space, to the answer of the card before. *)
Theorem long_questions_parsed (e : LongEntry) (es : list LongEntry) :
  Forall wellFormedLong (e :: es) ->
  parseDocxContent (longDocument (e :: es)) = Val (longCards (lead e) (core e) es).
Proof. intro H. apply parse_long_entries. exact H. Qed.

Lemma long_questions_parsed_witness :
  parseDocxContent (longDocument sampleLong)
  = Val [mkCard (lit "Read the text. What is 2+2?")
           [lit "A. 3"; lit "B. 4"; lit "C. 5"; lit "D. 6"]
           (lit "B. 4 Look at the map.") None;
         mkCard (lit "수도는?")
           [lit "A) 서울"; lit "B) 부산"; lit "C) 대구"; lit "D) 인천"]
           (lit "A) 서울") None].
Proof.
  apply (long_questions_parsed
           (mkLong [lit "Read the text."]
              (mkEntry (lit "What is 2+2?") (lit "A. 3") (lit "B. 4") (lit "C. 5")
                 (lit "D. 6") (lit "B. 4") 1))
           [mkLong [lit "Look at the map."]
              (mkEntry (lit "수도는?") (lit "A) 서울") (lit "B) 부산") (lit "C) 대구")
                 (lit "D) 인천") (lit "A) 서울") 0)]).
  repeat constructor; unfold optionText, textLine;
    cbn [lead core eQuestion eA eB eC eD eAnswer];
    try (vm_compute; reflexivity);
    vm_compute; repeat constructor; discriminate.
Defined.
